(** * Collision bookkeeping and ray queries of the rigid-body physics provider

    A shallow embedding of
      - src/framework/components/rigid-body/physics-provider.js  (PhysicsProvider)
      - src/physics/ammo-provider.js                              (AmmoProvider)
      - src/framework/components/rigid-body/contact.js            (result records)
    followed by the properties proved about it.

    Conventions of the embedding.
      - An entity reference is an object identity ([EntityRef]); what the code
        reads through a reference ([getGuid()], [.collision], [.rigidbody],
        [.trigger], the listeners of a component) is looked up in a [Scene].
      - [this.collisions] and [this.frameCollisions] are JS objects used as
        maps from guid to a record.  They are insertion-ordered association
        lists: guids are UUID strings, so the property order of the object is
        the insertion order, and it is the order [for ... in] visits.
      - [component.fire(name, arg)] appends to the list of fired events that
        every operation returns; handlers are not part of the provider.
      - Numbers that the backend reports (fractions, coordinates, impulses)
        are finite and are carried as rationals. *)

From Stdlib Require Import List String ZArith QArith Bool Arith Lia Lqa Permutation Sorted.
Import ListNotations.

Close Scope Q_scope.
Set Implicit Arguments.

(* ------------------------------------------------------------------ *)
(** ** Entities, components and events *)

Definition Guid := string.
Definition EntityRef := nat.

Definition EntityRef_eq_dec : forall a b : EntityRef, {a = b} + {a <> b} := Nat.eq_dec.

Inductive EventName : Type :=
| contact | collisionstart | collisionend | triggerenter | triggerleave.

Definition EventName_eqb (a b : EventName) : bool :=
  match a, b with
  | contact, contact | collisionstart, collisionstart
  | collisionend, collisionend | triggerenter, triggerenter
  | triggerleave, triggerleave => true
  | _, _ => false
  end.

(** A component is an event emitter: all the provider asks of it is
    [hasEvent(name)], and all it does to it is [fire(name, arg)]. *)
Record Component : Type := { listeners : list EventName }.

Definition hasEvent (c : Component) (name : EventName) : bool :=
  existsb (EventName_eqb name) (listeners c).

Inductive ComponentKind : Type := Collision | Rigidbody.

(** What the code reads through an entity reference.  [trigger] is the
    truthiness of [entity.trigger]. *)
Record Entity : Type := {
  getGuid : Guid;
  collision : option Component;
  rigidbody : option Component;
  trigger : bool
}.

(** The scene the provider runs in: the entities behind the references and
    the listeners of the rigid-body system itself ([this.system.hasEvent]). *)
Record Scene : Type := {
  entities : EntityRef -> Entity;
  systemListeners : list EventName
}.

(* ------------------------------------------------------------------ *)
(** ** Result records (contact.js) *)

Record Vec3 : Type := { x : Q; y : Q; z : Q }.

Record ContactPoint : Type := {
  localPoint : Vec3;
  localPointOther : Vec3;
  point : Vec3;
  pointOther : Vec3;
  normal : Vec3;
  impulse : Q
}.

Record ContactResult : Type := {
  other : EntityRef;
  contacts : list ContactPoint
}.

Record SingleContactResult : Type := {
  a : EntityRef;
  b : EntityRef;
  localPointA : Vec3;
  localPointB : Vec3;
  pointA : Vec3;
  pointB : Vec3;
  normalAB : Vec3;
  impulseAB : Q
}.

(** [entity] of a RaycastResult is whatever [body.entity] held: it is [None]
    when the body carries no entity. *)
Record RaycastResult : Type := {
  hitEntity : option EntityRef;
  hitPoint : Vec3;
  hitNormal : Vec3;
  hitFraction : Q
}.

(** The argument passed to a handler. *)
Inductive Payload : Type :=
| PEntity (e : EntityRef)
| PContact (r : ContactResult).

(** One call of [fire]: on a component of an entity, or on the system. *)
Inductive Fired : Type :=
| FireComponent (owner : EntityRef) (kind : ComponentKind) (name : EventName) (arg : Payload)
| FireSystem (name : EventName) (r : SingleContactResult).

(* ------------------------------------------------------------------ *)
(** ** JS objects used as maps, and arrays *)

Record CollisionRecord : Type := {
  others : list EntityRef;
  entity : EntityRef
}.

Definition CollisionMap := list (Guid * CollisionRecord).

(** [m[g]] *)
Fixpoint lookup (g : Guid) (m : CollisionMap) : option CollisionRecord :=
  match m with
  | [] => None
  | (k, c) :: m' => if String.eqb k g then Some c else lookup g m'
  end.

(** [m[g] = c]: an existing property keeps its place; a new one goes last,
    which is where JavaScript enumerates a new property unless its name is
    an array index. *)
Fixpoint assign (g : Guid) (c : CollisionRecord) (m : CollisionMap) : CollisionMap :=
  match m with
  | [] => [(g, c)]
  | (k, c0) :: m' => if String.eqb k g then (k, c) :: m' else (k, c0) :: assign g c m'
  end.

(** [delete m[g]] *)
Fixpoint delete (g : Guid) (m : CollisionMap) : CollisionMap :=
  match m with
  | [] => []
  | (k, c0) :: m' => if String.eqb k g then m' else (k, c0) :: delete g m'
  end.

Definition keys (m : CollisionMap) : list Guid := map fst m.

(** [l.indexOf(x)], strict equality on references; -1 when absent. *)
Fixpoint indexOfFrom (x : EntityRef) (l : list EntityRef) (i : Z) : Z :=
  match l with
  | [] => (-1)%Z
  | y :: l' => if Nat.eqb y x then i else indexOfFrom x l' (i + 1)%Z
  end.

Definition indexOf (l : list EntityRef) (x : EntityRef) : Z := indexOfFrom x l 0%Z.

(** [l.splice(i, 1)] *)
Fixpoint splice1 (i : nat) (l : list EntityRef) : list EntityRef :=
  match l, i with
  | [], _ => []
  | _ :: l', O => l'
  | y :: l', S i' => y :: splice1 i' l'
  end.

(* ------------------------------------------------------------------ *)
(** ** PhysicsProvider (physics-provider.js) *)

Module PhysicsProvider.

Record Provider : Type := {
  collisions : CollisionMap;
  frameCollisions : CollisionMap
}.

(** The constructor: both maps start as [{}]. *)
Definition constructor : Provider :=
  {| collisions := []; frameCollisions := [] |}.

Definition hasAnyEvent (c : option Component) (names : list EventName) : bool :=
  match c with
  | Some c => existsb (hasEvent c) names
  | None => false
  end.

Definition _hasContactEvent (sc : Scene) (entity : EntityRef) : bool :=
  let c := collision (entities sc entity) in
  if hasAnyEvent c [collisionstart; collisionend; contact] then true
  else
    let r := rigidbody (entities sc entity) in
    hasAnyEvent r [collisionstart; collisionend; contact].

Definition push (c : CollisionRecord) (o : EntityRef) : CollisionRecord :=
  {| others := others c ++ [o]; entity := entity c |}.

(** [x = m[g] || { others: [], entity: entity }] *)
Definition orFresh (m : CollisionMap) (g : Guid) (entity : EntityRef) : CollisionRecord :=
  match lookup g m with
  | Some c => c
  | None => {| others := []; entity := entity |}
  end.

Definition _storeCollision (sc : Scene) (entity other : EntityRef) (this : Provider)
  : bool * Provider :=
  let guid := getGuid (entities sc entity) in
  let cs := assign guid (orFresh (collisions this) guid entity) (collisions this) in
  let c := orFresh cs guid entity in
  let '(isNewCollision, cs) :=
    if (indexOf (others c) other <? 0)%Z
    then (true, assign guid (push c other) cs)
    else (false, cs) in
  let fs := assign guid (orFresh (frameCollisions this) guid entity) (frameCollisions this) in
  let fs := assign guid (push (orFresh fs guid entity) other) fs in
  (isNewCollision, {| collisions := cs; frameCollisions := fs |}).

(** [!frameCollision || frameCollision.others.indexOf(other) < 0] *)
Definition notInFrame (frameCollision : option CollisionRecord) (other : EntityRef) : bool :=
  match frameCollision with
  | None => true
  | Some f => (indexOf (others f) other <? 0)%Z
  end.

Definition isSome {A : Type} (o : option A) : bool :=
  match o with Some _ => true | None => false end.

(** [if (cond) { component.fire(...) }] as the events it adds. *)
Definition fireIf (cond : bool) (ev : Fired) : list Fired :=
  if cond then [ev] else [].

(** The notifications for one ended pair: the body of the [if] at lines
    124-145, after the [splice]. *)
Definition fireExit (sc : Scene) (entity other : EntityRef) : list Fired :=
  let entityCollision := collision (entities sc entity) in
  let entityRigidbody := rigidbody (entities sc entity) in
  if trigger (entities sc entity) then
    fireIf (isSome entityCollision)
           (FireComponent entity Collision triggerleave (PEntity other))
    ++ fireIf (isSome (rigidbody (entities sc other)))
           (FireComponent other Rigidbody triggerleave (PEntity entity))
  else if negb (trigger (entities sc other)) then
    fireIf (isSome entityRigidbody)
           (FireComponent entity Rigidbody collisionend (PEntity other))
    ++ fireIf (isSome entityCollision)
           (FireComponent entity Collision collisionend (PEntity other))
  else [].

(** [let i = length; while (i--) { ... }]: [i] is the value before the
    decrement.  [others[i]] is always defined here, since [splice] only ever
    removes the element at the index being visited; the [None] branch keeps
    the function total. *)
Fixpoint whileLoop (sc : Scene) (frameCollision : option CollisionRecord)
    (entity : EntityRef) (i : nat) (others : list EntityRef)
  : list EntityRef * list Fired :=
  match i with
  | O => (others, [])
  | S i =>
      match nth_error others i with
      | Some other =>
          if notInFrame frameCollision other then
            let others := splice1 i others in
            let '(others, log) := whileLoop sc frameCollision entity i others in
            (others, fireExit sc entity other ++ log)
          else whileLoop sc frameCollision entity i others
      | None => whileLoop sc frameCollision entity i others
      end
  end.

(** The body of the [for (const guid in this.collisions)] loop. *)
Definition cleanGuid (sc : Scene) (acc : Provider * list Fired) (guid : Guid)
  : Provider * list Fired :=
  let '(this, log) := acc in
  match lookup guid (collisions this) with
  | None => acc
  | Some c =>
      let frameCollision := lookup guid (frameCollisions this) in
      let '(others', ev) :=
        whileLoop sc frameCollision (entity c) (List.length (others c)) (others c) in
      let cs := assign guid {| others := others'; entity := entity c |} (collisions this) in
      let cs := if Nat.eqb (List.length others') 0 then delete guid cs else cs in
      ({| collisions := cs; frameCollisions := frameCollisions this |}, log ++ ev)
  end.

Definition _cleanOldCollisions (sc : Scene) (this : Provider) : Provider * list Fired :=
  fold_left (cleanGuid sc) (keys (collisions this)) (this, []).

End PhysicsProvider.

(* ------------------------------------------------------------------ *)
(** ** What the backend hands to the adapter *)

(** A rigid body as the adapter sees it: the [entity] property that the
    engine attaches (absent on bodies it did not create) and the collision
    flags. *)
Record btRigidBody : Type := {
  bodyEntity : option EntityRef;
  getCollisionFlags : Z
}.

Record btManifoldPoint : Type := {
  m_localPointA : Vec3;
  m_localPointB : Vec3;
  getPositionWorldOnA : Vec3;
  getPositionWorldOnB : Vec3;
  m_normalWorldOnB : Vec3;
  getAppliedImpulse : Q
}.

Record btPersistentManifold : Type := {
  getBody0 : btRigidBody;
  getBody1 : btRigidBody;
  contactPoints : list btManifoldPoint
}.

Definition getNumContacts (m : btPersistentManifold) : nat :=
  List.length (contactPoints m).

(** One reported ray hit.  [m_collisionObject] is the result of
    [Ammo.castObject(..., Ammo.btRigidBody)], [None] when it is falsy.  The
    all-hits callback fills its four arrays together, one slot per hit, so
    its result is a list of these. *)
Record RayHit : Type := {
  m_collisionObject : option btRigidBody;
  m_hitPointWorld : Vec3;
  m_hitNormalWorld : Vec3;
  m_hitFraction : Q
}.

(** The backend at the time of a call.  [setInternalTickCallback] tells
    whether the dynamics world has that method; [getManifolds] are the
    manifolds of its dispatcher, by index.  A ray test takes the start and
    end points and the filter group and mask set on the callback ([None]: the
    callback's default was left in place).  The closest-hit test gives
    [None] when [hasHit()] is false.  [AllHitsRayResultCallback] is [None]
    when the build of the backend does not expose it. *)
Record Ammo : Type := {
  setInternalTickCallback : bool;
  getManifolds : list btPersistentManifold;
  ClosestRayResultCallback : Vec3 -> Vec3 -> option Z -> option Z -> option RayHit;
  AllHitsRayResultCallback : option (Vec3 -> Vec3 -> option Z -> option Z -> list RayHit)
}.

Inductive Error : Type :=
| ReferenceError (identifier : string)
| TypeError (message : string).

Inductive Completion (A : Type) : Type :=
| Normal (v : A)
| Throw (e : Error).

Arguments Normal {A} v.
Arguments Throw {A} e.

(** [Array.prototype.sort(comparefn)].  ECMAScript fixes the result for a
    consistent comparator: ascending by [comparefn], and stable.  Insertion
    from the right end gives exactly that list. *)
Fixpoint sortInsert {A : Type} (comparefn : A -> A -> Q) (v : A) (l : list A) : list A :=
  match l with
  | [] => [v]
  | w :: l' =>
      if Qle_bool (comparefn v w) 0%Q then v :: w :: l'
      else w :: sortInsert comparefn v l'
  end.

Fixpoint arraySort {A : Type} (comparefn : A -> A -> Q) (l : list A) : list A :=
  match l with
  | [] => []
  | v :: l' => sortInsert comparefn v (arraySort comparefn l')
  end.

(* ------------------------------------------------------------------ *)
(** ** AmmoProvider (ammo-provider.js) *)

Module AmmoProvider.

Import PhysicsProvider.

(** Code that changes the provider and fires events. *)
Definition M (A : Type) : Type := Provider -> A * Provider * list Fired.

Definition ret {A : Type} (v : A) : M A := fun this => (v, this, []).

Definition bind {A B : Type} (m : M A) (k : A -> M B) : M B :=
  fun this =>
    let '(v, this1, log1) := m this in
    let '(w, this2, log2) := k v this1 in
    (w, this2, log1 ++ log2).

Notation "v <- m ;; k" := (bind m (fun v => k))
  (at level 61, m at next level, right associativity).
Notation "m ;;; k" := (bind m (fun _ => k))
  (at level 61, right associativity).

Definition fire (owner : EntityRef) (kind : ComponentKind) (name : EventName)
    (arg : Payload) : M unit :=
  fun this => (tt, this, [FireComponent owner kind name arg]).

Definition fireSystem (name : EventName) (r : SingleContactResult) : M unit :=
  fun this => (tt, this, [FireSystem name r]).

Definition when (cond : bool) (m : M unit) : M unit :=
  if cond then m else ret tt.

Definition storeCollision (sc : Scene) (entity other : EntityRef) : M bool :=
  fun this => let '(isNew, this') := _storeCollision sc entity other this in (isNew, this', []).

Definition cleanOldCollisions (sc : Scene) : M unit :=
  fun this => let '(this', log) := _cleanOldCollisions sc this in (tt, this', log).

Definition _createContactPointFromAmmo (contactPoint : btManifoldPoint) : ContactPoint :=
  {| localPoint := m_localPointA contactPoint;
     localPointOther := m_localPointB contactPoint;
     point := getPositionWorldOnA contactPoint;
     pointOther := getPositionWorldOnB contactPoint;
     normal := m_normalWorldOnB contactPoint;
     impulse := getAppliedImpulse contactPoint |}.

Definition _createReverseContactPointFromAmmo (contactPoint : btManifoldPoint) : ContactPoint :=
  {| localPointOther := m_localPointA contactPoint;
     localPoint := m_localPointB contactPoint;
     pointOther := getPositionWorldOnA contactPoint;
     point := getPositionWorldOnB contactPoint;
     normal := m_normalWorldOnB contactPoint;
     impulse := getAppliedImpulse contactPoint |}.

Definition _createSingleContactResult (a b : EntityRef) (contactPoint : ContactPoint)
  : SingleContactResult :=
  {| a := a; b := b;
     localPointA := localPoint contactPoint;
     localPointB := localPointOther contactPoint;
     pointA := point contactPoint;
     pointB := pointOther contactPoint;
     normalAB := normal contactPoint;
     impulseAB := impulse contactPoint |}.

Definition _createContactResult (other : EntityRef) (contacts : list ContactPoint)
  : ContactResult :=
  {| other := other; contacts := contacts |}.

Section Detection.

(** The flag bit of constants.js, which marks a body without collision
    response. *)
Variable BODYFLAG_NORESPONSE_OBJECT : Z.

Variable sc : Scene.

(** Truthiness of [flags & BODYFLAG_NORESPONSE_OBJECT]. *)
Definition noResponse (flags : Z) : bool :=
  negb (Z.land flags BODYFLAG_NORESPONSE_OBJECT =? 0)%Z.

Definition triggerListeners (c : option Component) : bool :=
  hasAnyEvent c [triggerenter; triggerleave].

(** Lines 269-274 and 276-281: the collision component of one of the two
    entities.  [newCollision] is the variable shared by the four blocks. *)
Definition collisionSide (entity other : EntityRef) (otherFlags : Z) (newCollision : bool)
  : M bool :=
  if triggerListeners (collision (entities sc entity)) then
    newCollision <- storeCollision sc entity other ;;
    when (newCollision && negb (noResponse otherFlags))
         (fire entity Collision triggerenter (PEntity other)) ;;;
    ret newCollision
  else ret newCollision.

(** Lines 284-292 and 294-302: the rigidbody component of one of the two
    entities.  The pair is stored under the other entity. *)
Definition rigidbodySide (entity other : EntityRef) (newCollision : bool) : M bool :=
  if triggerListeners (rigidbody (entities sc entity)) then
    newCollision <-
      (if negb newCollision then storeCollision sc other entity else ret newCollision) ;;
    when newCollision (fire entity Rigidbody triggerenter (PEntity other)) ;;;
    ret newCollision
  else ret newCollision.

(** Lines 263-302.  [newCollision] is declared without a value, which is
    falsy.  The four listener tests are made before the first block and do
    not depend on the provider. *)
Definition triggerPath (e0 e1 : EntityRef) (flags0 flags1 : Z) : M unit :=
  newCollision <- collisionSide e0 e1 flags1 false ;;
  newCollision <- collisionSide e1 e0 flags0 newCollision ;;
  newCollision <- rigidbodySide e0 e1 newCollision ;;
  newCollision <- rigidbodySide e1 e0 newCollision ;;
  ret tt.

(** The [for (let j = 0; j < numContacts; j++)] loop of the contact path. *)
Fixpoint contactLoop (e0 e1 : EntityRef) (e0Events e1Events globalEvents : bool)
    (points : list btManifoldPoint) (forwardContacts reverseContacts : list ContactPoint)
  : M (list ContactPoint * list ContactPoint) :=
  match points with
  | [] => ret (forwardContacts, reverseContacts)
  | btContactPoint :: points =>
      let contactPoint := _createContactPointFromAmmo btContactPoint in
      let '(forwardContacts, reverseContacts) :=
        if e0Events || e1Events then
          (forwardContacts ++ [contactPoint],
           reverseContacts ++ [_createReverseContactPointFromAmmo btContactPoint])
        else (forwardContacts, reverseContacts) in
      when globalEvents
           (fireSystem contact (_createSingleContactResult e0 e1 contactPoint)) ;;;
      contactLoop e0 e1 e0Events e1Events globalEvents points forwardContacts reverseContacts
  end.

(** Lines 326-343 and 345-362: one entity's [contact] and [collisionstart]. *)
Definition notifyContact (entity other : EntityRef) (contacts : list ContactPoint) : M unit :=
  let result := _createContactResult other contacts in
  newCollision <- storeCollision sc entity other ;;
  when (isSome (collision (entities sc entity)))
       (fire entity Collision contact (PContact result) ;;;
        when newCollision (fire entity Collision collisionstart (PContact result))) ;;;
  when (isSome (rigidbody (entities sc entity)))
       (fire entity Rigidbody contact (PContact result) ;;;
        when newCollision (fire entity Rigidbody collisionstart (PContact result))).

(** Lines 304-363. *)
Definition contactPath (e0 e1 : EntityRef) (points : list btManifoldPoint) : M unit :=
  let e0Events := _hasContactEvent sc e0 in
  let e1Events := _hasContactEvent sc e1 in
  let globalEvents := existsb (EventName_eqb contact) (systemListeners sc) in
  if globalEvents || e0Events || e1Events then
    fr <- contactLoop e0 e1 e0Events e1Events globalEvents points [] [] ;;
    when e0Events (notifyContact e0 e1 (fst fr)) ;;;
    when e1Events (notifyContact e1 e0 (snd fr))
  else ret tt.

(** The body of the loop over the manifolds. *)
Definition processManifold (manifold : btPersistentManifold) : M unit :=
  let wb0 := getBody0 manifold in
  let wb1 := getBody1 manifold in
  match bodyEntity wb0, bodyEntity wb1 with
  | Some e0, Some e1 =>
      let flags0 := getCollisionFlags wb0 in
      let flags1 := getCollisionFlags wb1 in
      if (0 <? getNumContacts manifold)%nat then
        if noResponse flags0 || noResponse flags1 then triggerPath e0 e1 flags0 flags1
        else contactPath e0 e1 (contactPoints manifold)
      else ret tt
  | _, _ => ret tt
  end.

Fixpoint forEachManifold (manifolds : list btPersistentManifold) : M unit :=
  match manifolds with
  | [] => ret tt
  | manifold :: manifolds => processManifold manifold ;;; forEachManifold manifolds
  end.

(** [_checkForCollisions]: the detection-and-event pass over the manifolds
    the dispatcher holds.  The three pools are freed at the end; pooled
    objects are carried by value here. *)
Definition _checkForCollisions (manifolds : list btPersistentManifold) (this : Provider)
  : Provider * list Fired :=
  let this := {| collisions := collisions this; frameCollisions := [] |} in
  let '(_, this, log) := (forEachManifold manifolds ;;; cleanOldCollisions sc) this in
  (this, log).

(** Names bound in the module scope of ammo-provider.js. *)
Definition moduleBindings : list string :=
  ["BODYFLAG_NORESPONSE_OBJECT"; "Debug"; "PhysicsProvider"; "RaycastResult"; "Vec3";
   "_ammoTransform"; "_ammoVec1"; "_ammoVec2"; "_ammoQuat";
   "ammoRayStart"; "ammoRayEnd"; "AmmoProvider"]%string.

(** Whether an identifier resolves inside a method with the given locals,
    when the global object has the given properties. *)
Definition resolves (locals globals : list string) (identifier : string) : bool :=
  existsb (String.eqb identifier) (locals ++ moduleBindings ++ globals).

Inductive InitEffect : Type :=
| RegisterTickCallback
| DebugWarn (message : string).

(** Lines 47-52 of [init]. *)
Definition init (ammo : Ammo) : list InitEffect :=
  if setInternalTickCallback ammo then [RegisterTickCallback]
  else [DebugWarn "WARNING: This version of ammo.js can potentially fail to report contacts. Please update it to the latest version."%string].

(** [afterStep() { if (!...) this._checkForCollisions(Ammo.getPointer(...), dt) }].
    The method has no parameter and no local; the arguments of the call are
    evaluated before the call is made. *)
Definition afterStep (globals : list string) (ammo : Ammo) (this : Provider)
  : Completion (Provider * list Fired) :=
  if negb (setInternalTickCallback ammo) then
    if resolves [] globals "dt"
    then Normal (_checkForCollisions (getManifolds ammo) this)
    else Throw (ReferenceError "dt")
  else Normal (this, []).

End Detection.

Section Raycast.

(** The tag query grammar and [entity.tags.has(...query)] belong to the
    entity library. *)
Variable TagQuery : Type.
Variable tagsHas : EntityRef -> TagQuery -> bool.

(** The options object.  A group or mask is [Some] when [typeof] gives
    ['number']; tags and callback are [Some] when the property is truthy. *)
Record Options : Type := {
  sort : bool;
  filterCollisionGroup : option Z;
  filterCollisionMask : option Z;
  filterTags : option TagQuery;
  filterCallback : option (EntityRef -> bool)
}.

(** [options.sort = v] *)
Definition setSort (options : Options) (v : bool) : Options :=
  {| sort := v;
     filterCollisionGroup := filterCollisionGroup options;
     filterCollisionMask := filterCollisionMask options;
     filterTags := filterTags options;
     filterCallback := filterCallback options |}.

Definition newRaycastResult (body : btRigidBody) (hit : RayHit) : RaycastResult :=
  {| hitEntity := bodyEntity body;
     hitPoint := m_hitPointWorld hit;
     hitNormal := m_hitNormalWorld hit;
     hitFraction := m_hitFraction hit |}.

(** The condition of the [continue] at line 450. *)
Definition filteredOut (options : Options) (e : EntityRef) : bool :=
  match filterTags options with
  | Some tags => negb (tagsHas e tags)
  | None => false
  end
  ||
  match filterCallback options with
  | Some callback => negb (callback e)
  | None => false
  end.

(** The [for (let i = 0; i < numHits; i++)] loop. *)
Fixpoint hitLoop (options : Options) (hits : list RayHit) (results : list RaycastResult)
  : list RaycastResult :=
  match hits with
  | [] => results
  | hit :: hits =>
      match m_collisionObject hit with
      | Some body =>
          match bodyEntity body with
          | Some e =>
              if filteredOut options e then hitLoop options hits results
              else hitLoop options hits (results ++ [newRaycastResult body hit])
          | None => hitLoop options hits results
          end
      | None => hitLoop options hits results
      end
  end.

Definition compareFn (a b : RaycastResult) : Q := (hitFraction a - hitFraction b)%Q.

(** [rayCallback.hasHit()] of the all-hits callback. *)
Definition hasHit (hits : list RayHit) : bool :=
  match hits with [] => false | _ :: _ => true end.

Definition raycastAll (ammo : Ammo) (start end_ : Vec3) (options : Options)
  : Completion (list RaycastResult) :=
  match AllHitsRayResultCallback ammo with
  | None => Throw (TypeError "Ammo.AllHitsRayResultCallback is not a constructor")
  | Some rayTest =>
      let hits := rayTest start end_ (filterCollisionGroup options) (filterCollisionMask options) in
      Normal
        (if hasHit hits then
           let results := hitLoop options hits [] in
           if sort options then arraySort compareFn results else results
         else [])
  end.

(** [raycastFirst] returns its result and leaves the options object in the
    state given as second component.  [l[0] || null] is the head of [l]: a
    RaycastResult is an object, hence truthy. *)
Definition raycastFirst (ammo : Ammo) (start end_ : Vec3) (options : Options)
  : Completion (option RaycastResult) * Options :=
  if isSome (filterTags options) || isSome (filterCallback options) then
    let options := setSort options true in
    (match raycastAll ammo start end_ options with
     | Normal results => Normal (hd_error results)
     | Throw e => Throw e
     end, options)
  else
    let result :=
      match ClosestRayResultCallback ammo start end_
              (filterCollisionGroup options) (filterCollisionMask options) with
      | Some hit =>
          match m_collisionObject hit with
          | Some body => Some (newRaycastResult body hit)
          | None => None
          end
      | None => None
      end in
    (Normal result, options).

End Raycast.

End AmmoProvider.

(* ------------------------------------------------------------------ *)
(** ** Vocabulary of the statements *)

Import PhysicsProvider.

(** The others-list of the persistent record of an entity ([[]] when it
    has no record), and the same for the transient map. *)
Definition othersOf (m : CollisionMap) (g : Guid) : list EntityRef :=
  match lookup g m with
  | Some c => others c
  | None => []
  end.

Definition persistentOthers (sc : Scene) (e : EntityRef) (this : Provider) : list EntityRef :=
  othersOf (collisions this) (getGuid (entities sc e)).

Definition frameOthers (sc : Scene) (e : EntityRef) (this : Provider) : list EntityRef :=
  othersOf (frameCollisions this) (getGuid (entities sc e)).

(** What may happen to the provider between two passes of
    [_cleanOldCollisions]: calls of [_storeCollision], and the reset of the
    transient map that opens a detection pass. *)
Inductive ProviderOp : Type :=
| OpStore (entity other : EntityRef)
| OpResetFrame.

Definition runOp (sc : Scene) (this : Provider) (op : ProviderOp) : Provider :=
  match op with
  | OpStore e o => snd (_storeCollision sc e o this)
  | OpResetFrame => {| collisions := collisions this; frameCollisions := [] |}
  end.

Definition runOps (sc : Scene) (ops : list ProviderOp) (this : Provider) : Provider :=
  fold_left (runOp sc) ops this.

(** The others of a record that this step's transient record still lists,
    and those it does not. *)
Definition keptOthers (frame : CollisionMap) (g : Guid) (c : CollisionRecord) : list EntityRef :=
  filter (fun o => negb (notInFrame (lookup g frame) o)) (others c).

Definition endedOthers (frame : CollisionMap) (g : Guid) (c : CollisionRecord) : list EntityRef :=
  filter (notInFrame (lookup g frame)) (others c).

(** The persistent map once every ended other is removed and every record
    left without others is deleted. *)
Definition cleanedMap (frame : CollisionMap) (m : CollisionMap) : CollisionMap :=
  flat_map (fun gc =>
              match keptOthers frame (fst gc) (snd gc) with
              | [] => []
              | o :: os => [(fst gc, {| others := o :: os; entity := entity (snd gc) |})]
              end) m.

(** The ended pairs, as (guid of the record, owning entity, other), in the
    order the pass meets them: records in property order, the others of a
    record from the last index down. *)
Definition EndedPair : Type := Guid * EntityRef * EntityRef.

Definition endedPairs (frame : CollisionMap) (m : CollisionMap) : list EndedPair :=
  flat_map (fun gc =>
              map (fun o => (fst gc, entity (snd gc), o))
                  (rev (endedOthers frame (fst gc) (snd gc)))) m.

Definition exitLog (sc : Scene) (pairs : list EndedPair) : list Fired :=
  flat_map (fun p => fireExit sc (snd (fst p)) (snd p)) pairs.

Definition EndedPair_eq_dec (p q : EndedPair) : {p = q} + {p <> q}.
Proof. repeat decide equality. Defined.

Definition eventName (ev : Fired) : EventName :=
  match ev with
  | FireComponent _ _ name _ => name
  | FireSystem name _ => name
  end.

(** The bookkeeping invariants of the persistent map. *)
Definition uniqueKeys (m : CollisionMap) : Prop := NoDup (keys m).

Definition noDuplicateOthers (m : CollisionMap) : Prop :=
  Forall (fun gc => NoDup (others (snd gc))) m.

Definition noEmptyRecord (m : CollisionMap) : Prop :=
  Forall (fun gc => others (snd gc) <> []) m.

Definition invariant (this : Provider) : Prop :=
  uniqueKeys (collisions this) /\ noDuplicateOthers (collisions this).

Import AmmoProvider.

(** A computation keeps a property of the provider and fires only events
    of a given kind. *)
Definition respects {A : Type} (I : Provider -> Prop) (E : Fired -> Prop) (m : M A) : Prop :=
  forall this, I this -> I (snd (fst (m this))) /\ Forall E (snd (m this)).

(** The states the provider can be in: it is constructed with empty maps,
    and then only [_storeCollision], [_cleanOldCollisions] and the detection
    pass touch it, each in the scene of its time. *)
Inductive Reachable (BODYFLAG_NORESPONSE_OBJECT : Z) : Provider -> Prop :=
| ReachConstructor : Reachable BODYFLAG_NORESPONSE_OBJECT constructor
| ReachStore (sc : Scene) (e o : EntityRef) (this : Provider) :
    Reachable BODYFLAG_NORESPONSE_OBJECT this ->
    Reachable BODYFLAG_NORESPONSE_OBJECT (snd (_storeCollision sc e o this))
| ReachClean (sc : Scene) (this : Provider) :
    Reachable BODYFLAG_NORESPONSE_OBJECT this ->
    Reachable BODYFLAG_NORESPONSE_OBJECT (fst (_cleanOldCollisions sc this))
| ReachCheck (sc : Scene) (manifolds : list btPersistentManifold) (this : Provider) :
    Reachable BODYFLAG_NORESPONSE_OBJECT this ->
    Reachable BODYFLAG_NORESPONSE_OBJECT
      (fst (_checkForCollisions BODYFLAG_NORESPONSE_OBJECT sc manifolds this)).

(** The two entities an event is about: the one it is fired on and the one
    it reports; for the system's event, the two of the result. *)
Definition participants (ev : Fired) : EntityRef * EntityRef :=
  match ev with
  | FireComponent owner _ _ (PEntity o) => (owner, o)
  | FireComponent owner _ _ (PContact r) => (owner, other r)
  | FireSystem _ r => (a r, b r)
  end.

Definition involvesTrigger (sc : Scene) (ev : Fired) : bool :=
  trigger (entities sc (fst (participants ev)))
  || trigger (entities sc (snd (participants ev))).

Definition triggerEventsOnly (sc : Scene) (ev : Fired) : Prop :=
  involvesTrigger sc ev = true ->
  eventName ev = triggerenter \/ eventName ev = triggerleave.

(** A trigger volume is a body flagged without collision response: on the
    bodies the dispatcher reports, the flag and [entity.trigger] agree. *)
Definition flagsAgree (BODYFLAG_NORESPONSE_OBJECT : Z) (sc : Scene) (body : btRigidBody) : Prop :=
  forall e, bodyEntity body = Some e ->
            noResponse BODYFLAG_NORESPONSE_OBJECT (getCollisionFlags body)
            = trigger (entities sc e).

Definition manifoldsAgree (BODYFLAG_NORESPONSE_OBJECT : Z) (sc : Scene)
    (manifolds : list btPersistentManifold) : Prop :=
  Forall (fun m => flagsAgree BODYFLAG_NORESPONSE_OBJECT sc (getBody0 m) /\
                   flagsAgree BODYFLAG_NORESPONSE_OBJECT sc (getBody1 m)) manifolds.

(** Every others-list of the second provider extends that of the first. *)
Definition grows (s s' : Provider) : Prop :=
  forall g v, In v (othersOf (collisions s) g) -> In v (othersOf (collisions s') g).

(** The pair (x, y) was put into the persistent map between two states. *)
Definition freshlyStored (sc : Scene) (before after : Provider) (x y : EntityRef) : Prop :=
  ~ In y (persistentOthers sc x before) /\ In y (persistentOthers sc x after).

(** What stands behind a [triggerenter] fired on the trigger path of a
    manifold between [e0] and [e1], run from [before] to [after]. *)
Definition triggerenterJustified (BODYFLAG_NORESPONSE_OBJECT : Z) (sc : Scene)
    (e0 e1 : EntityRef) (flags0 flags1 : Z) (before after : Provider) (ev : Fired) : Prop :=
  (ev = FireComponent e0 Collision triggerenter (PEntity e1) /\
   triggerListeners (collision (entities sc e0)) = true /\
   freshlyStored sc before after e0 e1 /\
   noResponse BODYFLAG_NORESPONSE_OBJECT flags1 = false)
  \/
  (ev = FireComponent e1 Collision triggerenter (PEntity e0) /\
   triggerListeners (collision (entities sc e1)) = true /\
   freshlyStored sc before after e1 e0 /\
   noResponse BODYFLAG_NORESPONSE_OBJECT flags0 = false)
  \/
  (ev = FireComponent e0 Rigidbody triggerenter (PEntity e1) /\
   triggerListeners (rigidbody (entities sc e0)) = true /\
   (freshlyStored sc before after e0 e1 \/ freshlyStored sc before after e1 e0))
  \/
  (ev = FireComponent e1 Rigidbody triggerenter (PEntity e0) /\
   triggerListeners (rigidbody (entities sc e1)) = true /\
   (freshlyStored sc before after e0 e1 \/ freshlyStored sc before after e1 e0)).

(** What holds between two blocks of the trigger path, run from [before]:
    [s] is the provider, [nc] the shared variable, [log] the events so far. *)
Definition betweenBlocks (BODYFLAG_NORESPONSE_OBJECT : Z) (sc : Scene)
    (e0 e1 : EntityRef) (flags0 flags1 : Z) (before : Provider)
    (nc : bool) (s : Provider) (log : list Fired) : Prop :=
  grows before s /\
  (nc = true -> freshlyStored sc before s e0 e1 \/ freshlyStored sc before s e1 e0) /\
  Forall (triggerenterJustified BODYFLAG_NORESPONSE_OBJECT sc e0 e1 flags0 flags1 before s) log.

Section RaycastVocabulary.

Variable TagQuery : Type.
Variable tagsHas : EntityRef -> TagQuery -> bool.

(** [options.filterTags || options.filterCallback] *)
Definition hasFilter (options : Options TagQuery) : bool :=
  isSome (filterTags options) || isSome (filterCallback options).

(** The entity a hit resolves to, if any. *)
Definition resolvedEntity (hit : RayHit) : option EntityRef :=
  match m_collisionObject hit with
  | Some body => bodyEntity body
  | None => None
  end.

(** The entity passes the tag filter and the callback filter, where given. *)
Definition passesFilters (options : Options TagQuery) (e : EntityRef) : bool :=
  match filterTags options with
  | Some query => tagsHas e query
  | None => true
  end
  &&
  match filterCallback options with
  | Some callback => callback e
  | None => true
  end.

(** One result per hit whose body resolves to an entity that passes the
    filters, in the order of the hits. *)
Definition qualifyingHits (options : Options TagQuery) (hits : list RayHit)
  : list RaycastResult :=
  flat_map (fun hit =>
              match resolvedEntity hit with
              | Some e =>
                  if passesFilters options e
                  then [{| hitEntity := Some e;
                           hitPoint := m_hitPointWorld hit;
                           hitNormal := m_hitNormalWorld hit;
                           hitFraction := m_hitFraction hit |}]
                  else []
              | None => []
              end) hits.

End RaycastVocabulary.

Definition byHitFraction (a b : RaycastResult) : Prop :=
  (hitFraction a <= hitFraction b)%Q.

(** The same backend with another closest-hit query. *)
Definition withClosest (ammo : Ammo)
    (closest : Vec3 -> Vec3 -> option Z -> option Z -> option RayHit) : Ammo :=
  {| setInternalTickCallback := setInternalTickCallback ammo;
     getManifolds := getManifolds ammo;
     ClosestRayResultCallback := closest;
     AllHitsRayResultCallback := AllHitsRayResultCallback ammo |}.

(** A small scene: a trigger volume, a crate and a floor. *)
Module Example.

Local Open Scope string_scope.

Definition NORESPONSE : Z := 4%Z.

Definition volume : EntityRef := 1.
Definition crate : EntityRef := 2.
Definition floor : EntityRef := 3.

Definition scene : Scene :=
  {| entities := fun e =>
       match e with
       | 1 => {| getGuid := "9f1c-volume";
                 collision := Some {| listeners := [triggerenter; triggerleave] |};
                 rigidbody := None;
                 trigger := true |}
       | 2 => {| getGuid := "27ab-crate";
                 collision := Some {| listeners := [contact; collisionstart; collisionend] |};
                 rigidbody := Some {| listeners := [triggerenter; triggerleave] |};
                 trigger := false |}
       | 3 => {| getGuid := "c03d-floor";
                 collision := Some {| listeners := [] |};
                 rigidbody := Some {| listeners := [collisionend] |};
                 trigger := false |}
       | _ => {| getGuid := "0000-none";
                 collision := None;
                 rigidbody := None;
                 trigger := false |}
       end;
     systemListeners := [contact] |}.

Definition origin : Vec3 := {| x := 0%Q; y := 0%Q; z := 0%Q |}.
Definition up : Vec3 := {| x := 0%Q; y := 1%Q; z := 0%Q |}.
Definition above : Vec3 := {| x := 0%Q; y := 5%Q; z := 0%Q |}.
Definition below : Vec3 := {| x := 0%Q; y := (-5)%Q; z := 0%Q |}.

Definition volumeBody : btRigidBody := {| bodyEntity := Some volume; getCollisionFlags := 4%Z |}.
Definition crateBody : btRigidBody := {| bodyEntity := Some crate; getCollisionFlags := 0%Z |}.
Definition floorBody : btRigidBody := {| bodyEntity := Some floor; getCollisionFlags := 1%Z |}.
(** A body the engine did not create: it carries no entity. *)
Definition foreignBody : btRigidBody := {| bodyEntity := None; getCollisionFlags := 0%Z |}.

Definition touch : btManifoldPoint :=
  {| m_localPointA := origin; m_localPointB := up;
     getPositionWorldOnA := origin; getPositionWorldOnB := origin;
     m_normalWorldOnB := up; getAppliedImpulse := (3 # 2)%Q |}.

Definition crateInVolume : btPersistentManifold :=
  {| getBody0 := crateBody; getBody1 := volumeBody; contactPoints := [touch] |}.

Definition crateOnFloor : btPersistentManifold :=
  {| getBody0 := crateBody; getBody1 := floorBody; contactPoints := [touch; touch] |}.

Definition hitOn (body : btRigidBody) (fraction : Q) : RayHit :=
  {| m_collisionObject := Some body;
     m_hitPointWorld := origin; m_hitNormalWorld := up; m_hitFraction := fraction |}.

(** A backend without the tick callback, whose ray tests first meet a
    foreign body, then the floor and the crate (reported out of order). *)
Definition olderAmmo : Ammo :=
  {| setInternalTickCallback := false;
     getManifolds := [crateInVolume; crateOnFloor];
     ClosestRayResultCallback := fun _ _ _ _ => Some (hitOn foreignBody (1 # 10)%Q);
     AllHitsRayResultCallback :=
       Some (fun _ _ _ _ => [hitOn floorBody (3 # 5)%Q; hitOn foreignBody (1 # 10)%Q;
                             hitOn crateBody (2 # 5)%Q]) |}.

(** The tag query of the example: a single tag; only the crate has it. *)
Definition tagsHas (e : EntityRef) (query : string) : bool :=
  Nat.eqb e crate && String.eqb query "movable".

Definition plain : Options string :=
  {| sort := false; filterCollisionGroup := None; filterCollisionMask := None;
     filterTags := None; filterCallback := None |}.

Definition onlyBodies : Options string :=
  {| sort := false; filterCollisionGroup := None; filterCollisionMask := None;
     filterTags := None;
     filterCallback := Some (fun e => isSome (rigidbody (entities scene e))) |}.

(** The crate is listed under the volume; the transient map is empty. *)
Definition leaving : Provider :=
  {| collisions := [("9f1c-volume", {| others := [crate]; entity := volume |})];
     frameCollisions := [] |}.

End Example.

(** No condition on the provider, and none on the events. *)
Definition anyState : Provider -> Prop := fun _ => True.

Definition anyEvent : Fired -> Prop := fun _ => True.

(** The event is about the two entities, in one order or the other. *)
Definition between (e0 e1 : EntityRef) (ev : Fired) : Prop :=
  participants ev = (e0, e1) \/ participants ev = (e1, e0).


(** A manifold the loop of [_checkForCollisions] does not skip: both
    bodies carry an entity and there is at least one contact point. *)
Definition live (m : btPersistentManifold) : bool :=
  isSome (bodyEntity (getBody0 m)) && isSome (bodyEntity (getBody1 m))
  && (0 <? getNumContacts m).

(** Both maps of the second provider extend those of the first. *)
Definition evolves (s s' : Provider) : Prop :=
  grows s s' /\
  forall g o, In o (othersOf (frameCollisions s) g) ->
              In o (othersOf (frameCollisions s') g).

(** From a provider that satisfies [P], the computation ends in one that
    satisfies [Q] (of the returned value), only extends the two maps, and
    fires only events that [G] accepts in the state reached. *)
Definition triple {A : Type} (G : Provider -> Fired -> Prop) (P : Provider -> Prop)
    (m : M A) (Q : A -> Provider -> Prop) : Prop :=
  forall s, P s ->
    Q (fst (fst (m s))) (snd (fst (m s))) /\
    evolves s (snd (fst (m s))) /\
    Forall (G (snd (fst (m s)))) (snd (m s)).

(** Every record is kept under the guid of its owning entity. *)
Definition ownersMatch (sc : Scene) (m : CollisionMap) : Prop :=
  Forall (fun gc => getGuid (entities sc (entity (snd gc))) = fst gc) m.

(** The transient map lists the pair, in one order or the other. *)
Definition pairSeen (sc : Scene) (s : Provider) (p q : EntityRef) : Prop :=
  In q (frameOthers sc p s) \/ In p (frameOthers sc q s).

(** What holds of the provider all along the loop over the manifolds of a
    detection pass begun in [before]: the invariants; the persistent map has
    only grown; it lists every pair of the transient map; and what it lists
    was listed before the pass or is in the transient map. *)
Definition duringPass (before s : Provider) : Prop :=
  invariant s /\
  grows before s /\
  (forall g o, In o (othersOf (frameCollisions s) g) -> In o (othersOf (collisions s) g)) /\
  (forall g o, In o (othersOf (collisions s) g) ->
               In o (othersOf (collisions before) g) \/
               In o (othersOf (frameCollisions s) g)).

(** What stands behind an event fired in the loop over the manifolds. *)
Definition observed (sc : Scene) (before s : Provider) (ev : Fired) : Prop :=
  match ev with
  | FireComponent e _ contact (PContact r) => In (other r) (frameOthers sc e s)
  | FireComponent e _ collisionstart (PContact r) =>
      ~ In (other r) (persistentOthers sc e before) /\ In (other r) (frameOthers sc e s)
  | FireComponent e _ triggerenter (PEntity o) => pairSeen sc s e o
  | FireSystem contact _ => True
  | _ => False
  end.

(** An exit notification. *)
Definition isExit (ev : Fired) : Prop :=
  match ev with
  | FireComponent _ _ triggerleave (PEntity _) => True
  | FireComponent _ _ collisionend (PEntity _) => True
  | _ => False
  end.

(** [entity.collision] or [entity.rigidbody]. *)
Definition componentOf (sc : Scene) (e : EntityRef) (kind : ComponentKind) : option Component :=
  match kind with
  | Collision => collision (entities sc e)
  | Rigidbody => rigidbody (entities sc e)
  end.

(** The same contact seen from the other entity: the two local points and
    the two world points change places; normal and impulse stay. *)
Definition mirror (c : ContactPoint) : ContactPoint :=
  {| localPoint := localPointOther c;
     localPointOther := localPoint c;
     point := pointOther c;
     pointOther := point c;
     normal := normal c;
     impulse := impulse c |}.

(** The results handed to the listeners of the system, in order. *)
Definition systemResults (log : list Fired) : list SingleContactResult :=
  flat_map (fun ev => match ev with FireSystem _ r => [r] | _ => [] end) log.

(** Neither body of the manifold is flagged no-response. *)
Definition physical (BODYFLAG_NORESPONSE_OBJECT : Z) (m : btPersistentManifold) : bool :=
  negb (noResponse BODYFLAG_NORESPONSE_OBJECT (getCollisionFlags (getBody0 m))
        || noResponse BODYFLAG_NORESPONSE_OBJECT (getCollisionFlags (getBody1 m))).

(** What [notifyContact] fires, given what [_storeCollision] returned. *)
Definition contactEvents (sc : Scene) (entity : EntityRef) (r : ContactResult)
    (isNew : bool) : list Fired :=
  flat_map (fun kind =>
              if isSome (componentOf sc entity kind)
              then FireComponent entity kind contact (PContact r)
                   :: fireIf isNew (FireComponent entity kind collisionstart (PContact r))
              else [])
           [Collision; Rigidbody].

(** What the trigger path fires when a rigid body [R] is met with a
    trigger volume [T]: on the volume's collision component, and on the
    body's rigidbody component. *)
Definition enterEvents (sc : Scene) (T R : EntityRef) (flaggedR : bool) : list Fired :=
  fireIf (triggerListeners (collision (entities sc T)) && negb flaggedR)
         (FireComponent T Collision triggerenter (PEntity R))
  ++ fireIf (triggerListeners (rigidbody (entities sc R)))
         (FireComponent R Rigidbody triggerenter (PEntity T)).



(* ------------------------------------------------------------------ *)
(** ** AmmoProvider: gravity and transforms (ammo-provider.js) *)

Module AmmoTransforms.

Import AmmoProvider.

Inductive WorldCall : Type :=
| SetGravity (gravity : Vec3).

(** [a !== b] on two numbers, neither of them NaN. *)
Definition differs (a b : Q) : bool := negb (Qeq_bool a b).

(** [setGravity(gravityFloat32)], from the gravity the dynamics world holds
    to the gravity it holds afterwards and the calls made on the world.
    [gravity.setValue] followed by [dynamicsWorld.setGravity(gravity)] leaves
    the three given numbers in the world. *)
Definition setGravity (gravityFloat32 : Vec3) (worldGravity : Vec3)
  : Vec3 * list WorldCall :=
  if differs (x worldGravity) (x gravityFloat32)
     || differs (y worldGravity) (y gravityFloat32)
     || differs (z worldGravity) (z gravityFloat32)
  then (gravityFloat32, [SetGravity gravityFloat32])
  else (worldGravity, []).

Record Quat : Type := { qx : Q; qy : Q; qz : Q; qw : Q }.

Record btTransform : Type := {
  getOrigin : Vec3;
  getRotation : Quat
}.

(** What the entity library gives for an entity: its world position and
    rotation, and those of the shape of its collision component. *)
Record Placement : Type := {
  getPosition : Vec3;
  getEntityRotation : Quat;
  getShapePosition : Vec3;
  getShapeRotation : Quat
}.

(** [getEntityTransform(entity, transform)]: the value written into
    [transform]. *)
Definition getEntityTransform (sc : Scene) (place : EntityRef -> Placement)
    (entity : EntityRef) : btTransform :=
  match collision (entities sc entity) with
  | Some _ =>
      {| getOrigin := getShapePosition (place entity);
         getRotation := getShapeRotation (place entity) |}
  | None =>
      {| getOrigin := getPosition (place entity);
         getRotation := getEntityRotation (place entity) |}
  end.

Inductive BodyCall : Type :=
| BodySetWorldTransform (t : btTransform)
| MotionStateSetWorldTransform (t : btTransform)
| BodyActivate.

(** [syncEntityToBody(entity)].  [body] is [entity.rigidbody.body]
    ([None]: falsy), with whether it has a motion state.  The method has the
    parameter [entity] and the local [body]; [BODYTYPE_KINEMATIC] is not
    among the imports of the module.  [typeIsKinematic] is what
    [this._type === BODYTYPE_KINEMATIC] gives when it can be evaluated. *)
Definition syncEntityToBody (globals : list string) (typeIsKinematic : bool)
    (sc : Scene) (place : EntityRef -> Placement) (body : option bool)
    (entity : EntityRef) : Completion unit * list BodyCall :=
  match rigidbody (entities sc entity) with
  | None => (Throw (TypeError "entity.rigidbody is undefined"), [])
  | Some _ =>
      match body with
      | None => (Normal tt, [])
      | Some hasMotionState =>
          let t := getEntityTransform sc place entity in
          if resolves ["entity"; "body"]%string globals "BODYTYPE_KINEMATIC" then
            (Normal tt,
             BodySetWorldTransform t
             :: (if typeIsKinematic && hasMotionState
                 then [MotionStateSetWorldTransform t] else [])
             ++ [BodyActivate])
          else (Throw (ReferenceError "BODYTYPE_KINEMATIC"), [BodySetWorldTransform t])
      end
  end.

End AmmoTransforms.

(* ------------------------------------------------------------------ *)
(** ** RigidBodyComponentSystem: component data (system.js) *)

Module ComponentData.

Local Open Scope string_scope.

(** The values a data block holds. *)
Inductive Value : Type :=
| VNumber (q : Q)
| VString (s : string)
| VBool (b : bool)
| VArray (l : list Q)
| VVec3 (v : Vec3).

(** A data block: an object from property name to value. *)
Definition Data := list (string * Value).

Fixpoint get (property : string) (data : Data) : option Value :=
  match data with
  | [] => None
  | (k, v) :: data' => if String.eqb k property then Some v else get property data'
  end.

(** The rigid-body component, as far as [cloneComponent] reads it. *)
Record RigidBodyComponent : Type := {
  enabled : bool;
  mass : Q;
  linearDamping : Q;
  angularDamping : Q;
  linearFactor : Vec3;
  angularFactor : Vec3;
  friction : Q;
  rollingFriction : Q;
  restitution : Q;
  type : string;
  group : Q;
  mask : Q
}.

(** What the method does to the component. *)
Inductive Action : Type :=
| Assign (property : string) (value : Value)
| SuperInitializeComponentData (properties : list string).

Definition props : list string :=
  ["mass"; "linearDamping"; "angularDamping"; "linearFactor"; "angularFactor";
   "friction"; "rollingFriction"; "restitution"; "type"; "group"; "mask"].

(** [new Vec3(value[0], value[1], value[2])]; a missing element is
    [undefined], for which the constructor takes its default, 0. *)
Definition vec3OfArray (l : list Q) : Vec3 :=
  {| x := nth 0 l 0%Q; y := nth 1 l 0%Q; z := nth 2 l 0%Q |}.

(** The body of the [for (const property of props)] loop. *)
Fixpoint assignProps (properties : list string) (data : Data) : list Action :=
  match properties with
  | [] => []
  | property :: properties =>
      match get property data with
      | Some (VArray l) => Assign property (VVec3 (vec3OfArray l)) :: assignProps properties data
      | Some value => Assign property value :: assignProps properties data
      | None => assignProps properties data
      end
  end.

Definition initializeComponentData (data : Data) : list Action :=
  assignProps props data ++ [SuperInitializeComponentData ["enabled"]].

(** The data block that [cloneComponent] builds from [entity.rigidbody]. *)
Definition cloneComponent (rigidbody : RigidBodyComponent) : Data :=
  [("enabled", VBool (enabled rigidbody));
   ("mass", VNumber (mass rigidbody));
   ("linearDamping", VNumber (linearDamping rigidbody));
   ("angularDamping", VNumber (angularDamping rigidbody));
   ("linearFactor", VArray [x (linearFactor rigidbody); y (linearFactor rigidbody);
                            z (linearFactor rigidbody)]);
   ("angularFactor", VArray [x (angularFactor rigidbody); y (angularFactor rigidbody);
                             z (angularFactor rigidbody)]);
   ("friction", VNumber (friction rigidbody));
   ("rollingFriction", VNumber (rollingFriction rigidbody));
   ("restitution", VNumber (restitution rigidbody));
   ("type", VString (type rigidbody));
   ("group", VNumber (group rigidbody));
   ("mask", VNumber (mask rigidbody))].

(** The properties that an [Assign] of the list writes. *)
Definition assigned (actions : list Action) : list string :=
  flat_map (fun a => match a with Assign p _ => [p] | _ => [] end) actions.

Definition hasOwnProperty (data : Data) (property : string) : bool :=
  match get property data with Some _ => true | None => false end.

End ComponentData.

(** A gravity vector equal to another, number by number. *)
Definition sameVec3 (a b : Vec3) : Prop :=
  (x a == x b)%Q /\ (y a == y b)%Q /\ (z a == z b)%Q.

(** More of the example: two trigger volumes that listen, a scene where
    nothing listens, a backend without the all-hits callback, and the crate
    at rest on the floor. *)
Module Example2.

Local Open Scope string_scope.

Definition pond : EntityRef := 1.
Definition fog : EntityRef := 2.

Definition volumes : Scene :=
  {| entities := fun e =>
       match e with
       | 1 => {| getGuid := "51aa-pond";
                 collision := Some {| listeners := [triggerenter; triggerleave] |};
                 rigidbody := None;
                 trigger := true |}
       | 2 => {| getGuid := "62bb-fog";
                 collision := Some {| listeners := [triggerenter] |};
                 rigidbody := None;
                 trigger := true |}
       | _ => {| getGuid := "0000-none";
                 collision := None;
                 rigidbody := None;
                 trigger := false |}
       end;
     systemListeners := [] |}.


Definition oldestAmmo : Ammo :=
  {| setInternalTickCallback := false;
     getManifolds := [];
     ClosestRayResultCallback := fun _ _ _ _ => Some (Example.hitOn Example.crateBody (2 # 5)%Q);
     AllHitsRayResultCallback := None |}.

Definition resting : Provider :=
  {| collisions :=
       [("27ab-crate", {| others := [Example.floor]; entity := Example.crate |});
        ("c03d-floor", {| others := [Example.crate]; entity := Example.floor |})];
     frameCollisions := [] |}.

Definition earth : Vec3 := {| x := 0%Q; y := (-981 # 100)%Q; z := 0%Q |}.
Definition mars : Vec3 := {| x := 0%Q; y := (-37 # 10)%Q; z := 0%Q |}.

Definition place (e : EntityRef) : AmmoTransforms.Placement :=
  {| AmmoTransforms.getPosition := Example.above;
     AmmoTransforms.getEntityRotation :=
       {| AmmoTransforms.qx := 0%Q; AmmoTransforms.qy := 0%Q;
          AmmoTransforms.qz := 0%Q; AmmoTransforms.qw := 1%Q |};
     AmmoTransforms.getShapePosition := Example.up;
     AmmoTransforms.getShapeRotation :=
       {| AmmoTransforms.qx := 0%Q; AmmoTransforms.qy := 0%Q;
          AmmoTransforms.qz := 0%Q; AmmoTransforms.qw := 1%Q |} |}.

End Example2.

(* ------------------------------------------------------------------ *)
(** ** The exit notifications, in the words of the specification *)

(** [o] is among the others that this step's transient map lists under
    the guid [g]. *)
Definition listedInFrame (frame : CollisionMap) (g : Guid) (o : EntityRef) : bool :=
  existsb (Nat.eqb o) (othersOf frame g).

(** The others of a record that this step's transient map still lists
    under its guid, and those absent from it. *)
Definition stayingOthers (frame : CollisionMap) (g : Guid) (c : CollisionRecord)
  : list EntityRef :=
  filter (listedInFrame frame g) (others c).

Definition absentOthers (frame : CollisionMap) (g : Guid) (c : CollisionRecord)
  : list EntityRef :=
  filter (fun o => negb (listedInFrame frame g o)) (others c).

(** Every (record, other) with the other absent from the transient map:
    records in property order, the others of a record from the last one
    down. *)
Definition absentPairs (frame : CollisionMap) (m : CollisionMap) : list EndedPair :=
  flat_map (fun gc =>
              map (fun o => (fst gc, entity (snd gc), o))
                  (rev (absentOthers frame (fst gc) (snd gc)))) m.

(** The exit notification of the pair of an owner and an other: for an
    owner that is a trigger volume, [triggerleave] on its collision component
    and on the other's rigidbody component; otherwise, if the other is no
    trigger, [collisionend] on the owner's rigidbody and collision
    components; each only if the component is present. *)
Definition exitNotification (sc : Scene) (owner other : EntityRef) : list Fired :=
  if trigger (entities sc owner) then
    match collision (entities sc owner), rigidbody (entities sc other) with
    | Some _, Some _ =>
        [FireComponent owner Collision triggerleave (PEntity other);
         FireComponent other Rigidbody triggerleave (PEntity owner)]
    | Some _, None => [FireComponent owner Collision triggerleave (PEntity other)]
    | None, Some _ => [FireComponent other Rigidbody triggerleave (PEntity owner)]
    | None, None => []
    end
  else if trigger (entities sc other) then []
  else
    match rigidbody (entities sc owner), collision (entities sc owner) with
    | Some _, Some _ =>
        [FireComponent owner Rigidbody collisionend (PEntity other);
         FireComponent owner Collision collisionend (PEntity other)]
    | Some _, None => [FireComponent owner Rigidbody collisionend (PEntity other)]
    | None, Some _ => [FireComponent owner Collision collisionend (PEntity other)]
    | None, None => []
    end.

Definition exitNotifications (sc : Scene) (pairs : list EndedPair) : list Fired :=
  flat_map (fun p => exitNotification sc (snd (fst p)) (snd p)) pairs.

(** At least one body of the manifold is flagged no-response. *)
Definition flagged (BODYFLAG_NORESPONSE_OBJECT : Z) (m : btPersistentManifold) : bool :=
  noResponse BODYFLAG_NORESPONSE_OBJECT (getCollisionFlags (getBody0 m))
  || noResponse BODYFLAG_NORESPONSE_OBJECT (getCollisionFlags (getBody1 m)).

(** The crate at rest on the floor, and then the floor's body flagged
    no-response while the crate still rests on it.  The floor entity is no
    trigger volume. *)
Module Example3.

Definition flaggedFloorBody : btRigidBody :=
  {| bodyEntity := Some Example.floor; getCollisionFlags := 5%Z |}.

Definition crateOnFlaggedFloor : btPersistentManifold :=
  {| getBody0 := Example.crateBody; getBody1 := flaggedFloorBody;
     contactPoints := [Example.touch] |}.

(** The provider after a first pass, from its construction, with the crate
    on the floor. *)
Definition rested : Provider :=
  fst (_checkForCollisions Example.NORESPONSE Example.scene
         [Example.crateOnFloor] constructor).

End Example3.

(* ------------------------------------------------------------------ *)
(** ** Where the events of a detection pass come from *)

(** An event fired for a manifold in the loop over the manifolds: it is
    between the entities of the two bodies, and it is a [triggerenter] when
    a body of the manifold is flagged no-response, a [contact] or a
    [collisionstart] when none is. *)
Definition firedForManifold (BODYFLAG_NORESPONSE_OBJECT : Z) (m : btPersistentManifold)
    (ev : Fired) : Prop :=
  exists e0 e1,
    bodyEntity (getBody0 m) = Some e0 /\
    bodyEntity (getBody1 m) = Some e1 /\
    between e0 e1 ev /\
    if flagged BODYFLAG_NORESPONSE_OBJECT m then eventName ev = triggerenter
    else eventName ev = contact \/ eventName ev = collisionstart.

(** An event of an exit notification: a [triggerleave] for a record whose
    owner has [trigger] set, or a [collisionend] for a record where neither
    the owner nor the other has. *)
Definition exitEvent (sc : Scene) (ev : Fired) : Prop :=
  exists x y,
    (trigger (entities sc x) = true /\
     (ev = FireComponent x Collision triggerleave (PEntity y) \/
      ev = FireComponent y Rigidbody triggerleave (PEntity x))) \/
    (trigger (entities sc x) = false /\ trigger (entities sc y) = false /\
     (ev = FireComponent x Rigidbody collisionend (PEntity y) \/
      ev = FireComponent x Collision collisionend (PEntity y))).

(* ------------------------------------------------------------------ *)
(** ** Maps and arrays *)

Lemma lookup_assign_eq (g : Guid) (c : CollisionRecord) (m : CollisionMap) :
  lookup g (assign g c m) = Some c.
Proof.
  induction m as [|[k c0] m IH]; simpl.
  - now rewrite String.eqb_refl.
  - destruct (String.eqb k g) eqn:E; simpl; rewrite E; auto.
Qed.

Lemma lookup_assign_neq (g g' : Guid) (c : CollisionRecord) (m : CollisionMap) :
  g <> g' -> lookup g' (assign g c m) = lookup g' m.
Proof.
  intros Hne. induction m as [|[k c0] m IH]; simpl.
  - destruct (String.eqb g g') eqn:E; auto.
    apply String.eqb_eq in E. contradiction.
  - destruct (String.eqb k g) eqn:E; simpl.
    + apply String.eqb_eq in E. subst k.
      destruct (String.eqb g g') eqn:E'; auto.
      apply String.eqb_eq in E'. contradiction.
    + destruct (String.eqb k g'); auto.
Qed.

Lemma assign_lookup (g : Guid) (c : CollisionRecord) (m : CollisionMap) :
  lookup g m = Some c -> assign g c m = m.
Proof.
  induction m as [|[k c0] m IH]; simpl; [discriminate|].
  destruct (String.eqb k g) eqn:E.
  - intros [= ->]. reflexivity.
  - intros H. now rewrite IH.
Qed.

Lemma assign_assign (g : Guid) (c c' : CollisionRecord) (m : CollisionMap) :
  assign g c' (assign g c m) = assign g c' m.
Proof.
  induction m as [|[k c0] m IH]; simpl.
  - now rewrite String.eqb_refl.
  - destruct (String.eqb k g) eqn:E; simpl; rewrite E; [reflexivity|now rewrite IH].
Qed.

Lemma indexOfFrom_found (v : EntityRef) (l : list EntityRef) (i : Z) :
  (0 <= i)%Z -> In v l -> (i <= indexOfFrom v l i)%Z.
Proof.
  revert i. induction l as [|w l IH]; simpl; intros i Hi Hin; [contradiction|].
  destruct (Nat.eqb w v) eqn:E; [lia|].
  destruct Hin as [->|Hin]; [rewrite Nat.eqb_refl in E; discriminate|].
  specialize (IH (i + 1)%Z ltac:(lia) Hin). lia.
Qed.

Lemma indexOfFrom_absent (v : EntityRef) (l : list EntityRef) (i : Z) :
  ~ In v l -> indexOfFrom v l i = (-1)%Z.
Proof.
  revert i. induction l as [|w l IH]; simpl; intros i Hn; [reflexivity|].
  destruct (Nat.eqb w v) eqn:E.
  - apply Nat.eqb_eq in E. tauto.
  - apply IH. tauto.
Qed.

(** [l.indexOf(v) < 0] says exactly that [v] is not in [l]. *)
Lemma indexOf_neg_iff (l : list EntityRef) (v : EntityRef) :
  (indexOf l v <? 0)%Z = true <-> ~ In v l.
Proof.
  unfold indexOf. split.
  - intros H Hin. apply Z.ltb_lt in H.
    pose proof (@indexOfFrom_found v l 0%Z ltac:(lia) Hin). lia.
  - intros Hn. now rewrite indexOfFrom_absent.
Qed.

Lemma indexOf_nonneg_iff (l : list EntityRef) (v : EntityRef) :
  (indexOf l v <? 0)%Z = false <-> In v l.
Proof.
  split.
  - intros H. destruct (in_dec Nat.eq_dec v l) as [Hin|Hn]; [assumption|].
    apply indexOf_neg_iff in Hn. congruence.
  - intros Hin. destruct (indexOf l v <? 0)%Z eqn:E; [|reflexivity].
    apply indexOf_neg_iff in E. contradiction.
Qed.

(* ------------------------------------------------------------------ *)
(** ** [_storeCollision] *)

(** The two writes of [_storeCollision] to each map amount to one. *)
Lemma storeCollision_unfold (sc : Scene) (e o : EntityRef) (this : Provider) :
  let g := getGuid (entities sc e) in
  let c := orFresh (collisions this) g e in
  let f := orFresh (frameCollisions this) g e in
  _storeCollision sc e o this =
  ((indexOf (others c) o <? 0)%Z,
   {| collisions := if (indexOf (others c) o <? 0)%Z
                    then assign g (push c o) (collisions this)
                    else assign g c (collisions this);
      frameCollisions := assign g (push f o) (frameCollisions this) |}).
Proof.
  intros g c f. unfold _storeCollision. fold g.
  assert (Hc : orFresh (assign g (orFresh (collisions this) g e) (collisions this)) g e = c).
  { unfold orFresh at 1. now rewrite lookup_assign_eq. }
  assert (Hf : orFresh (assign g (orFresh (frameCollisions this) g e) (frameCollisions this)) g e = f).
  { unfold orFresh at 1. now rewrite lookup_assign_eq. }
  rewrite Hc, Hf. fold c f.
  destruct (indexOf (others c) o <? 0)%Z; now rewrite !assign_assign.
Qed.

Lemma othersOf_orFresh (m : CollisionMap) (g : Guid) (e : EntityRef) :
  others (orFresh m g e) = othersOf m g.
Proof. unfold orFresh, othersOf. now destruct (lookup g m). Qed.

Lemma othersOf_assign_eq (m : CollisionMap) (g : Guid) (c : CollisionRecord) :
  othersOf (assign g c m) g = others c.
Proof. unfold othersOf. now rewrite lookup_assign_eq. Qed.

Lemma othersOf_assign_neq (m : CollisionMap) (g g' : Guid) (c : CollisionRecord) :
  g <> g' -> othersOf (assign g c m) g' = othersOf m g'.
Proof. intros H. unfold othersOf. now rewrite lookup_assign_neq. Qed.

(** A call that finds the other already listed changes nothing in the
    persistent map. *)
Lemma storeCollision_present (sc : Scene) (e o : EntityRef) (this : Provider) :
  In o (persistentOthers sc e this) ->
  fst (_storeCollision sc e o this) = false /\
  collisions (snd (_storeCollision sc e o this)) = collisions this.
Proof.
  intros Hin. rewrite storeCollision_unfold. cbn [fst snd collisions].
  unfold persistentOthers in Hin. rewrite <- (othersOf_orFresh _ _ e) in Hin.
  apply indexOf_nonneg_iff in Hin. rewrite Hin. split; [reflexivity|].
  apply assign_lookup.
  unfold orFresh in *. destruct (lookup _ (collisions this)) eqn:E; [reflexivity|].
  simpl in Hin. discriminate.
Qed.

Lemma storeCollision_absent (sc : Scene) (e o : EntityRef) (this : Provider) :
  ~ In o (persistentOthers sc e this) ->
  fst (_storeCollision sc e o this) = true /\
  persistentOthers sc e (snd (_storeCollision sc e o this)) = persistentOthers sc e this ++ [o].
Proof.
  intros Hn. rewrite storeCollision_unfold. cbn [fst snd].
  unfold persistentOthers in *. cbn [collisions].
  rewrite <- (othersOf_orFresh _ _ e) in Hn.
  apply indexOf_neg_iff in Hn. rewrite Hn. split; [reflexivity|].
  rewrite othersOf_assign_eq. simpl. now rewrite othersOf_orFresh.
Qed.

(** Whatever the call, the others of any record only grow. *)
Lemma storeCollision_keeps (sc : Scene) (e o : EntityRef) (this : Provider)
    (g : Guid) (v : EntityRef) :
  In v (othersOf (collisions this) g) ->
  In v (othersOf (collisions (snd (_storeCollision sc e o this))) g).
Proof.
  intros Hin. rewrite storeCollision_unfold. cbn [snd collisions].
  destruct (String.eqb (getGuid (entities sc e)) g) eqn:E.
  - apply String.eqb_eq in E. subst g.
    destruct (indexOf _ o <? 0)%Z; rewrite othersOf_assign_eq; simpl;
      rewrite othersOf_orFresh; auto using in_or_app.
  - apply String.eqb_neq in E.
    destruct (indexOf _ o <? 0)%Z; rewrite othersOf_assign_neq; auto.
Qed.

Lemma runOps_keeps (sc : Scene) (ops : list ProviderOp) (this : Provider)
    (g : Guid) (v : EntityRef) :
  In v (othersOf (collisions this) g) ->
  In v (othersOf (collisions (runOps sc ops this)) g).
Proof.
  unfold runOps. revert this. induction ops as [|op ops IH]; simpl; intros this Hin; [assumption|].
  apply IH. destruct op as [e' o'|]; simpl; [now apply storeCollision_keeps|assumption].
Qed.

Lemma storeCollision_frame (sc : Scene) (e o : EntityRef) (this : Provider) :
  frameOthers sc e (snd (_storeCollision sc e o this)) = frameOthers sc e this ++ [o].
Proof.
  rewrite storeCollision_unfold. unfold frameOthers. cbn [snd frameCollisions].
  rewrite othersOf_assign_eq. simpl. now rewrite othersOf_orFresh.
Qed.

(** C2.  When the persistent record of [e] does not list [o], the call
    [_storeCollision(e, o)] returns true and puts [o] into the list exactly
    once, at its end.  From then on, whatever calls of [_storeCollision] and
    resets of the transient map come in between (no pass of
    [_cleanOldCollisions]), a further call [_storeCollision(e, o)] returns
    false and leaves the persistent map as it was.  Every call, whatever it
    returns, appends [o] to the transient others-list of [e]. *)
Theorem storeCollision_new_once (sc : Scene) (e o : EntityRef) (this : Provider) :
  ~ In o (persistentOthers sc e this) ->
  let first := _storeCollision sc e o this in
  fst first = true /\
  persistentOthers sc e (snd first) = persistentOthers sc e this ++ [o] /\
  count_occ EntityRef_eq_dec (persistentOthers sc e (snd first)) o = 1 /\
  (forall ops : list ProviderOp,
      let later := runOps sc ops (snd first) in
      fst (_storeCollision sc e o later) = false /\
      collisions (snd (_storeCollision sc e o later)) = collisions later) /\
  (forall (e' o' : EntityRef) (this' : Provider),
      frameOthers sc e' (snd (_storeCollision sc e' o' this')) = frameOthers sc e' this' ++ [o']).
Proof.
  intros Hn first.
  destruct (storeCollision_absent sc e o this Hn) as [Htrue Hothers].
  fold first in Htrue, Hothers.
  split; [assumption|]. split; [assumption|]. split; [|split].
  - rewrite Hothers, count_occ_app.
    rewrite (proj1 (@count_occ_not_In EntityRef EntityRef_eq_dec _ _) Hn). simpl.
    destruct (EntityRef_eq_dec o o); [reflexivity|contradiction].
  - intros ops later. apply storeCollision_present.
    unfold persistentOthers, later. apply runOps_keeps.
    fold (persistentOthers sc e (snd first)). rewrite Hothers.
    apply in_or_app. right. now left.
  - intros. apply storeCollision_frame.
Qed.

(* ------------------------------------------------------------------ *)
(** ** [_cleanOldCollisions] *)

Lemma nth_error_middle (pre suf : list EntityRef) (v : EntityRef) :
  nth_error (pre ++ v :: suf) (List.length pre) = Some v.
Proof. induction pre; simpl; auto. Qed.

Lemma splice1_middle (pre suf : list EntityRef) (v : EntityRef) :
  splice1 (List.length pre) (pre ++ v :: suf) = pre ++ suf.
Proof. induction pre; simpl; [reflexivity|now f_equal]. Qed.

(** The backward loop with [splice] keeps the others that the transient
    record lists, in their order, and fires for the rest, last first. *)
Lemma whileLoop_prefix (sc : Scene) (f : option CollisionRecord) (e : EntityRef)
    (pre suf : list EntityRef) :
  whileLoop sc f e (List.length pre) (pre ++ suf) =
  (filter (fun o => negb (notInFrame f o)) pre ++ suf,
   flat_map (fireExit sc e) (rev (filter (notInFrame f) pre))).
Proof.
  revert suf. induction pre as [|v pre IH] using rev_ind; intros suf; [reflexivity|].
  rewrite length_app, Nat.add_1_r, <- app_assoc. cbn [whileLoop app].
  rewrite nth_error_middle, !filter_app. cbn [filter].
  destruct (notInFrame f v) eqn:E; cbn [negb].
  - rewrite splice1_middle, IH, rev_app_distr. cbn [rev app flat_map].
    now rewrite !app_nil_r.
  - rewrite IH, <- !app_assoc, !app_nil_r. reflexivity.
Qed.

Lemma whileLoop_all (sc : Scene) (f : option CollisionRecord) (e : EntityRef)
    (l : list EntityRef) :
  whileLoop sc f e (List.length l) l =
  (filter (fun o => negb (notInFrame f o)) l,
   flat_map (fireExit sc e) (rev (filter (notInFrame f) l))).
Proof.
  pose proof (whileLoop_prefix sc f e l []) as H.
  now rewrite !app_nil_r in H.
Qed.

Lemma lookup_app_new (g : Guid) (done m : CollisionMap) :
  ~ In g (keys done) -> lookup g (done ++ m) = lookup g m.
Proof.
  induction done as [|[k c] done IH]; simpl; intros Hn; [reflexivity|].
  destruct (String.eqb k g) eqn:E.
  - apply String.eqb_eq in E. tauto.
  - apply IH. tauto.
Qed.

Lemma assign_app_new (g : Guid) (c : CollisionRecord) (done m : CollisionMap) :
  ~ In g (keys done) -> assign g c (done ++ m) = done ++ assign g c m.
Proof.
  induction done as [|[k c0] done IH]; simpl; intros Hn; [reflexivity|].
  destruct (String.eqb k g) eqn:E.
  - apply String.eqb_eq in E. tauto.
  - rewrite IH; tauto.
Qed.

Lemma delete_app_new (g : Guid) (done m : CollisionMap) :
  ~ In g (keys done) -> delete g (done ++ m) = done ++ delete g m.
Proof.
  induction done as [|[k c0] done IH]; simpl; intros Hn; [reflexivity|].
  destruct (String.eqb k g) eqn:E.
  - apply String.eqb_eq in E. tauto.
  - rewrite IH; tauto.
Qed.

Lemma keys_app (m m' : CollisionMap) : keys (m ++ m') = keys m ++ keys m'.
Proof. apply map_app. Qed.

Lemma exitLog_app (sc : Scene) (p q : list EndedPair) :
  exitLog sc (p ++ q) = exitLog sc p ++ exitLog sc q.
Proof. apply flat_map_app. Qed.

Lemma exitLog_record (sc : Scene) (g : Guid) (e : EntityRef) (l : list EntityRef) :
  exitLog sc (map (fun o => (g, e, o)) l) = flat_map (fireExit sc e) l.
Proof.
  induction l as [|v l IH]; [reflexivity|].
  cbn [map]. change (exitLog sc ((g, e, v) :: map (fun o => (g, e, o)) l))
    with (fireExit sc e v ++ exitLog sc (map (fun o => (g, e, o)) l)).
  now rewrite IH.
Qed.

Lemma endedPairs_cons (frame : CollisionMap) (g : Guid) (c : CollisionRecord)
    (m : CollisionMap) :
  endedPairs frame ((g, c) :: m) =
  map (fun o => (g, entity c, o)) (rev (endedOthers frame g c)) ++ endedPairs frame m.
Proof. reflexivity. Qed.

Lemma cleanedMap_cons (frame : CollisionMap) (g : Guid) (c : CollisionRecord)
    (m : CollisionMap) :
  cleanedMap frame ((g, c) :: m) =
  match keptOthers frame g c with
  | [] => []
  | o :: os => [(g, {| others := o :: os; entity := entity c |})]
  end ++ cleanedMap frame m.
Proof. reflexivity. Qed.

(** The loop over the guids, started in the middle: [done] are the records
    already visited, [todo] those still to come. *)
Lemma cleanGuid_fold (sc : Scene) (frame todo : CollisionMap) :
  forall (done : CollisionMap) (log : list Fired),
    NoDup (keys (done ++ todo)) ->
    fold_left (cleanGuid sc) (keys todo)
              ({| collisions := done ++ todo; frameCollisions := frame |}, log) =
    ({| collisions := done ++ cleanedMap frame todo; frameCollisions := frame |},
     log ++ exitLog sc (endedPairs frame todo)).
Proof.
  induction todo as [|[g c] todo IH]; intros done log Hnd.
  - simpl. now rewrite !app_nil_r.
  - assert (Hg : ~ In g (keys done)).
    { rewrite keys_app in Hnd. simpl in Hnd. apply NoDup_remove_2 in Hnd.
      intros Hin. apply Hnd. apply in_or_app. now left. }
    assert (Hrest : NoDup (keys (done ++ todo))).
    { rewrite keys_app in *. simpl in Hnd. now apply NoDup_remove_1 in Hnd. }
    rewrite endedPairs_cons, cleanedMap_cons, exitLog_app, exitLog_record.
    unfold keptOthers, endedOthers.
    cbn [keys map fst fold_left]. unfold cleanGuid at 2. cbn [collisions frameCollisions].
    rewrite lookup_app_new by assumption. cbn [lookup]. rewrite String.eqb_refl.
    rewrite whileLoop_all.
    rewrite assign_app_new by assumption. cbn [assign]. rewrite String.eqb_refl.
    fold (keys todo).
    destruct (filter (fun o => negb (notInFrame (lookup g frame) o)) (others c))
      as [|o os] eqn:Ek.
    + cbn [List.length Nat.eqb].
      rewrite delete_app_new by assumption. cbn [delete]. rewrite String.eqb_refl.
      rewrite (IH done) by assumption.
      cbn [app]. now rewrite app_assoc.
    + cbn [List.length Nat.eqb].
      change (done ++ (g, {| others := o :: os; entity := entity c |}) :: todo)
        with (done ++ [(g, {| others := o :: os; entity := entity c |})] ++ todo).
      rewrite app_assoc.
      rewrite IH.
      * rewrite <- !app_assoc. reflexivity.
      * rewrite <- app_assoc. rewrite keys_app in *. exact Hnd.
Qed.

(** What a pass of [_cleanOldCollisions] leaves and what it fires. *)
Lemma cleanOldCollisions_unfold (sc : Scene) (this : Provider) :
  uniqueKeys (collisions this) ->
  _cleanOldCollisions sc this =
  ({| collisions := cleanedMap (frameCollisions this) (collisions this);
      frameCollisions := frameCollisions this |},
   exitLog sc (endedPairs (frameCollisions this) (collisions this))).
Proof.
  intros Hnd. unfold _cleanOldCollisions.
  pose proof (@cleanGuid_fold sc (frameCollisions this) (collisions this) [] [] Hnd) as H.
  destruct this as [cs fs]. exact H.
Qed.

Lemma cleanedMap_keys (frame m : CollisionMap) (g : Guid) :
  In g (keys (cleanedMap frame m)) -> In g (keys m).
Proof.
  induction m as [|[k c] m IH]; [auto|].
  rewrite cleanedMap_cons, keys_app. intros Hin. apply in_app_or in Hin.
  destruct Hin as [Hin|Hin].
  - destruct (keptOthers frame k c); simpl in Hin; [contradiction|].
    destruct Hin as [->|[]]. now left.
  - right. now apply IH.
Qed.

Lemma lookup_not_key (g : Guid) (m : CollisionMap) :
  ~ In g (keys m) -> lookup g m = None.
Proof.
  induction m as [|[k c] m IH]; simpl; intros Hn; [reflexivity|].
  destruct (String.eqb k g) eqn:E.
  - apply String.eqb_eq in E. tauto.
  - apply IH. tauto.
Qed.

Lemma lookup_key (g : Guid) (m : CollisionMap) (c : CollisionRecord) :
  lookup g m = Some c -> In g (keys m).
Proof.
  induction m as [|[k c0] m IH]; simpl; [discriminate|].
  destruct (String.eqb k g) eqn:E.
  - apply String.eqb_eq in E. now left.
  - intros H. right. now apply IH.
Qed.

(** The record of a guid after the pass. *)
Lemma lookup_cleanedMap (frame m : CollisionMap) (g : Guid) :
  uniqueKeys m ->
  lookup g (cleanedMap frame m) =
  match lookup g m with
  | Some c =>
      match keptOthers frame g c with
      | [] => None
      | o :: os => Some {| others := o :: os; entity := entity c |}
      end
  | None => None
  end.
Proof.
  unfold uniqueKeys. induction m as [|[k c] m IH]; intros Hnd; [reflexivity|].
  simpl in Hnd. inversion Hnd as [|? ? Hk Hm]; subst.
  rewrite cleanedMap_cons. cbn [lookup].
  destruct (String.eqb k g) eqn:E.
  - apply String.eqb_eq in E. subst k.
    destruct (keptOthers frame g c) as [|o os].
    + cbn [app]. apply lookup_not_key. intros Hin. apply Hk.
      now apply cleanedMap_keys in Hin.
    + cbn [app lookup]. now rewrite String.eqb_refl.
  - destruct (keptOthers frame k c); cbn [app lookup]; [|rewrite E]; now apply IH.
Qed.

Lemma endedPairs_guid (frame m : CollisionMap) (p : EndedPair) :
  In p (endedPairs frame m) -> In (fst (fst p)) (keys m).
Proof.
  induction m as [|[k c] m IH]; [auto|].
  rewrite endedPairs_cons. intros Hin. apply in_app_or in Hin.
  destruct Hin as [Hin|Hin].
  - apply in_map_iff in Hin. destruct Hin as [v [<- _]]. now left.
  - right. now apply IH.
Qed.

Lemma count_occ_record_same (g : Guid) (e o : EntityRef) (l : list EntityRef) :
  count_occ EndedPair_eq_dec (map (fun v => (g, e, v)) l) (g, e, o) =
  count_occ EntityRef_eq_dec l o.
Proof.
  induction l as [|v l IH]; [reflexivity|]. cbn [map count_occ].
  destruct (EndedPair_eq_dec (g, e, v) (g, e, o)) as [Heq|Hne];
    destruct (EntityRef_eq_dec v o) as [Hv|Hv]; try (now rewrite IH).
  - inversion Heq. contradiction.
  - subst v. contradiction.
Qed.

Lemma count_occ_once (l : list EntityRef) (o : EntityRef) :
  NoDup l -> In o l -> count_occ EntityRef_eq_dec l o = 1.
Proof.
  intros Hnd Hin.
  pose proof (proj1 (@NoDup_count_occ EntityRef EntityRef_eq_dec l) Hnd o) as Hle.
  pose proof (proj1 (@count_occ_In EntityRef EntityRef_eq_dec l o) Hin) as Hgt.
  lia.
Qed.

(** With unique guids and no duplicate among the others of the record, an
    ended pair is met exactly once. *)
Lemma endedPairs_once (frame m : CollisionMap) (g : Guid) (c : CollisionRecord)
    (o : EntityRef) :
  uniqueKeys m -> lookup g m = Some c -> NoDup (others c) -> In o (others c) ->
  notInFrame (lookup g frame) o = true ->
  count_occ EndedPair_eq_dec (endedPairs frame m) (g, entity c, o) = 1.
Proof.
  unfold uniqueKeys. intros Hnd Hl Hoth Hin Habs.
  induction m as [|[k c0] m IH]; [discriminate|].
  simpl in Hnd. inversion Hnd as [|? ? Hk Hm]; subst.
  rewrite endedPairs_cons, count_occ_app. cbn [lookup] in Hl.
  destruct (String.eqb k g) eqn:E.
  - apply String.eqb_eq in E. subst k. injection Hl as ->.
    change 1 with (1 + 0). f_equal.
    + rewrite count_occ_record_same. apply count_occ_once.
      * apply NoDup_rev. now apply NoDup_filter.
      * apply -> in_rev. apply filter_In. now split.
    + apply count_occ_not_In.
      intros Hp. apply endedPairs_guid in Hp. now apply Hk.
  - change 1 with (0 + 1). f_equal.
    + apply count_occ_not_In.
      intros Hp. apply in_map_iff in Hp. destruct Hp as [v [Heq _]].
      inversion Heq. subst k. rewrite String.eqb_refl in E. discriminate.
    + now apply IH.
Qed.

(** The transient map lists [o] under [g], as the loop tests it. *)
Lemma listedInFrame_iff (frame : CollisionMap) (g : Guid) (o : EntityRef) :
  listedInFrame frame g o = true <-> In o (othersOf frame g).
Proof.
  unfold listedInFrame. rewrite existsb_exists. split.
  - intros [x [Hin Heq]]. apply Nat.eqb_eq in Heq. now subst x.
  - intros Hin. exists o. split; [assumption|apply Nat.eqb_refl].
Qed.

Lemma notInFrame_listed (frame : CollisionMap) (g : Guid) (o : EntityRef) :
  notInFrame (lookup g frame) o = false <-> In o (othersOf frame g).
Proof.
  unfold notInFrame, othersOf. destruct (lookup g frame) as [f|].
  - apply indexOf_nonneg_iff.
  - split; [discriminate|intros []].
Qed.

Lemma listedInFrame_notInFrame (frame : CollisionMap) (g : Guid) (o : EntityRef) :
  listedInFrame frame g o = negb (notInFrame (lookup g frame) o).
Proof.
  destruct (notInFrame (lookup g frame) o) eqn:E; cbn [negb].
  - destruct (listedInFrame frame g o) eqn:L; [|reflexivity].
    apply listedInFrame_iff, notInFrame_listed in L. congruence.
  - now apply listedInFrame_iff, notInFrame_listed.
Qed.

Lemma stayingOthers_keptOthers (frame : CollisionMap) (g : Guid) (c : CollisionRecord) :
  stayingOthers frame g c = keptOthers frame g c.
Proof.
  unfold stayingOthers, keptOthers. apply filter_ext.
  intros o. apply listedInFrame_notInFrame.
Qed.

Lemma absentOthers_endedOthers (frame : CollisionMap) (g : Guid) (c : CollisionRecord) :
  absentOthers frame g c = endedOthers frame g c.
Proof.
  unfold absentOthers, endedOthers. apply filter_ext.
  intros o. rewrite listedInFrame_notInFrame. apply negb_involutive.
Qed.

Lemma absentPairs_endedPairs (frame m : CollisionMap) :
  absentPairs frame m = endedPairs frame m.
Proof.
  unfold absentPairs, endedPairs. apply flat_map_ext.
  intros gc. now rewrite absentOthers_endedOthers.
Qed.

(** The [if] at lines 128-144 fires the exit notification of the pair. *)
Lemma fireExit_exitNotification (sc : Scene) (e o : EntityRef) :
  fireExit sc e o = exitNotification sc e o.
Proof.
  unfold fireExit, exitNotification, fireIf, isSome.
  destruct (trigger (entities sc e)).
  - now destruct (collision (entities sc e)), (rigidbody (entities sc o)).
  - destruct (trigger (entities sc o)); cbn [negb]; [reflexivity|].
    now destruct (rigidbody (entities sc e)), (collision (entities sc e)).
Qed.

Lemma exitLog_exitNotifications (sc : Scene) (pairs : list EndedPair) :
  exitLog sc pairs = exitNotifications sc pairs.
Proof.
  unfold exitLog, exitNotifications. apply flat_map_ext.
  intros p. apply fireExit_exitNotification.
Qed.

(** Which exit notification an event belongs to. *)
Lemma exitNotification_in (sc : Scene) (e o : EntityRef) (ev : Fired) :
  In ev (exitNotification sc e o) ->
  (trigger (entities sc e) = true /\
   (ev = FireComponent e Collision triggerleave (PEntity o) \/
    ev = FireComponent o Rigidbody triggerleave (PEntity e))) \/
  (trigger (entities sc e) = false /\ trigger (entities sc o) = false /\
   (ev = FireComponent e Rigidbody collisionend (PEntity o) \/
    ev = FireComponent e Collision collisionend (PEntity o))).
Proof.
  unfold exitNotification.
  destruct (trigger (entities sc e)).
  - intros Hin. left. split; [reflexivity|].
    destruct (collision (entities sc e)), (rigidbody (entities sc o));
      cbn [In] in Hin; intuition auto.
  - destruct (trigger (entities sc o)); [intros []|].
    intros Hin. right. split; [reflexivity|split; [reflexivity|]].
    destruct (rigidbody (entities sc e)), (collision (entities sc e));
      cbn [In] in Hin; intuition auto.
Qed.

(** C1.  Take a persistent record (under guid [g], owned by [entity c]) and
    an other [o] of its list that this step's transient map does not list
    under [g].  A pass of [_cleanOldCollisions] removes [o] from the list.
    What the pass fires is, pair by pair, the exit notification of each
    (record, other) with the other absent from the transient map, and
    nothing else; the pair of [o] is among them exactly once.  So, for an
    owner that is a trigger, [triggerleave] is fired on the owner's
    collision component and on the other's rigidbody component, each if
    present; otherwise, when the other is no trigger, [collisionend] is
    fired on the owner's rigidbody and collision components, each if present,
    and nothing about the pair when the other is a trigger.  No
    [collisionend] of the pass is about a pair with a trigger in it, and
    every [triggerleave] is about a record owned by a trigger.  Afterwards
    the record is gone exactly when none of its others is still in the
    transient map, and otherwise holds those that are, in their order; the
    transient map is as it was. *)
Theorem cleanOldCollisions_ended_pair (sc : Scene) (this : Provider) (g : Guid)
    (c : CollisionRecord) (o : EntityRef) :
  uniqueKeys (collisions this) ->
  lookup g (collisions this) = Some c ->
  NoDup (others c) ->
  In o (others c) ->
  ~ In o (othersOf (frameCollisions this) g) ->
  let this' := fst (_cleanOldCollisions sc this) in
  let log := snd (_cleanOldCollisions sc this) in
  let e := entity c in
  let pairs := absentPairs (frameCollisions this) (collisions this) in
  ~ In o (othersOf (collisions this') g) /\
  log = exitNotifications sc pairs /\
  count_occ EndedPair_eq_dec pairs (g, e, o) = 1 /\
  (trigger (entities sc e) = true ->
   (collision (entities sc e) <> None ->
    In (FireComponent e Collision triggerleave (PEntity o)) log) /\
   (rigidbody (entities sc o) <> None ->
    In (FireComponent o Rigidbody triggerleave (PEntity e)) log)) /\
  (trigger (entities sc e) = false -> trigger (entities sc o) = false ->
   (rigidbody (entities sc e) <> None ->
    In (FireComponent e Rigidbody collisionend (PEntity o)) log) /\
   (collision (entities sc e) <> None ->
    In (FireComponent e Collision collisionend (PEntity o)) log)) /\
  (trigger (entities sc e) = false -> trigger (entities sc o) = true ->
   exitNotification sc e o = []) /\
  (forall ev, In ev log ->
     exists x y,
       (trigger (entities sc x) = true /\
        (ev = FireComponent x Collision triggerleave (PEntity y) \/
         ev = FireComponent y Rigidbody triggerleave (PEntity x))) \/
       (trigger (entities sc x) = false /\ trigger (entities sc y) = false /\
        (ev = FireComponent x Rigidbody collisionend (PEntity y) \/
         ev = FireComponent x Collision collisionend (PEntity y)))) /\
  (lookup g (collisions this') = None <->
   stayingOthers (frameCollisions this) g c = []) /\
  (forall c', lookup g (collisions this') = Some c' ->
              others c' = stayingOthers (frameCollisions this) g c /\ entity c' = e) /\
  frameCollisions this' = frameCollisions this.
Proof.
  intros Hnd Hl Hoth Hin Habs this' log e pairs.
  assert (Habs' : notInFrame (lookup g (frameCollisions this)) o = true).
  { destruct (notInFrame _ o) eqn:E; [reflexivity|].
    apply notInFrame_listed in E. contradiction. }
  subst this' log pairs. rewrite (cleanOldCollisions_unfold sc this Hnd).
  cbn [fst snd collisions frameCollisions].
  rewrite exitLog_exitNotifications, <- absentPairs_endedPairs, stayingOthers_keptOthers.
  assert (Hlk := lookup_cleanedMap (frameCollisions this) g Hnd). rewrite Hl in Hlk.
  assert (Hone : count_occ EndedPair_eq_dec
                   (absentPairs (frameCollisions this) (collisions this)) (g, e, o) = 1).
  { rewrite absentPairs_endedPairs. now apply endedPairs_once. }
  assert (Hfired : forall ev, In ev (exitNotification sc e o) ->
                     In ev (exitNotifications sc
                              (absentPairs (frameCollisions this) (collisions this)))).
  { intros ev Hev. unfold exitNotifications. apply in_flat_map.
    exists (g, e, o). split; [|exact Hev].
    apply (count_occ_In EndedPair_eq_dec). rewrite Hone. lia. }
  split; [|split; [|split; [|split; [|split; [|split; [|split; [|split; [|split]]]]]]]].
  - unfold othersOf. rewrite Hlk.
    destruct (keptOthers (frameCollisions this) g c) as [|v vs] eqn:Ek; [auto|].
    cbn [others]. rewrite <- Ek. unfold keptOthers. intros Hk.
    apply filter_In in Hk. destruct Hk as [_ Hk]. rewrite Habs' in Hk. discriminate.
  - reflexivity.
  - exact Hone.
  - intros Ht. split; intros Hc; apply Hfired; unfold exitNotification; rewrite Ht.
    + destruct (collision (entities sc e)); [|contradiction].
      destruct (rigidbody (entities sc o)); left; reflexivity.
    + destruct (rigidbody (entities sc o)); [|contradiction].
      destruct (collision (entities sc e)); [right|]; left; reflexivity.
  - intros Ht Hto. split; intros Hc; apply Hfired; unfold exitNotification;
      rewrite Ht, Hto.
    + destruct (rigidbody (entities sc e)); [|contradiction].
      destruct (collision (entities sc e)); left; reflexivity.
    + destruct (collision (entities sc e)); [|contradiction].
      destruct (rigidbody (entities sc e)); [right|]; left; reflexivity.
  - intros Ht Hto. unfold exitNotification. now rewrite Ht, Hto.
  - intros ev Hev. unfold exitNotifications in Hev. apply in_flat_map in Hev.
    destruct Hev as [p [_ Hev]]. exists (snd (fst p)), (snd p).
    now apply exitNotification_in.
  - rewrite Hlk. destruct (keptOthers (frameCollisions this) g c);
      split; intros H; (reflexivity || discriminate).
  - intros c' Hc'. rewrite Hlk in Hc'.
    destruct (keptOthers (frameCollisions this) g c); [discriminate|].
    injection Hc' as <-. split; reflexivity.
  - reflexivity.
Qed.

(* ------------------------------------------------------------------ *)
(** ** The bookkeeping invariants *)

Lemma keys_assign_in (g k : Guid) (c : CollisionRecord) (m : CollisionMap) :
  In k (keys (assign g c m)) -> k = g \/ In k (keys m).
Proof.
  induction m as [|[k0 c0] m IH]; simpl.
  - intros [<-|[]]. now left.
  - destruct (String.eqb k0 g) eqn:E; simpl.
    + intros [<-|H]; auto.
    + intros [<-|H]; auto. destruct (IH H); auto.
Qed.

Lemma uniqueKeys_assign (g : Guid) (c : CollisionRecord) (m : CollisionMap) :
  uniqueKeys m -> uniqueKeys (assign g c m).
Proof.
  unfold uniqueKeys. induction m as [|[k c0] m IH]; simpl; intros Hnd.
  - constructor; [auto|constructor].
  - inversion Hnd as [|? ? Hk Hm]; subst.
    destruct (String.eqb k g) eqn:E; simpl; constructor; auto.
    intros Hin. apply keys_assign_in in Hin. destruct Hin as [->|Hin]; [|auto].
    rewrite String.eqb_refl in E. discriminate.
Qed.

Lemma noDuplicateOthers_assign (g : Guid) (c : CollisionRecord) (m : CollisionMap) :
  NoDup (others c) -> noDuplicateOthers m -> noDuplicateOthers (assign g c m).
Proof.
  unfold noDuplicateOthers. intros Hc. induction m as [|[k c0] m IH]; simpl; intros Hm.
  - now constructor.
  - inversion Hm; subst. destruct (String.eqb k g); constructor; auto.
Qed.

Lemma noDuplicateOthers_orFresh (m : CollisionMap) (g : Guid) (e : EntityRef) :
  noDuplicateOthers m -> NoDup (others (orFresh m g e)).
Proof.
  unfold noDuplicateOthers, orFresh. induction m as [|[k c0] m IH]; simpl; intros Hm.
  - constructor.
  - inversion Hm; subst. destruct (String.eqb k g); auto.
Qed.

Lemma storeCollision_invariant (sc : Scene) (e o : EntityRef) (this : Provider) :
  invariant this -> invariant (snd (_storeCollision sc e o this)).
Proof.
  intros [Hk Ho]. rewrite storeCollision_unfold. cbn [snd]. unfold invariant. cbn [collisions].
  pose proof (noDuplicateOthers_orFresh (getGuid (entities sc e)) e Ho) as Hc.
  destruct (indexOf _ o <? 0)%Z eqn:E.
  - split; [now apply uniqueKeys_assign|].
    apply noDuplicateOthers_assign; [|assumption].
    apply indexOf_neg_iff in E. unfold push. cbn [others].
    apply NoDup_app; [assumption|repeat constructor; auto|].
    intros v Hv [<-|[]]. contradiction.
  - split; [now apply uniqueKeys_assign|now apply noDuplicateOthers_assign].
Qed.

Lemma uniqueKeys_cleanedMap (frame m : CollisionMap) :
  uniqueKeys m -> uniqueKeys (cleanedMap frame m).
Proof.
  unfold uniqueKeys. induction m as [|[k c] m IH]; intros Hnd; [constructor|].
  simpl in Hnd. inversion Hnd as [|? ? Hk Hm]; subst.
  rewrite cleanedMap_cons. destruct (keptOthers frame k c); cbn [app]; [auto|].
  cbn [keys map fst]. constructor; [|now apply IH].
  intros Hin. apply Hk. now apply cleanedMap_keys in Hin.
Qed.

Lemma noDuplicateOthers_cleanedMap (frame m : CollisionMap) :
  noDuplicateOthers m -> noDuplicateOthers (cleanedMap frame m).
Proof.
  unfold noDuplicateOthers. induction m as [|[k c] m IH]; intros Hm; [constructor|].
  inversion Hm as [|? ? Hc Hm']; subst. rewrite cleanedMap_cons.
  destruct (keptOthers frame k c) as [|o os] eqn:Ek; cbn [app]; [auto|].
  constructor; [|auto]. cbn [snd others]. rewrite <- Ek.
  now apply NoDup_filter.
Qed.

Lemma noEmptyRecord_cleanedMap (frame m : CollisionMap) :
  noEmptyRecord (cleanedMap frame m).
Proof.
  unfold noEmptyRecord. induction m as [|[k c] m IH]; [constructor|].
  rewrite cleanedMap_cons. destruct (keptOthers frame k c); cbn [app]; [auto|].
  constructor; [discriminate|auto].
Qed.

Lemma cleanOldCollisions_invariant (sc : Scene) (this : Provider) :
  invariant this ->
  invariant (fst (_cleanOldCollisions sc this)) /\
  noEmptyRecord (collisions (fst (_cleanOldCollisions sc this))).
Proof.
  intros [Hk Ho]. rewrite cleanOldCollisions_unfold by assumption.
  cbn [fst collisions]. unfold invariant. cbn [collisions].
  auto using uniqueKeys_cleanedMap, noDuplicateOthers_cleanedMap, noEmptyRecord_cleanedMap.
Qed.

(** *** Composing computations *)

Section Respects.

Variable I : Provider -> Prop.
Variable E : Fired -> Prop.

Lemma respects_ret {A : Type} (v : A) : respects I E (ret v).
Proof. intros this HI. simpl. auto. Qed.

Lemma respects_bind {A B : Type} (m : M A) (k : A -> M B) :
  respects I E m -> (forall v, respects I E (k v)) -> respects I E (bind m k).
Proof.
  intros Hm Hk this HI. unfold bind.
  specialize (Hm this HI). destruct (m this) as [[v this1] log1]. cbn [fst snd] in Hm.
  destruct Hm as [HI1 HE1]. specialize (Hk v this1 HI1).
  destruct (k v this1) as [[w this2] log2]. cbn [fst snd] in *.
  destruct Hk as [HI2 HE2]. split; [assumption|].
  apply Forall_app. now split.
Qed.

Lemma respects_fire (owner : EntityRef) (kind : ComponentKind) (name : EventName)
    (arg : Payload) :
  E (FireComponent owner kind name arg) -> respects I E (fire owner kind name arg).
Proof. intros HE this HI. simpl. auto. Qed.

Lemma respects_fireSystem (name : EventName) (r : SingleContactResult) :
  E (FireSystem name r) -> respects I E (fireSystem name r).
Proof. intros HE this HI. simpl. auto. Qed.

Lemma respects_when (cond : bool) (m : M unit) :
  (cond = true -> respects I E m) -> respects I E (when cond m).
Proof. destruct cond; simpl; intros H; [auto|apply respects_ret]. Qed.

Lemma respects_storeCollision (sc : Scene) (e o : EntityRef) :
  (forall this, I this -> I (snd (_storeCollision sc e o this))) ->
  respects I E (storeCollision sc e o).
Proof.
  intros H this HI. unfold storeCollision. specialize (H this HI).
  destruct (_storeCollision sc e o this) as [isNew this']. simpl in *. auto.
Qed.

Lemma respects_cleanOldCollisions (sc : Scene) :
  (forall this, I this -> I (fst (_cleanOldCollisions sc this)) /\
                          Forall E (snd (_cleanOldCollisions sc this))) ->
  respects I E (cleanOldCollisions sc).
Proof.
  intros H this HI. unfold cleanOldCollisions. specialize (H this HI).
  destruct (_cleanOldCollisions sc this) as [this' log]. simpl in *. auto.
Qed.

End Respects.

Ltac respects_step :=
  first
    [ apply respects_ret
    | apply respects_bind; [|intros ?]
    | apply respects_when; intros ?
    | apply respects_fire
    | apply respects_fireSystem
    | apply respects_storeCollision
    | match goal with
      | |- respects _ _ (if ?c then _ else _) => destruct c eqn:?
      | |- respects _ _ (let '(_, _) := ?p in _) => destruct p eqn:?
      end ].

Ltac respects_steps := repeat respects_step.

(** *** The detection pass keeps the invariants *)

Section DetectionInvariant.

Variable BODYFLAG_NORESPONSE_OBJECT : Z.
Variable sc : Scene.

Lemma triggerPath_invariant (e0 e1 : EntityRef) (flags0 flags1 : Z) :
  respects invariant anyEvent (triggerPath BODYFLAG_NORESPONSE_OBJECT sc e0 e1 flags0 flags1).
Proof.
  unfold triggerPath, collisionSide, rigidbodySide. respects_steps;
    solve [exact Logic.I | intros; now apply storeCollision_invariant].
Qed.

Lemma contactLoop_invariant (e0 e1 : EntityRef) (e0Events e1Events globalEvents : bool)
    (points : list btManifoldPoint) :
  forall forwardContacts reverseContacts,
    respects invariant anyEvent
      (contactLoop e0 e1 e0Events e1Events globalEvents points forwardContacts reverseContacts).
Proof.
  induction points as [|p points IH]; intros f r; cbn [contactLoop].
  - apply respects_ret.
  - destruct (e0Events || e1Events); respects_steps; solve [exact Logic.I | apply IH].
Qed.

Lemma notifyContact_invariant (e o : EntityRef) (contacts : list ContactPoint) :
  respects invariant anyEvent (notifyContact sc e o contacts).
Proof.
  unfold notifyContact. respects_steps;
    solve [exact Logic.I | intros; now apply storeCollision_invariant].
Qed.

Lemma processManifold_invariant (m : btPersistentManifold) :
  respects invariant anyEvent (processManifold BODYFLAG_NORESPONSE_OBJECT sc m).
Proof.
  unfold processManifold.
  destruct (bodyEntity (getBody0 m)) as [e0|]; [|apply respects_ret].
  destruct (bodyEntity (getBody1 m)) as [e1|]; [|apply respects_ret].
  destruct (0 <? getNumContacts m); [|apply respects_ret].
  destruct (noResponse _ _ || noResponse _ _); [apply triggerPath_invariant|].
  unfold contactPath.
  destruct (_ || _ || _); [|apply respects_ret].
  apply respects_bind; [apply contactLoop_invariant|intros fr].
  apply respects_bind; [|intros _];
    (apply respects_when; intros _; apply notifyContact_invariant).
Qed.

Lemma forEachManifold_invariant (manifolds : list btPersistentManifold) :
  respects invariant anyEvent (forEachManifold BODYFLAG_NORESPONSE_OBJECT sc manifolds).
Proof.
  induction manifolds as [|m manifolds IH]; cbn [forEachManifold].
  - apply respects_ret.
  - apply respects_bind; [apply processManifold_invariant|intros _; exact IH].
Qed.

(** The pass is the loop over the manifolds from an empty transient map,
    then [_cleanOldCollisions]. *)
Lemma checkForCollisions_unfold (manifolds : list btPersistentManifold) (this : Provider) :
  _checkForCollisions BODYFLAG_NORESPONSE_OBJECT sc manifolds this =
  let after := forEachManifold BODYFLAG_NORESPONSE_OBJECT sc manifolds
                 {| collisions := collisions this; frameCollisions := [] |} in
  let cleaned := _cleanOldCollisions sc (snd (fst after)) in
  (fst cleaned, snd after ++ snd cleaned).
Proof.
  unfold _checkForCollisions, bind, cleanOldCollisions.
  destruct (forEachManifold _ _ _ _) as [[u this1] log1]. cbn [fst snd].
  destruct (_cleanOldCollisions sc this1) as [this2 log2]. reflexivity.
Qed.

Lemma checkForCollisions_invariant (manifolds : list btPersistentManifold) (this : Provider) :
  invariant this ->
  invariant (fst (_checkForCollisions BODYFLAG_NORESPONSE_OBJECT sc manifolds this)) /\
  noEmptyRecord
    (collisions (fst (_checkForCollisions BODYFLAG_NORESPONSE_OBJECT sc manifolds this))).
Proof.
  intros Hinv. rewrite checkForCollisions_unfold. cbn [fst].
  apply cleanOldCollisions_invariant.
  apply (forEachManifold_invariant manifolds). exact Hinv.
Qed.

End DetectionInvariant.

Lemma Reachable_invariant (BODYFLAG_NORESPONSE_OBJECT : Z) (this : Provider) :
  Reachable BODYFLAG_NORESPONSE_OBJECT this -> invariant this.
Proof.
  induction 1.
  - split; constructor.
  - now apply storeCollision_invariant.
  - now apply cleanOldCollisions_invariant.
  - now apply checkForCollisions_invariant.
Qed.

(** C5.  In every state the provider can reach by [_storeCollision],
    [_cleanOldCollisions] and detection passes, no persistent record lists an
    other twice (and no guid has two records).  After a pass of
    [_cleanOldCollisions], and so after a detection pass, no persistent
    record has an empty others-list.  A detection pass starts from an empty
    transient map: what it does is the same whatever the transient map held
    before. *)
Theorem bookkeeping_invariants (BODYFLAG_NORESPONSE_OBJECT : Z) (this : Provider) :
  Reachable BODYFLAG_NORESPONSE_OBJECT this ->
  noDuplicateOthers (collisions this) /\
  uniqueKeys (collisions this) /\
  (forall sc, noEmptyRecord (collisions (fst (_cleanOldCollisions sc this)))) /\
  (forall sc manifolds,
      noEmptyRecord
        (collisions (fst (_checkForCollisions BODYFLAG_NORESPONSE_OBJECT sc manifolds this)))) /\
  (forall sc manifolds frame,
      _checkForCollisions BODYFLAG_NORESPONSE_OBJECT sc manifolds
        {| collisions := collisions this; frameCollisions := frame |} =
      _checkForCollisions BODYFLAG_NORESPONSE_OBJECT sc manifolds this).
Proof.
  intros Hr. pose proof (Reachable_invariant Hr) as Hinv.
  destruct Hinv as [Hk Ho]. repeat split; try assumption.
  - intros sc. now apply cleanOldCollisions_invariant.
  - intros sc manifolds. now apply checkForCollisions_invariant.
Qed.

(* ------------------------------------------------------------------ *)
(** ** Events of trigger pairs *)

Section ExitEvents.

Variable sc : Scene.
Variable E : Fired -> Prop.
Hypothesis fireExit_E : forall e o, Forall E (fireExit sc e o).

Lemma whileLoop_fires (f : option CollisionRecord) (e : EntityRef) (i : nat) :
  forall l, Forall E (snd (whileLoop sc f e i l)).
Proof.
  induction i as [|i IH]; intros l; cbn [whileLoop]; [constructor|].
  destruct (nth_error l i) as [o|]; [|apply IH].
  destruct (notInFrame f o); [|apply IH].
  specialize (IH (splice1 i l)).
  destruct (whileLoop sc f e i (splice1 i l)) as [l' log]. cbn [snd] in *.
  apply Forall_app. split; [apply fireExit_E|assumption].
Qed.

Lemma cleanGuid_fires (acc : Provider * list Fired) (g : Guid) :
  Forall E (snd acc) -> Forall E (snd (cleanGuid sc acc g)).
Proof.
  destruct acc as [this log]. unfold cleanGuid. cbn [snd]. intros Hlog.
  destruct (lookup g (collisions this)) as [c|]; [|assumption].
  pose proof (whileLoop_fires (lookup g (frameCollisions this)) (entity c)
                              (List.length (others c)) (others c)) as Hw.
  destruct (whileLoop _ _ _ _ _) as [l' ev]. cbn [snd] in *.
  apply Forall_app. now split.
Qed.

Lemma cleanOldCollisions_fires (this : Provider) :
  Forall E (snd (_cleanOldCollisions sc this)).
Proof.
  unfold _cleanOldCollisions.
  assert (H : forall gs acc, Forall E (snd acc) ->
                             Forall E (snd (fold_left (cleanGuid sc) gs acc))).
  { induction gs as [|g gs IH]; intros acc Hacc; [assumption|].
    cbn [fold_left]. apply IH. now apply cleanGuid_fires. }
  apply H. constructor.
Qed.

End ExitEvents.

Lemma triggerEventsOnly_named (sc : Scene) (ev : Fired) :
  eventName ev = triggerenter \/ eventName ev = triggerleave -> triggerEventsOnly sc ev.
Proof. intros H _. exact H. Qed.

Lemma triggerEventsOnly_physical (sc : Scene) (ev : Fired) :
  involvesTrigger sc ev = false -> triggerEventsOnly sc ev.
Proof. intros H H'. congruence. Qed.

Lemma Forall_fireIf (E : Fired -> Prop) (cond : bool) (ev : Fired) :
  E ev -> Forall E (fireIf cond ev).
Proof. intros H. destruct cond; cbn [fireIf]; [now apply Forall_cons|apply Forall_nil]. Qed.

(** An exit notification is a [triggerleave], or, when neither entity is a
    trigger, a [collisionend]. *)
Lemma fireExit_triggerEventsOnly (sc : Scene) (e o : EntityRef) :
  Forall (triggerEventsOnly sc) (fireExit sc e o).
Proof.
  unfold fireExit.
  destruct (trigger (entities sc e)) eqn:Te.
  - apply Forall_app. split; apply Forall_fireIf;
      apply triggerEventsOnly_named; now right.
  - destruct (trigger (entities sc o)) eqn:To; cbn [negb]; [apply Forall_nil|].
    apply Forall_app. split; apply Forall_fireIf;
      apply triggerEventsOnly_physical; unfold involvesTrigger; cbn;
      now rewrite Te, To.
Qed.

Section TriggerEvents.

Variable BODYFLAG_NORESPONSE_OBJECT : Z.
Variable sc : Scene.

Lemma triggerPath_fires_triggerenter (e0 e1 : EntityRef) (flags0 flags1 : Z) :
  respects anyState (fun ev => eventName ev = triggerenter)
           (triggerPath BODYFLAG_NORESPONSE_OBJECT sc e0 e1 flags0 flags1).
Proof.
  unfold triggerPath, collisionSide, rigidbodySide. respects_steps; solve [reflexivity | intros; exact Logic.I].
Qed.

Lemma respects_weaken {A : Type} (I : Provider -> Prop) (E E' : Fired -> Prop) (m : M A) :
  (forall ev, E ev -> E' ev) -> respects I E m -> respects I E' m.
Proof.
  intros Himp Hm this HI. destruct (Hm this HI) as [HI' HE]. split; [assumption|].
  eapply Forall_impl; eauto.
Qed.

Section Physical.

Variables e0 e1 : EntityRef.
Hypothesis e0_physical : trigger (entities sc e0) = false.
Hypothesis e1_physical : trigger (entities sc e1) = false.

Lemma between_physical (ev : Fired) : between e0 e1 ev -> triggerEventsOnly sc ev.
Proof.
  intros [H|H]; apply triggerEventsOnly_physical; unfold involvesTrigger;
    rewrite H; cbn [fst snd]; now rewrite e0_physical, e1_physical.
Qed.

Lemma contactLoop_between (e0Events e1Events globalEvents : bool)
    (points : list btManifoldPoint) :
  forall forwardContacts reverseContacts,
    respects anyState (between e0 e1)
      (contactLoop e0 e1 e0Events e1Events globalEvents points forwardContacts reverseContacts).
Proof.
  induction points as [|p points IH]; intros f r; cbn [contactLoop].
  - apply respects_ret.
  - destruct (e0Events || e1Events); respects_steps;
      solve [now left | apply IH].
Qed.

Lemma notifyContact_forward (contacts : list ContactPoint) :
  respects anyState (between e0 e1) (notifyContact sc e0 e1 contacts).
Proof.
  unfold notifyContact. respects_steps;
    solve [now left | intros; exact Logic.I].
Qed.

Lemma notifyContact_reverse (contacts : list ContactPoint) :
  respects anyState (between e0 e1) (notifyContact sc e1 e0 contacts).
Proof.
  unfold notifyContact. respects_steps;
    solve [now right | intros; exact Logic.I].
Qed.

Lemma contactPath_physical (points : list btManifoldPoint) :
  respects anyState (triggerEventsOnly sc) (contactPath sc e0 e1 points).
Proof.
  apply respects_weaken with (E := between e0 e1); [exact between_physical|].
  unfold contactPath.
  destruct (_ || _ || _); [|apply respects_ret].
  apply respects_bind; [apply contactLoop_between|intros fr].
  apply respects_bind; [|intros _]; apply respects_when; intros _.
  - apply notifyContact_forward.
  - apply notifyContact_reverse.
Qed.

End Physical.

Lemma processManifold_triggerEventsOnly (m : btPersistentManifold) :
  flagsAgree BODYFLAG_NORESPONSE_OBJECT sc (getBody0 m) ->
  flagsAgree BODYFLAG_NORESPONSE_OBJECT sc (getBody1 m) ->
  respects anyState (triggerEventsOnly sc) (processManifold BODYFLAG_NORESPONSE_OBJECT sc m).
Proof.
  unfold flagsAgree, processManifold. intros H0 H1.
  destruct (bodyEntity (getBody0 m)) as [e0|]; [|apply respects_ret].
  destruct (bodyEntity (getBody1 m)) as [e1|]; [|apply respects_ret].
  specialize (H0 e0 eq_refl). specialize (H1 e1 eq_refl).
  destruct (0 <? getNumContacts m); [|apply respects_ret].
  destruct (noResponse _ (getCollisionFlags (getBody0 m))) eqn:F0;
    [|destruct (noResponse _ (getCollisionFlags (getBody1 m))) eqn:F1]; cbn [orb].
  - eapply respects_weaken; [|apply triggerPath_fires_triggerenter].
    intros ev Hev. apply triggerEventsOnly_named. now left.
  - eapply respects_weaken; [|apply triggerPath_fires_triggerenter].
    intros ev Hev. apply triggerEventsOnly_named. now left.
  - apply contactPath_physical; congruence.
Qed.

Lemma forEachManifold_triggerEventsOnly (manifolds : list btPersistentManifold) :
  manifoldsAgree BODYFLAG_NORESPONSE_OBJECT sc manifolds ->
  respects anyState (triggerEventsOnly sc)
           (forEachManifold BODYFLAG_NORESPONSE_OBJECT sc manifolds).
Proof.
  unfold manifoldsAgree. induction 1 as [|m manifolds [H0 H1] _ IH]; cbn [forEachManifold].
  - apply respects_ret.
  - apply respects_bind; [now apply processManifold_triggerEventsOnly|intros _; exact IH].
Qed.

End TriggerEvents.

Lemma checkForCollisions_triggerEventsOnly (BODYFLAG_NORESPONSE_OBJECT : Z)
    (sc : Scene) (manifolds : list btPersistentManifold) (this : Provider) :
  manifoldsAgree BODYFLAG_NORESPONSE_OBJECT sc manifolds ->
  Forall (triggerEventsOnly sc)
         (snd (_checkForCollisions BODYFLAG_NORESPONSE_OBJECT sc manifolds this)).
Proof.
  intros Hagree. rewrite checkForCollisions_unfold. cbn [snd].
  apply Forall_app. split.
  - pose proof (forEachManifold_triggerEventsOnly Hagree) as Hm.
    now destruct (Hm {| collisions := collisions this; frameCollisions := [] |} Logic.I).
  - apply (@cleanOldCollisions_fires sc _ (fireExit_triggerEventsOnly sc)).
Qed.

(** *** Where the events of a pass come from *)

Section Origins.

Variable BODYFLAG_NORESPONSE_OBJECT : Z.
Variable sc : Scene.

Lemma triggerPath_origin (e0 e1 : EntityRef) (flags0 flags1 : Z) :
  respects anyState (fun ev => between e0 e1 ev /\ eventName ev = triggerenter)
           (triggerPath BODYFLAG_NORESPONSE_OBJECT sc e0 e1 flags0 flags1).
Proof.
  unfold triggerPath, collisionSide, rigidbodySide. respects_steps;
    solve [ split; [now left|reflexivity]
          | split; [now right|reflexivity]
          | intros; exact Logic.I ].
Qed.

Lemma contactLoop_origin (e0 e1 : EntityRef) (e0Events e1Events globalEvents : bool)
    (points : list btManifoldPoint) :
  forall forwardContacts reverseContacts,
    respects anyState
      (fun ev => between e0 e1 ev /\
                 (eventName ev = contact \/ eventName ev = collisionstart))
      (contactLoop e0 e1 e0Events e1Events globalEvents points forwardContacts reverseContacts).
Proof.
  induction points as [|p points IH]; intros f r; cbn [contactLoop].
  - apply respects_ret.
  - destruct (e0Events || e1Events); respects_steps;
      solve [split; now left | apply IH].
Qed.

Lemma notifyContact_origin (e0 e1 entity other : EntityRef) (contacts : list ContactPoint) :
  (entity, other) = (e0, e1) \/ (entity, other) = (e1, e0) ->
  respects anyState
    (fun ev => between e0 e1 ev /\
               (eventName ev = contact \/ eventName ev = collisionstart))
    (notifyContact sc entity other contacts).
Proof.
  intros Hpair. unfold notifyContact. respects_steps;
    solve [ split; [exact Hpair|now left]
          | split; [exact Hpair|now right]
          | intros; exact Logic.I ].
Qed.

Lemma contactPath_origin (e0 e1 : EntityRef) (points : list btManifoldPoint) :
  respects anyState
    (fun ev => between e0 e1 ev /\
               (eventName ev = contact \/ eventName ev = collisionstart))
    (contactPath sc e0 e1 points).
Proof.
  unfold contactPath.
  destruct (_ || _ || _); [|apply respects_ret].
  apply respects_bind; [apply contactLoop_origin|intros fr].
  apply respects_bind; [|intros _]; apply respects_when; intros _.
  - apply notifyContact_origin. now left.
  - apply notifyContact_origin. now right.
Qed.

Lemma processManifold_origin (m : btPersistentManifold) :
  respects anyState (firedForManifold BODYFLAG_NORESPONSE_OBJECT m)
           (processManifold BODYFLAG_NORESPONSE_OBJECT sc m).
Proof.
  unfold processManifold, firedForManifold, flagged.
  destruct (bodyEntity (getBody0 m)) as [e0|]; [|apply respects_ret].
  destruct (bodyEntity (getBody1 m)) as [e1|]; [|apply respects_ret].
  destruct (0 <? getNumContacts m); [|apply respects_ret].
  destruct (noResponse _ (getCollisionFlags (getBody0 m))
            || noResponse _ (getCollisionFlags (getBody1 m))).
  - eapply respects_weaken; [|apply triggerPath_origin].
    intros ev [Hb Hn]. exists e0, e1. auto.
  - eapply respects_weaken; [|apply contactPath_origin].
    intros ev [Hb Hn]. exists e0, e1. auto.
Qed.

Lemma forEachManifold_origin (manifolds : list btPersistentManifold) :
  respects anyState
    (fun ev => exists m, In m manifolds /\ firedForManifold BODYFLAG_NORESPONSE_OBJECT m ev)
    (forEachManifold BODYFLAG_NORESPONSE_OBJECT sc manifolds).
Proof.
  induction manifolds as [|m manifolds IH]; cbn [forEachManifold].
  - apply respects_ret.
  - apply respects_bind; [|intros _].
    + eapply respects_weaken; [|apply processManifold_origin].
      intros ev Hev. exists m. split; [now left|assumption].
    + eapply respects_weaken; [|exact IH].
      intros ev [m' [Hin Hev]]. exists m'. split; [now right|assumption].
Qed.

Lemma fireExit_exitEvent (e o : EntityRef) : Forall (exitEvent sc) (fireExit sc e o).
Proof.
  rewrite fireExit_exitNotification. apply Forall_forall. intros ev Hev.
  exists e, o. now apply exitNotification_in.
Qed.

Lemma checkForCollisions_origin (manifolds : list btPersistentManifold) (this : Provider)
    (ev : Fired) :
  In ev (snd (_checkForCollisions BODYFLAG_NORESPONSE_OBJECT sc manifolds this)) ->
  (exists m, In m manifolds /\ firedForManifold BODYFLAG_NORESPONSE_OBJECT m ev) \/
  exitEvent sc ev.
Proof.
  rewrite checkForCollisions_unfold. cbn [snd]. intros Hin.
  apply in_app_or in Hin. destruct Hin as [Hin|Hin].
  - left.
    destruct (@forEachManifold_origin manifolds
                {| collisions := collisions this; frameCollisions := [] |} Logic.I)
      as [_ Hall].
    rewrite Forall_forall in Hall. now apply Hall.
  - right.
    pose proof (@cleanOldCollisions_fires sc _ fireExit_exitEvent
                  (snd (fst (forEachManifold BODYFLAG_NORESPONSE_OBJECT sc manifolds
                               {| collisions := collisions this;
                                  frameCollisions := [] |})))) as Hall.
    rewrite Forall_forall in Hall. now apply Hall.
Qed.

End Origins.

(** C3, amended.  The loop over the manifolds tests the no-response flag of
    the bodies; the closing [_cleanOldCollisions] tests [entity.trigger].
    For a manifold with a flagged body only [triggerenter] is fired, and
    every [collisionstart] and [contact] of a pass is fired for a manifold
    without flagged body, between its two entities.  Every [collisionend] of
    a pass is about a pair of which neither entity has [trigger] set,
    whatever the flags of the bodies, and every [triggerleave] is about a
    pair with such an entity.  So, when the bodies the dispatcher reports
    carry the flag exactly when their entity has [trigger] set: for every
    manifold with a flagged body, every event of the pass about its two
    entities is a [triggerenter] or a [triggerleave], never a
    [collisionstart] or a [collisionend]; and so is every event of the pass
    about a pair with a trigger in it. *)
Theorem trigger_pairs_fire_trigger_events_only (BODYFLAG_NORESPONSE_OBJECT : Z)
    (sc : Scene) (manifolds : list btPersistentManifold) (this : Provider) :
  let log := snd (_checkForCollisions BODYFLAG_NORESPONSE_OBJECT sc manifolds this) in
  (forall m s,
      flagged BODYFLAG_NORESPONSE_OBJECT m = true ->
      Forall (fun ev => eventName ev = triggerenter)
             (snd (processManifold BODYFLAG_NORESPONSE_OBJECT sc m s))) /\
  (forall ev,
      In ev log ->
      eventName ev = collisionstart \/ eventName ev = contact ->
      exists m e0 e1,
        In m manifolds /\
        flagged BODYFLAG_NORESPONSE_OBJECT m = false /\
        bodyEntity (getBody0 m) = Some e0 /\
        bodyEntity (getBody1 m) = Some e1 /\
        between e0 e1 ev) /\
  (forall ev,
      In ev log ->
      eventName ev = collisionend ->
      trigger (entities sc (fst (participants ev))) = false /\
      trigger (entities sc (snd (participants ev))) = false) /\
  (forall ev,
      In ev log ->
      eventName ev = triggerleave ->
      involvesTrigger sc ev = true) /\
  (manifoldsAgree BODYFLAG_NORESPONSE_OBJECT sc manifolds ->
   (forall m e0 e1 ev,
       In m manifolds ->
       bodyEntity (getBody0 m) = Some e0 ->
       bodyEntity (getBody1 m) = Some e1 ->
       noResponse BODYFLAG_NORESPONSE_OBJECT (getCollisionFlags (getBody0 m))
       || noResponse BODYFLAG_NORESPONSE_OBJECT (getCollisionFlags (getBody1 m)) = true ->
       In ev log ->
       between e0 e1 ev ->
       (eventName ev = triggerenter \/ eventName ev = triggerleave) /\
       eventName ev <> collisionstart /\ eventName ev <> collisionend) /\
   (forall ev,
       In ev log ->
       involvesTrigger sc ev = true ->
       (eventName ev = triggerenter \/ eventName ev = triggerleave) /\
       eventName ev <> collisionstart /\ eventName ev <> collisionend)).
Proof.
  intros log.
  split; [|split; [|split; [|split]]].
  - intros m s Hf.
    destruct (@processManifold_origin BODYFLAG_NORESPONSE_OBJECT sc m s Logic.I) as [_ Hall].
    eapply Forall_impl; [|exact Hall].
    intros ev (e0 & e1 & _ & _ & _ & Hn). now rewrite Hf in Hn.
  - intros ev Hin Hname.
    destruct (@checkForCollisions_origin _ _ _ _ _ Hin)
      as [(m & Hm & e0 & e1 & H0 & H1 & Hb & Hn)|(x & y & Hexit)].
    + exists m, e0, e1.
      destruct (flagged BODYFLAG_NORESPONSE_OBJECT m); [|auto].
      rewrite Hn in Hname. destruct Hname; discriminate.
    + destruct Hexit as [(_ & [-> | ->])|(_ & _ & [-> | ->])];
        destruct Hname; discriminate.
  - intros ev Hin Hname.
    destruct (@checkForCollisions_origin _ _ _ _ _ Hin)
      as [(m & Hm & e0 & e1 & H0 & H1 & Hb & Hn)|(x & y & Hexit)].
    + destruct (flagged BODYFLAG_NORESPONSE_OBJECT m);
        [|destruct Hn as [Hn|Hn]]; rewrite Hn in Hname; discriminate.
    + destruct Hexit as [(_ & [-> | ->])|(Hx & Hy & [-> | ->])];
        try discriminate; cbn [participants fst snd]; auto.
  - intros ev Hin Hname.
    destruct (@checkForCollisions_origin _ _ _ _ _ Hin)
      as [(m & Hm & e0 & e1 & H0 & H1 & Hb & Hn)|(x & y & Hexit)].
    + destruct (flagged BODYFLAG_NORESPONSE_OBJECT m);
        [|destruct Hn as [Hn|Hn]]; rewrite Hn in Hname; discriminate.
    + unfold involvesTrigger.
      destruct Hexit as [(Hx & [-> | ->])|(_ & _ & [-> | ->])];
        try discriminate; cbn [participants fst snd]; rewrite Hx;
        [reflexivity|apply orb_true_r].
  - intros Hagree.
    assert (Hall : forall ev, In ev log -> involvesTrigger sc ev = true ->
                   (eventName ev = triggerenter \/ eventName ev = triggerleave) /\
                   eventName ev <> collisionstart /\ eventName ev <> collisionend).
    { intros ev Hin Htrig.
      pose proof (checkForCollisions_triggerEventsOnly this Hagree) as Hev.
      rewrite Forall_forall in Hev. specialize (Hev ev Hin Htrig).
      split; [assumption|]. destruct Hev as [-> | ->]; split; discriminate. }
    split; [|exact Hall].
    intros m e0 e1 ev Hm He0 He1 Hflag Hin Hbetween. apply Hall; [assumption|].
    unfold manifoldsAgree in Hagree. rewrite Forall_forall in Hagree.
    destruct (Hagree m Hm) as [H0 H1].
    rewrite (H0 e0 He0), (H1 e1 He1) in Hflag.
    unfold involvesTrigger.
    destruct Hbetween as [-> | ->]; cbn [fst snd]; [assumption|].
    now rewrite orb_comm.
Qed.

(* ------------------------------------------------------------------ *)
(** ** [triggerenter] on the trigger path *)

Lemma grows_refl (s : Provider) : grows s s.
Proof. intros g v H. exact H. Qed.

Lemma grows_trans (s1 s2 s3 : Provider) : grows s1 s2 -> grows s2 s3 -> grows s1 s3.
Proof. intros H12 H23 g v H. apply H23, H12, H. Qed.

(** What one call of [_storeCollision] does to the persistent map. *)
Lemma storeCollision_step (sc : Scene) (p q : EntityRef) (s : Provider) :
  grows s (snd (_storeCollision sc p q s)) /\
  (fst (_storeCollision sc p q s) = true ->
   ~ In q (persistentOthers sc p s) /\
   In q (persistentOthers sc p (snd (_storeCollision sc p q s)))).
Proof.
  split.
  - intros g v H. now apply storeCollision_keeps.
  - intros Htrue.
    destruct (in_dec EntityRef_eq_dec q (persistentOthers sc p s)) as [Hin|Hn].
    + apply (storeCollision_present sc p q s) in Hin. destruct Hin as [Hf _]. congruence.
    + split; [assumption|].
      destruct (storeCollision_absent sc p q s Hn) as [_ ->].
      apply in_or_app. right. now left.
Qed.

Section TriggerEnter.

Variable BODYFLAG_NORESPONSE_OBJECT : Z.
Variable sc : Scene.
Variables e0 e1 : EntityRef.
Variables flags0 flags1 : Z.
Variable before : Provider.

Abbreviation justified :=
  (triggerenterJustified BODYFLAG_NORESPONSE_OBJECT sc e0 e1 flags0 flags1 before).
Abbreviation betweenBlocks :=
  (betweenBlocks BODYFLAG_NORESPONSE_OBJECT sc e0 e1 flags0 flags1 before).

Lemma freshlyStored_grows (s s' : Provider) (p q : EntityRef) :
  grows s s' -> freshlyStored sc before s p q -> freshlyStored sc before s' p q.
Proof. intros Hg [Hn Hin]. split; [assumption|]. now apply Hg. Qed.

Lemma justified_grows (s s' : Provider) (ev : Fired) :
  grows s s' -> justified s ev -> justified s' ev.
Proof.
  intros Hg H. unfold justified, triggerenterJustified in *.
  pose proof (@freshlyStored_grows s s') as Hf.
  intuition auto.
Qed.

Lemma freshlyStored_now (s : Provider) (p q : EntityRef) :
  grows before s ->
  fst (_storeCollision sc p q s) = true ->
  freshlyStored sc before (snd (_storeCollision sc p q s)) p q.
Proof.
  intros Hg Htrue. destruct (storeCollision_step sc p q s) as [_ Hs].
  destruct (Hs Htrue) as [Hn Hin]. split; [|assumption].
  intros Hb. apply Hn. now apply Hg.
Qed.

Lemma collisionSide_between (entity other : EntityRef) (otherFlags : Z)
    (nc : bool) (s : Provider) (log : list Fired) :
  (entity = e0 /\ other = e1 /\ otherFlags = flags1) \/
  (entity = e1 /\ other = e0 /\ otherFlags = flags0) ->
  betweenBlocks nc s log ->
  let r := collisionSide BODYFLAG_NORESPONSE_OBJECT sc entity other otherFlags nc s in
  betweenBlocks (fst (fst r)) (snd (fst r)) (log ++ snd r).
Proof.
  intros Hside (Hg & Hnc & Hlog). unfold collisionSide.
  destruct (triggerListeners (collision (entities sc entity))) eqn:Hl.
  2:{ cbn. rewrite app_nil_r. now repeat split. }
  unfold bind, storeCollision.
  destruct (storeCollision_step sc entity other s) as [Hg' _].
  pose proof (@freshlyStored_now s entity other Hg) as Hfresh.
  destruct (_storeCollision sc entity other s) as [n s'] eqn:Es. cbn [fst snd] in *.
  assert (Hnew : n = true ->
                 freshlyStored sc before s' e0 e1 \/ freshlyStored sc before s' e1 e0).
  { intros Hn. specialize (Hfresh Hn).
    destruct Hside as [(-> & -> & _)|(-> & -> & _)]; auto. }
  assert (Hold : Forall (justified s') log).
  { eapply Forall_impl; [|exact Hlog]. intros ev. now apply justified_grows. }
  destruct (n && negb (noResponse BODYFLAG_NORESPONSE_OBJECT otherFlags)) eqn:Ew;
    cbn [when fire ret fst snd app].
  - apply andb_prop in Ew. destruct Ew as [-> Hflag]. apply negb_true_iff in Hflag.
    repeat split; [eapply grows_trans; eauto|auto|].
    apply Forall_app. split; [assumption|]. constructor; [|constructor].
    unfold justified, triggerenterJustified.
    destruct Hside as [(-> & -> & ->)|(-> & -> & ->)]; [left|right; left]; auto.
  - rewrite app_nil_r. repeat split; [eapply grows_trans; eauto|auto|assumption].
Qed.

Lemma rigidbodySide_between (entity other : EntityRef) (nc : bool) (s : Provider)
    (log : list Fired) :
  (entity = e0 /\ other = e1) \/ (entity = e1 /\ other = e0) ->
  betweenBlocks nc s log ->
  let r := rigidbodySide sc entity other nc s in
  betweenBlocks (fst (fst r)) (snd (fst r)) (log ++ snd r).
Proof.
  intros Hside (Hg & Hnc & Hlog). unfold rigidbodySide.
  destruct (triggerListeners (rigidbody (entities sc entity))) eqn:Hl.
  2:{ cbn. rewrite app_nil_r. now repeat split. }
  assert (Hstep : exists n s',
             (if negb nc then storeCollision sc other entity else ret nc) s = (n, s', []) /\
             grows s s' /\
             (n = true ->
              freshlyStored sc before s' e0 e1 \/ freshlyStored sc before s' e1 e0)).
  { destruct nc; cbn [negb].
    - exists true, s. repeat split; [apply grows_refl|auto].
    - unfold storeCollision.
      destruct (storeCollision_step sc other entity s) as [Hg' _].
      pose proof (@freshlyStored_now s other entity Hg) as Hfresh.
      destruct (_storeCollision sc other entity s) as [n s'] eqn:Es. cbn [fst snd] in *.
      exists n, s'. repeat split; [assumption|].
      intros Hn. specialize (Hfresh Hn).
      destruct Hside as [(-> & ->)|(-> & ->)]; auto. }
  destruct Hstep as (n & s' & Hrun & Hg' & Hnew).
  unfold bind. rewrite Hrun.
  assert (Hold : Forall (justified s') log).
  { eapply Forall_impl; [|exact Hlog]. intros ev. now apply justified_grows. }
  destruct n; cbn [when fire ret fst snd app].
  - repeat split; [eapply grows_trans; eauto|auto|].
    apply Forall_app. split; [assumption|]. constructor; [|constructor].
    unfold justified, triggerenterJustified.
    destruct Hside as [(-> & ->)|(-> & ->)]; [right; right; left|right; right; right]; auto.
  - rewrite app_nil_r. repeat split; [eapply grows_trans; eauto|auto|assumption].
Qed.

Lemma triggerPath_between :
  let r := triggerPath BODYFLAG_NORESPONSE_OBJECT sc e0 e1 flags0 flags1 before in
  Forall (justified (snd (fst r))) (snd r).
Proof.
  assert (H0 : betweenBlocks false before []).
  { repeat split; [apply grows_refl|discriminate|constructor]. }
  unfold triggerPath, bind.
  pose proof (@collisionSide_between e0 e1 flags1 false before [] ltac:(auto) H0) as H1.
  destruct (collisionSide _ sc e0 e1 flags1 false before) as [[n1 s1] l1]. cbn [fst snd app] in H1.
  pose proof (@collisionSide_between e1 e0 flags0 n1 s1 l1 ltac:(auto) H1) as H2.
  destruct (collisionSide _ sc e1 e0 flags0 n1 s1) as [[n2 s2] l2]. cbn [fst snd] in H2.
  pose proof (@rigidbodySide_between e0 e1 n2 s2 (l1 ++ l2) ltac:(auto) H2) as H3.
  destruct (rigidbodySide sc e0 e1 n2 s2) as [[n3 s3] l3]. cbn [fst snd] in H3.
  pose proof (@rigidbodySide_between e1 e0 n3 s3 ((l1 ++ l2) ++ l3) ltac:(auto) H3) as H4.
  destruct (rigidbodySide sc e1 e0 n3 s3) as [[n4 s4] l4]. cbn [fst snd ret] in *.
  destruct H4 as (_ & _ & H4). rewrite app_nil_r, <- !app_assoc in *. exact H4.
Qed.

End TriggerEnter.

(** C4, as the code has it.  On the trigger path of a manifold between
    [e0] and [e1], every event fired is a [triggerenter] on one of the two
    entities about the other.  On a collision component it is fired only
    when that entity has trigger listeners there, its own [_storeCollision]
    call of this manifold stored the pair anew, and the opposite body is not
    flagged no-response.  On a rigidbody component it is fired only when the
    entity has trigger listeners there and the shared variable is true, so
    that the pair was stored anew by this manifold in one of the two orders;
    the flag of the opposite body is not looked at. *)
Theorem triggerPath_triggerenter_only_when (BODYFLAG_NORESPONSE_OBJECT : Z) (sc : Scene)
    (e0 e1 : EntityRef) (flags0 flags1 : Z) (this : Provider) :
  let r := triggerPath BODYFLAG_NORESPONSE_OBJECT sc e0 e1 flags0 flags1 this in
  forall ev, In ev (snd r) ->
    triggerenterJustified BODYFLAG_NORESPONSE_OBJECT sc e0 e1 flags0 flags1
                          this (snd (fst r)) ev.
Proof.
  intros r ev Hin.
  pose proof (triggerPath_between BODYFLAG_NORESPONSE_OBJECT sc e0 e1 flags0 flags1 this) as H.
  cbv zeta in H. rewrite Forall_forall in H. now apply H.
Qed.

(* ------------------------------------------------------------------ *)
(** ** [afterStep] and [init] *)

Lemma init_warns_without_tick_callback (ammo : Ammo) :
  setInternalTickCallback ammo = false ->
  exists message, init ammo = [DebugWarn message].
Proof. intros H. unfold init. rewrite H. eauto. Qed.

Lemma afterStep_with_tick_callback (BODYFLAG_NORESPONSE_OBJECT : Z) (sc : Scene)
    (globals : list string) (ammo : Ammo) (this : Provider) :
  setInternalTickCallback ammo = true ->
  afterStep BODYFLAG_NORESPONSE_OBJECT sc globals ammo this = Normal (this, []).
Proof. intros H. unfold afterStep. now rewrite H. Qed.

(** Without the tick callback, [afterStep] evaluates the arguments of its
    call to [_checkForCollisions]; [dt] is bound nowhere unless the global
    object happens to have it, so the call is never made. *)
Lemma afterStep_without_tick_callback (BODYFLAG_NORESPONSE_OBJECT : Z) (sc : Scene)
    (globals : list string) (ammo : Ammo) (this : Provider) :
  setInternalTickCallback ammo = false ->
  ~ In "dt"%string globals ->
  afterStep BODYFLAG_NORESPONSE_OBJECT sc globals ammo this = Throw (ReferenceError "dt").
Proof.
  intros H Hdt. unfold afterStep. rewrite H. cbn [negb].
  assert (Hres : resolves [] globals "dt" = false).
  { unfold resolves. cbn [app]. rewrite existsb_app.
    replace (existsb (String.eqb "dt") moduleBindings) with false by reflexivity.
    cbn [orb]. destruct (existsb (String.eqb "dt") globals) eqn:Hex; [|reflexivity].
    apply existsb_exists in Hex. destruct Hex as [v [Hin Heq]].
    apply String.eqb_eq in Heq. subst v. contradiction. }
  now rewrite Hres.
Qed.

(** C6, on the code.  With a backend that lacks [setInternalTickCallback]
    the warning is given at [init], but [afterStep] ends with a
    ReferenceError on [dt] and runs no detection pass. *)
Theorem afterStep_fallback_throws :
  init Example.olderAmmo =
    [DebugWarn "WARNING: This version of ammo.js can potentially fail to report contacts. Please update it to the latest version."]
  /\
  afterStep Example.NORESPONSE Example.scene ["Ammo"; "window"; "document"]%string
            Example.olderAmmo constructor
  = Throw (ReferenceError "dt").
Proof. split; reflexivity. Qed.

(* ------------------------------------------------------------------ *)
(** ** Ray queries *)

Section RaycastFacts.

Variable TagQuery : Type.
Variable tagsHas : EntityRef -> TagQuery -> bool.

Lemma filteredOut_passesFilters (options : Options TagQuery) (e : EntityRef) :
  filteredOut tagsHas options e = negb (passesFilters tagsHas options e).
Proof.
  unfold filteredOut, passesFilters.
  destruct (filterTags options) as [q|]; destruct (filterCallback options) as [f|];
    cbn; try destruct (tagsHas e q); try destruct (f e); reflexivity.
Qed.

(** The loop over the hits appends the qualifying ones, in order. *)
Lemma hitLoop_qualifying (options : Options TagQuery) (hits : list RayHit) :
  forall results,
    hitLoop tagsHas options hits results = results ++ qualifyingHits tagsHas options hits.
Proof.
  induction hits as [|hit hits IH]; intros results; cbn [hitLoop qualifyingHits flat_map].
  - now rewrite app_nil_r.
  - fold (qualifyingHits tagsHas options hits). unfold resolvedEntity.
    destruct (m_collisionObject hit) as [body|]; [|apply IH].
    destruct (bodyEntity body) as [e|] eqn:Eb; [|apply IH].
    rewrite filteredOut_passesFilters.
    destruct (passesFilters tagsHas options e); cbn [negb app]; [|apply IH].
    rewrite IH, <- app_assoc. unfold newRaycastResult. now rewrite Eb.
Qed.

Lemma qualifyingHits_resolved (options : Options TagQuery) (hits : list RayHit)
    (r : RaycastResult) :
  In r (qualifyingHits tagsHas options hits) ->
  exists e, hitEntity r = Some e /\ passesFilters tagsHas options e = true.
Proof.
  unfold qualifyingHits. intros Hin. apply in_flat_map in Hin.
  destruct Hin as [hit [_ Hin]].
  destruct (resolvedEntity hit) as [e|]; [|contradiction].
  destruct (passesFilters tagsHas options e) eqn:Ep; [|contradiction].
  destruct Hin as [<-|[]]. exists e. split; [reflexivity|assumption].
Qed.

End RaycastFacts.

Lemma sortInsert_perm {A : Type} (comparefn : A -> A -> Q) (v : A) (l : list A) :
  Permutation (sortInsert comparefn v l) (v :: l).
Proof.
  induction l as [|w l IH]; cbn [sortInsert]; [reflexivity|].
  destruct (Qle_bool (comparefn v w) 0); [reflexivity|].
  rewrite IH. apply perm_swap.
Qed.

Lemma arraySort_perm {A : Type} (comparefn : A -> A -> Q) (l : list A) :
  Permutation (arraySort comparefn l) l.
Proof.
  induction l as [|v l IH]; cbn [arraySort]; [reflexivity|].
  rewrite sortInsert_perm. now constructor.
Qed.

Lemma compareFn_le (v w : RaycastResult) :
  Qle_bool (compareFn v w) 0 = true <-> byHitFraction v w.
Proof.
  unfold compareFn, byHitFraction. rewrite Qle_bool_iff. split; intros H; lra.
Qed.

Lemma compareFn_gt (v w : RaycastResult) :
  Qle_bool (compareFn v w) 0 = false -> byHitFraction w v.
Proof.
  intros H. unfold byHitFraction.
  destruct (Qlt_le_dec (hitFraction v) (hitFraction w)) as [Hlt|Hle]; [|assumption].
  assert (Ht : Qle_bool (compareFn v w) 0 = true).
  { apply compareFn_le. unfold byHitFraction. lra. }
  congruence.
Qed.

Lemma byHitFraction_trans (u v w : RaycastResult) :
  byHitFraction u v -> byHitFraction v w -> byHitFraction u w.
Proof. unfold byHitFraction. intros. lra. Qed.

Lemma sortInsert_sorted (v : RaycastResult) (l : list RaycastResult) :
  StronglySorted byHitFraction l ->
  StronglySorted byHitFraction (sortInsert compareFn v l).
Proof.
  induction 1 as [|w l Hs IH Hall]; cbn [sortInsert].
  - repeat constructor.
  - destruct (Qle_bool (compareFn v w) 0) eqn:E.
    + apply compareFn_le in E. constructor; [now constructor|].
      constructor; [assumption|].
      eapply Forall_impl; [|exact Hall]. intros u Hu. eapply byHitFraction_trans; eauto.
    + apply compareFn_gt in E. constructor; [assumption|].
      rewrite Forall_forall in *. intros u Hu.
      apply (Permutation_in _ (sortInsert_perm compareFn v l)) in Hu.
      destruct Hu as [<-|Hu]; auto.
Qed.

Lemma arraySort_sorted (l : list RaycastResult) :
  StronglySorted byHitFraction (arraySort compareFn l).
Proof.
  induction l as [|v l IH]; cbn [arraySort]; [constructor|].
  now apply sortInsert_sorted.
Qed.

(** C9.  When the backend has the all-hits callback, [raycastAll] returns
    normally, and what it returns is an array: one RaycastResult for each
    reported hit whose body resolves to an entity that passes the tag and
    callback filters, and nothing else.  Without [sort] the results are in
    the order of the hits; with [sort] they are in non-decreasing order of
    [hitFraction]. *)
Theorem raycastAll_results (TagQuery : Type) (tagsHas : EntityRef -> TagQuery -> bool)
    (ammo : Ammo) (start end_ : Vec3) (options : Options TagQuery)
    (rayTest : Vec3 -> Vec3 -> option Z -> option Z -> list RayHit) :
  AllHitsRayResultCallback ammo = Some rayTest ->
  let hits := rayTest start end_ (filterCollisionGroup options) (filterCollisionMask options) in
  exists results,
    raycastAll tagsHas ammo start end_ options = Normal results /\
    Permutation results (qualifyingHits tagsHas options hits) /\
    (forall r, In r results ->
               exists e, hitEntity r = Some e /\ passesFilters tagsHas options e = true) /\
    (sort options = false -> results = qualifyingHits tagsHas options hits) /\
    (sort options = true -> StronglySorted byHitFraction results).
Proof.
  intros Hcap hits. unfold raycastAll. rewrite Hcap. fold hits.
  eexists. split; [reflexivity|].
  destruct hits as [|hit hits'] eqn:Eh; cbn [hasHit].
  - repeat split; auto using StronglySorted. intros r [].
  - rewrite hitLoop_qualifying. cbn [app].
    destruct (sort options) eqn:Es.
    + repeat split; [apply arraySort_perm| |discriminate|intros _; apply arraySort_sorted].
      intros r Hr. apply (Permutation_in _ (arraySort_perm compareFn _)) in Hr.
      eapply qualifyingHits_resolved; eauto.
    + repeat split; [reflexivity| |discriminate].
      intros r Hr. eapply qualifyingHits_resolved; eauto.
Qed.

Lemma raycastAll_sorted_unfold (TagQuery : Type) (tagsHas : EntityRef -> TagQuery -> bool)
    (ammo : Ammo) (start end_ : Vec3) (options : Options TagQuery)
    (rayTest : Vec3 -> Vec3 -> option Z -> option Z -> list RayHit) :
  AllHitsRayResultCallback ammo = Some rayTest ->
  raycastAll tagsHas ammo start end_ (setSort options true) =
  Normal (arraySort compareFn
            (qualifyingHits tagsHas options
               (rayTest start end_ (filterCollisionGroup options)
                        (filterCollisionMask options)))).
Proof.
  intros Hcap. unfold raycastAll. rewrite Hcap. cbn [setSort sort filterCollisionGroup
    filterCollisionMask].
  destruct (rayTest start end_ _ _) as [|hit hits]; cbn [hasHit]; [reflexivity|].
  rewrite hitLoop_qualifying. reflexivity.
Qed.

(** C8.  With [filterTags] or [filterCallback] present, [raycastFirst]
    returns what [raycastAll] returns for the same arguments with [sort] set,
    reduced to its first element, or null when the array is empty; the
    closest-hit query of the backend plays no part in it.  When the backend
    has the all-hits callback, that is the first of the qualifying hits in
    order of [hitFraction]. *)
Theorem raycastFirst_filtered (TagQuery : Type) (tagsHas : EntityRef -> TagQuery -> bool)
    (ammo : Ammo) (start end_ : Vec3) (options : Options TagQuery) :
  hasFilter options = true ->
  raycastFirst tagsHas ammo start end_ options =
    (match raycastAll tagsHas ammo start end_ (setSort options true) with
     | Normal results => Normal (hd_error results)
     | Throw e => Throw e
     end, setSort options true) /\
  (forall closest,
      raycastFirst tagsHas (withClosest ammo closest) start end_ options =
      raycastFirst tagsHas ammo start end_ options) /\
  (forall rayTest,
      AllHitsRayResultCallback ammo = Some rayTest ->
      fst (raycastFirst tagsHas ammo start end_ options) =
      Normal (hd_error
                (arraySort compareFn
                   (qualifyingHits tagsHas options
                      (rayTest start end_ (filterCollisionGroup options)
                               (filterCollisionMask options)))))).
Proof.
  unfold hasFilter. intros Hf.
  assert (Heq : forall ammo',
             raycastFirst tagsHas ammo' start end_ options =
             (match raycastAll tagsHas ammo' start end_ (setSort options true) with
              | Normal results => Normal (hd_error results)
              | Throw e => Throw e
              end, setSort options true)).
  { intros ammo'. unfold raycastFirst. now rewrite Hf. }
  split; [apply Heq|]. split.
  - intros closest. rewrite !Heq. reflexivity.
  - intros rayTest Hcap. rewrite Heq. cbn [fst].
    now rewrite (raycastAll_sorted_unfold tagsHas ammo start end_ options Hcap).
Qed.

(** C10.  With [filterTags] or [filterCallback] present, the options
    object that the caller passed to [raycastFirst] has [sort] set to true
    after the call, and is otherwise as it was: an object passed with
    [sort] false comes back changed. *)
Theorem raycastFirst_sets_sort (TagQuery : Type) (tagsHas : EntityRef -> TagQuery -> bool)
    (ammo : Ammo) (start end_ : Vec3) (options : Options TagQuery) :
  hasFilter options = true ->
  let after := snd (raycastFirst tagsHas ammo start end_ options) in
  sort after = true /\
  after = setSort options true /\
  (sort options = false -> after <> options).
Proof.
  intros Hf after. subst after. unfold hasFilter in Hf. unfold raycastFirst. rewrite Hf.
  cbn [snd]. split; [reflexivity|]. split; [reflexivity|].
  intros Hs Heq. rewrite <- Heq in Hs. discriminate.
Qed.

(** C7, on the code.  A closest hit on a body that carries no entity is
    not treated as a miss: [raycastFirst] returns a RaycastResult whose
    entity is undefined.  [raycastAll], for the same ray, leaves that body
    out. *)
Theorem raycastFirst_returns_unresolved_hit :
  fst (raycastFirst Example.tagsHas Example.olderAmmo Example.above Example.below Example.plain)
  = Normal (Some {| hitEntity := None;
                    hitPoint := Example.origin;
                    hitNormal := Example.up;
                    hitFraction := (1 # 10)%Q |})
  /\
  raycastAll Example.tagsHas Example.olderAmmo Example.above Example.below Example.plain
  = Normal [ {| hitEntity := Some Example.floor;
                hitPoint := Example.origin;
                hitNormal := Example.up;
                hitFraction := (3 # 5)%Q |};
             {| hitEntity := Some Example.crate;
                hitPoint := Example.origin;
                hitNormal := Example.up;
                hitFraction := (2 # 5)%Q |} ].
Proof. split; reflexivity. Qed.

(** C3, as stated, fails.  The crate rests on the floor and the pair is
    listed by a first pass; then the floor's body is flagged no-response
    while the crate still rests on it, with a contact point.  The floor
    entity has no [trigger] set and nothing listens for trigger events on the
    crate's collision component or on the floor, so the second pass puts
    nothing under the crate into the transient map, and its closing
    [_cleanOldCollisions] fires [collisionend] on both components of the
    crate: about a pair with a flagged body that still overlaps. *)
Lemma collisionend_on_flagged_overlapping_pair :
  bodyEntity (getBody0 Example3.crateOnFlaggedFloor) = Some Example.crate /\
  bodyEntity (getBody1 Example3.crateOnFlaggedFloor) = Some Example.floor /\
  noResponse Example.NORESPONSE
             (getCollisionFlags (getBody1 Example3.crateOnFlaggedFloor)) = true /\
  getNumContacts Example3.crateOnFlaggedFloor = 1 /\
  Reachable Example.NORESPONSE Example3.rested /\
  In Example.floor (persistentOthers Example.scene Example.crate Example3.rested) /\
  snd (_checkForCollisions Example.NORESPONSE Example.scene
         [Example3.crateOnFlaggedFloor] Example3.rested) =
  [FireComponent Example.crate Rigidbody collisionend (PEntity Example.floor);
   FireComponent Example.crate Collision collisionend (PEntity Example.floor)].
Proof.
  repeat split.
  - apply ReachCheck. apply ReachConstructor.
  - vm_compute. left. reflexivity.
Qed.

(** C4, as stated, fails: the crate enters the trigger volume; the
    volume's body is flagged no-response, and [triggerenter] is fired on the
    crate's rigidbody component all the same. *)
Lemma triggerenter_on_rigidbody_despite_flag :
  In (FireComponent Example.crate Rigidbody triggerenter (PEntity Example.volume))
     (snd (triggerPath Example.NORESPONSE Example.scene
                       Example.crate Example.volume 0%Z 4%Z constructor)) /\
  noResponse Example.NORESPONSE 4%Z = true /\
  bodyEntity Example.volumeBody = Some Example.volume /\
  getCollisionFlags Example.volumeBody = 4%Z.
Proof.
  split; [|repeat split]. vm_compute. right. left. reflexivity.
Qed.

(* ------------------------------------------------------------------ *)
(** ** The theorems at work on the example scene *)

(** The crate has left the volume: it is taken off the volume's record, and
    [triggerleave] is fired on the volume's collision component and on the
    crate's rigidbody component. *)
Lemma cleanOldCollisions_ended_pair_witness :
  ~ In Example.crate
       (othersOf (collisions (fst (_cleanOldCollisions Example.scene Example.leaving)))
                 "9f1c-volume"%string) /\
  snd (_cleanOldCollisions Example.scene Example.leaving) =
  [FireComponent Example.volume Collision triggerleave (PEntity Example.crate);
   FireComponent Example.crate Rigidbody triggerleave (PEntity Example.volume)] /\
  In (FireComponent Example.crate Rigidbody triggerleave (PEntity Example.volume))
     (snd (_cleanOldCollisions Example.scene Example.leaving)).
Proof.
  refine (let H := @cleanOldCollisions_ended_pair Example.scene Example.leaving
                     "9f1c-volume"%string
                     {| others := [Example.crate]; entity := Example.volume |}
                     Example.crate
                     ltac:(unfold uniqueKeys; simpl; constructor; [intros []|constructor])
                     eq_refl
                     ltac:(simpl; constructor; [intros []|constructor])
                     ltac:(simpl; left; reflexivity)
                     ltac:(intros []) in
          conj (proj1 H)
               (conj (proj1 (proj2 H))
                     (proj2 (proj1 (proj2 (proj2 (proj2 H))) eq_refl)
                            ltac:(discriminate)))).
Defined.

(** The first overlap of the crate with the volume is new. *)
Lemma storeCollision_new_once_witness :
  fst (_storeCollision Example.scene Example.volume Example.crate constructor) = true.
Proof.
  refine (proj1 (@storeCollision_new_once Example.scene Example.volume Example.crate
                   constructor _)).
  simpl. intros [].
Defined.

(** The volume's [triggerenter] in a step with the crate in the volume and
    on the floor; and the [collisionend] fired on the crate once the floor's
    body is flagged: neither entity has [trigger] set. *)
Lemma trigger_pairs_fire_trigger_events_only_witness :
  eventName (FireComponent Example.volume Collision triggerenter (PEntity Example.crate))
    <> collisionstart /\
  trigger (entities Example.scene Example.crate) = false /\
  trigger (entities Example.scene Example.floor) = false.
Proof.
  split.
  - refine (proj1 (proj2 (proj1 (proj2 (proj2 (proj2 (proj2
              (@trigger_pairs_fire_trigger_events_only Example.NORESPONSE
                 Example.scene [Example.crateInVolume; Example.crateOnFloor] constructor))))
              _)
              Example.crateInVolume Example.crate Example.volume
              (FireComponent Example.volume Collision triggerenter
                             (PEntity Example.crate)) _ _ _ _ _ _))).
    + unfold manifoldsAgree.
      repeat (apply Forall_cons || apply Forall_nil); split; intros e [= <-]; reflexivity.
    + left. reflexivity.
    + reflexivity.
    + reflexivity.
    + reflexivity.
    + vm_compute. left. reflexivity.
    + right. reflexivity.
  - refine (proj1 (proj2 (proj2
              (@trigger_pairs_fire_trigger_events_only Example.NORESPONSE
                 Example.scene [Example3.crateOnFlaggedFloor] Example3.rested)))
              (FireComponent Example.crate Rigidbody collisionend (PEntity Example.floor))
              _ _).
    + vm_compute. left. reflexivity.
    + reflexivity.
Defined.

(** The provider after one detection pass from its construction. *)
Lemma bookkeeping_invariants_witness :
  noDuplicateOthers
    (collisions (fst (_checkForCollisions Example.NORESPONSE Example.scene
                        [Example.crateInVolume; Example.crateOnFloor] constructor))).
Proof.
  refine (proj1 (@bookkeeping_invariants Example.NORESPONSE _ _)).
  apply ReachCheck. apply ReachConstructor.
Defined.

Lemma raycastAll_results_witness :
  exists results,
    raycastAll Example.tagsHas Example.olderAmmo Example.above Example.below
               (setSort Example.onlyBodies true) = Normal results /\
    StronglySorted byHitFraction results.
Proof.
  destruct (@raycastAll_results string Example.tagsHas Example.olderAmmo
              Example.above Example.below (setSort Example.onlyBodies true)
              (fun _ _ _ _ => [Example.hitOn Example.floorBody (3 # 5)%Q;
                               Example.hitOn Example.foreignBody (1 # 10)%Q;
                               Example.hitOn Example.crateBody (2 # 5)%Q])
              eq_refl)
    as [results [Hret [_ [_ [_ Hsorted]]]]].
  exists results. split; [exact Hret|]. apply Hsorted. reflexivity.
Defined.

Lemma raycastFirst_filtered_witness :
  fst (raycastFirst Example.tagsHas Example.olderAmmo Example.above Example.below
                    Example.onlyBodies)
  = Normal (hd_error
              (arraySort compareFn
                 (qualifyingHits Example.tagsHas Example.onlyBodies
                    [Example.hitOn Example.floorBody (3 # 5)%Q;
                     Example.hitOn Example.foreignBody (1 # 10)%Q;
                     Example.hitOn Example.crateBody (2 # 5)%Q]))).
Proof.
  refine (proj2 (proj2 (@raycastFirst_filtered string Example.tagsHas Example.olderAmmo
                          Example.above Example.below Example.onlyBodies _)) _ eq_refl).
  reflexivity.
Defined.

Lemma raycastFirst_sets_sort_witness :
  sort (snd (raycastFirst Example.tagsHas Example.olderAmmo Example.above Example.below
                          Example.onlyBodies)) = true.
Proof.
  refine (proj1 (@raycastFirst_sets_sort string Example.tagsHas Example.olderAmmo
                   Example.above Example.below Example.onlyBodies _)).
  reflexivity.
Defined.

(** The crate's [triggerenter] was justified by a fresh pair, stored under
    the volume. *)
Lemma triggerPath_triggerenter_only_when_witness :
  triggerenterJustified Example.NORESPONSE Example.scene Example.crate Example.volume
    0%Z 4%Z constructor
    (snd (fst (triggerPath Example.NORESPONSE Example.scene
                           Example.crate Example.volume 0%Z 4%Z constructor)))
    (FireComponent Example.crate Rigidbody triggerenter (PEntity Example.volume)).
Proof.
  refine (@triggerPath_triggerenter_only_when Example.NORESPONSE Example.scene
            Example.crate Example.volume 0%Z 4%Z constructor
            (FireComponent Example.crate Rigidbody triggerenter (PEntity Example.volume)) _).
  vm_compute. right. left. reflexivity.
Defined.

(* ------------------------------------------------------------------ *)
(** ** More on [_cleanOldCollisions] *)






Lemma filter_filter_same {A : Type} (p : A -> bool) (l : list A) :
  filter p (filter p l) = filter p l.
Proof.
  induction l as [|v l IH]; [reflexivity|]. cbn [filter].
  destruct (p v) eqn:E; [|assumption]. cbn [filter]. now rewrite E, IH.
Qed.

Lemma filter_negb_filter {A : Type} (p : A -> bool) (l : list A) :
  filter p (filter (fun v => negb (p v)) l) = [].
Proof.
  induction l as [|v l IH]; [reflexivity|]. cbn [filter].
  destruct (p v) eqn:E; cbn [negb]; [assumption|]. cbn [filter]. now rewrite E.
Qed.

Lemma cleanedMap_again (frame m : CollisionMap) :
  cleanedMap frame (cleanedMap frame m) = cleanedMap frame m /\
  endedPairs frame (cleanedMap frame m) = [].
Proof.
  induction m as [|[g c] m [IHc IHe]]; [split; reflexivity|].
  rewrite cleanedMap_cons.
  destruct (keptOthers frame g c) as [|o os] eqn:Ek; cbn [app]; [now split|].
  rewrite cleanedMap_cons, endedPairs_cons, IHc, IHe.
  unfold keptOthers, endedOthers in *. cbn [others entity].
  rewrite <- Ek, filter_filter_same, filter_negb_filter, Ek. now split.
Qed.

(** A second pass over the same transient map changes nothing and fires
    nothing. *)
Theorem cleanOldCollisions_twice (sc : Scene) (this : Provider) :
  uniqueKeys (collisions this) ->
  _cleanOldCollisions sc (fst (_cleanOldCollisions sc this)) =
  (fst (_cleanOldCollisions sc this), []).
Proof.
  intros Hk. rewrite (cleanOldCollisions_unfold sc this Hk). cbn [fst].
  rewrite cleanOldCollisions_unfold by (now apply uniqueKeys_cleanedMap).
  cbn [collisions frameCollisions].
  destruct (cleanedMap_again (frameCollisions this) (collisions this)) as [-> ->].
  reflexivity.
Qed.

(* ------------------------------------------------------------------ *)
(** ** Manifolds the detection pass skips *)

Lemma bind_ret_tt {A : Type} (m : M A) (s : Provider) :
  (ret tt ;;; m) s = m s.
Proof. unfold bind, ret. now destruct (m s) as [[v s'] log]. Qed.

Lemma processManifold_skipped (BODYFLAG_NORESPONSE_OBJECT : Z) (sc : Scene)
    (m : btPersistentManifold) (s : Provider) :
  live m = false ->
  processManifold BODYFLAG_NORESPONSE_OBJECT sc m s = (tt, s, []).
Proof.
  unfold live, processManifold.
  destruct (bodyEntity (getBody0 m)); [|reflexivity].
  destruct (bodyEntity (getBody1 m)); [|reflexivity].
  cbn [isSome andb]. now intros ->.
Qed.

Lemma forEachManifold_live (BODYFLAG_NORESPONSE_OBJECT : Z) (sc : Scene)
    (manifolds : list btPersistentManifold) (s : Provider) :
  forEachManifold BODYFLAG_NORESPONSE_OBJECT sc manifolds s =
  forEachManifold BODYFLAG_NORESPONSE_OBJECT sc (filter live manifolds) s.
Proof.
  revert s. induction manifolds as [|m manifolds IH]; intros s; [reflexivity|].
  cbn [forEachManifold filter]. destruct (live m) eqn:El.
  - cbn [forEachManifold]. unfold bind.
    destruct (processManifold _ sc m s) as [[u s1] l1]. now rewrite IH.
  - unfold bind. rewrite processManifold_skipped by assumption.
    rewrite IH. now destruct (forEachManifold _ sc (filter live manifolds) s) as [[u s2] l2].
Qed.

(** Manifolds with a body that carries no entity, and manifolds without a
    contact point, play no part in a detection pass: neither in what it
    stores nor in what it fires.  A pair whose manifold has lost its last
    contact point is therefore treated as a pair without manifold. *)
Theorem checkForCollisions_skips (BODYFLAG_NORESPONSE_OBJECT : Z) (sc : Scene)
    (manifolds : list btPersistentManifold) (this : Provider) :
  _checkForCollisions BODYFLAG_NORESPONSE_OBJECT sc manifolds this =
  _checkForCollisions BODYFLAG_NORESPONSE_OBJECT sc (filter live manifolds) this.
Proof.
  rewrite !checkForCollisions_unfold. now rewrite forEachManifold_live.
Qed.

(* ------------------------------------------------------------------ *)
(** ** Reasoning along a detection pass *)

Lemma storeCollision_members (sc : Scene) (e o : EntityRef) (s : Provider)
    (g : Guid) (v : EntityRef) :
  (In v (othersOf (collisions (snd (_storeCollision sc e o s))) g) <->
   In v (othersOf (collisions s) g) \/ (g = getGuid (entities sc e) /\ v = o)) /\
  (In v (othersOf (frameCollisions (snd (_storeCollision sc e o s))) g) <->
   In v (othersOf (frameCollisions s) g) \/ (g = getGuid (entities sc e) /\ v = o)).
Proof.
  rewrite storeCollision_unfold. cbn [snd collisions frameCollisions].
  destruct (String.eqb (getGuid (entities sc e)) g) eqn:E.
  - apply String.eqb_eq in E. subst g. split.
    + destruct (indexOf _ o <? 0)%Z eqn:Ei; rewrite othersOf_assign_eq; cbn [push others];
        rewrite othersOf_orFresh.
      * rewrite in_app_iff. cbn [In]. intuition.
      * apply indexOf_nonneg_iff in Ei. rewrite othersOf_orFresh in Ei.
        split; [auto|]. intros [H|[_ ->]]; assumption.
    + rewrite othersOf_assign_eq. cbn [push others]. rewrite othersOf_orFresh.
      rewrite in_app_iff. cbn [In]. intuition.
  - apply String.eqb_neq in E. split.
    + destruct (indexOf _ o <? 0)%Z; rewrite othersOf_assign_neq by assumption;
        (split; [auto|intros [H|[H _]]; [assumption|congruence]]).
    + rewrite othersOf_assign_neq by assumption.
      split; [auto|intros [H|[H _]]; [assumption|congruence]].
Qed.

Lemma storeCollision_evolves (sc : Scene) (e o : EntityRef) (s : Provider) :
  evolves s (snd (_storeCollision sc e o s)).
Proof.
  split; intros g v H; apply (storeCollision_members sc e o s g v); now left.
Qed.

Lemma evolves_refl (s : Provider) : evolves s s.
Proof. split; intros g v H; exact H. Qed.

Lemma evolves_trans (s1 s2 s3 : Provider) : evolves s1 s2 -> evolves s2 s3 -> evolves s1 s3.
Proof. intros [H12 F12] [H23 F23]. split; intros g v H; auto. Qed.

Lemma duringPass_store (sc : Scene) (before s : Provider) (e o : EntityRef) :
  duringPass before s ->
  duringPass before (snd (_storeCollision sc e o s)) /\
  In o (frameOthers sc e (snd (_storeCollision sc e o s))) /\
  (fst (_storeCollision sc e o s) = true -> ~ In o (persistentOthers sc e before)).
Proof.
  intros (Hinv & Hg & Hfp & Hpf).
  pose proof (storeCollision_members sc e o s) as Hm.
  split; [|split].
  - split; [now apply storeCollision_invariant|]. split; [|split].
    + eapply grows_trans; [exact Hg|]. apply storeCollision_evolves.
    + intros g v H. apply (proj2 (Hm g v)) in H. apply (proj1 (Hm g v)).
      destruct H as [H|H]; auto.
    + intros g v H. apply (proj1 (Hm g v)) in H. destruct H as [H|H].
      * destruct (Hpf g v H) as [Hb|Hf]; [now left|right].
        apply (proj2 (Hm g v)). now left.
      * right. apply (proj2 (Hm g v)). now right.
  - unfold frameOthers. apply (proj2 (Hm _ o)). now right.
  - intros Htrue Hin. destruct (storeCollision_step sc e o s) as [_ Hs].
    destruct (Hs Htrue) as [Hn _]. apply Hn. now apply Hg.
Qed.

Lemma pairSeen_evolves (sc : Scene) (s s' : Provider) (p q : EntityRef) :
  evolves s s' -> pairSeen sc s p q -> pairSeen sc s' p q.
Proof. intros [_ Hf] [H|H]; [left|right]; now apply Hf. Qed.

Lemma pairSeen_sym (sc : Scene) (s : Provider) (p q : EntityRef) :
  pairSeen sc s p q -> pairSeen sc s q p.
Proof. intros [H|H]; [right|left]; exact H. Qed.

Lemma observed_evolves (sc : Scene) (before s s' : Provider) (ev : Fired) :
  evolves s s' -> observed sc before s ev -> observed sc before s' ev.
Proof.
  intros Hev. pose proof Hev as [_ Hf].
  destruct ev as [e k name [o|r]|name r]; destruct name; cbn; auto.
  - now apply pairSeen_evolves.
  - unfold frameOthers. auto.
  - unfold frameOthers. intros [Hn Hin]. auto.
Qed.

Section Triples.

Variable G : Provider -> Fired -> Prop.
Hypothesis G_evolves : forall s s' ev, evolves s s' -> G s ev -> G s' ev.

Lemma triple_ret {A : Type} (P : Provider -> Prop) (Q : A -> Provider -> Prop) (v : A) :
  (forall s, P s -> Q v s) -> triple G P (ret v) Q.
Proof.
  intros H s HP. cbn. split; [auto|]. split; [apply evolves_refl|constructor].
Qed.

Lemma triple_bind {A B : Type} (P : Provider -> Prop) (Q : A -> Provider -> Prop)
    (Q' : B -> Provider -> Prop) (m : M A) (k : A -> M B) :
  triple G P m Q -> (forall v, triple G (Q v) (k v) Q') -> triple G P (bind m k) Q'.
Proof.
  intros Hm Hk s HP. unfold bind.
  specialize (Hm s HP). destruct (m s) as [[v s1] l1]. cbn [fst snd] in Hm.
  destruct Hm as (HQ & He1 & Hl1).
  specialize (Hk v s1 HQ). destruct (k v s1) as [[w s2] l2]. cbn [fst snd] in *.
  destruct Hk as (HQ' & He2 & Hl2).
  split; [assumption|]. split; [eapply evolves_trans; eauto|].
  apply Forall_app. split; [|assumption].
  eapply Forall_impl; [|exact Hl1]. intros ev. now apply G_evolves.
Qed.

Lemma triple_fire (P : Provider -> Prop) (Q : unit -> Provider -> Prop)
    (owner : EntityRef) (kind : ComponentKind) (name : EventName) (arg : Payload) :
  (forall s, P s -> G s (FireComponent owner kind name arg) /\ Q tt s) ->
  triple G P (fire owner kind name arg) Q.
Proof.
  intros H s HP. cbn. destruct (H s HP) as [HG HQ].
  split; [assumption|]. split; [apply evolves_refl|]. now repeat constructor.
Qed.

Lemma triple_fireSystem (P : Provider -> Prop) (Q : unit -> Provider -> Prop)
    (name : EventName) (r : SingleContactResult) :
  (forall s, P s -> G s (FireSystem name r) /\ Q tt s) ->
  triple G P (fireSystem name r) Q.
Proof.
  intros H s HP. cbn. destruct (H s HP) as [HG HQ].
  split; [assumption|]. split; [apply evolves_refl|]. now repeat constructor.
Qed.

Lemma triple_when (P : Provider -> Prop) (Q : unit -> Provider -> Prop)
    (cond : bool) (m : M unit) :
  (cond = true -> triple G P m Q) ->
  (cond = false -> forall s, P s -> Q tt s) ->
  triple G P (when cond m) Q.
Proof.
  destruct cond; cbn [when]; intros Ht Hf; [auto|]. apply triple_ret. auto.
Qed.

Lemma triple_storeCollision (P : Provider -> Prop) (Q : bool -> Provider -> Prop)
    (sc : Scene) (e o : EntityRef) :
  (forall s, P s -> Q (fst (_storeCollision sc e o s)) (snd (_storeCollision sc e o s))) ->
  triple G P (storeCollision sc e o) Q.
Proof.
  intros H s HP. unfold storeCollision. specialize (H s HP).
  pose proof (storeCollision_evolves sc e o s) as He.
  destruct (_storeCollision sc e o s) as [isNew s']. cbn [fst snd] in *.
  split; [assumption|]. split; [assumption|constructor].
Qed.

Lemma triple_weaken {A : Type} (P P' : Provider -> Prop) (Q Q' : A -> Provider -> Prop)
    (m : M A) :
  (forall s, P' s -> P s) -> (forall v s, Q v s -> Q' v s) ->
  triple G P m Q -> triple G P' m Q'.
Proof.
  intros HP HQ Hm s Hs. destruct (Hm s (HP s Hs)) as (H1 & H2 & H3). auto.
Qed.

End Triples.

Section PassTriples.

Variable BODYFLAG_NORESPONSE_OBJECT : Z.
Variable sc : Scene.
Variable before : Provider.

Abbreviation seen := (observed sc before).
Abbreviation inPass := (duringPass before).

Lemma seen_evolves (s s' : Provider) (ev : Fired) :
  evolves s s' -> seen s ev -> seen s' ev.
Proof. apply observed_evolves. Qed.

(** Between the blocks of the trigger path: the shared variable is true
    only when the pair is in the transient map. *)
Lemma collisionSide_triple (entity other : EntityRef) (otherFlags : Z) (nc : bool) :
  triple seen
    (fun s => inPass s /\ (nc = true -> pairSeen sc s entity other))
    (collisionSide BODYFLAG_NORESPONSE_OBJECT sc entity other otherFlags nc)
    (fun nc' s => inPass s /\ (nc' = true -> pairSeen sc s entity other)).
Proof.
  unfold collisionSide.
  destruct (triggerListeners (collision (entities sc entity))).
  2:{ apply triple_ret. auto. }
  apply triple_bind with
    (Q := fun (_ : bool) s => inPass s /\ In other (frameOthers sc entity s));
    [exact seen_evolves| |].
  - apply triple_storeCollision. intros s [Hd _].
    destruct (@duringPass_store sc before s entity other Hd) as (H1 & H2 & _). auto.
  - intros n.
    apply triple_bind with
      (Q := fun (_ : unit) s => inPass s /\ In other (frameOthers sc entity s));
      [exact seen_evolves| |].
    + apply triple_when; [intros _|auto].
      apply triple_fire. intros s [Hd Hin]. split; [|auto]. cbn. now left.
    + intros _. apply triple_ret. intros s [Hd Hin]. split; [assumption|].
      intros _. now left.
Qed.

Lemma rigidbodySide_triple (entity other : EntityRef) (nc : bool) :
  triple seen
    (fun s => inPass s /\ (nc = true -> pairSeen sc s entity other))
    (rigidbodySide sc entity other nc)
    (fun nc' s => inPass s /\ (nc' = true -> pairSeen sc s entity other)).
Proof.
  unfold rigidbodySide.
  destruct (triggerListeners (rigidbody (entities sc entity))).
  2:{ apply triple_ret. auto. }
  apply triple_bind with
    (Q := fun (n : bool) s => inPass s /\ (n = true -> pairSeen sc s entity other));
    [exact seen_evolves| |].
  - destruct nc; cbn [negb].
    + apply triple_ret. auto.
    + apply triple_storeCollision. intros s [Hd _].
      destruct (@duringPass_store sc before s other entity Hd) as (H1 & H2 & _).
      split; [assumption|]. intros _. now right.
  - intros n.
    apply triple_bind with
      (Q := fun (_ : unit) s => inPass s /\ (n = true -> pairSeen sc s entity other));
      [exact seen_evolves| |].
    + apply triple_when; [intros ->|auto].
      apply triple_fire. intros s [Hd Hp]. split; [|auto]. cbn. auto.
    + intros _. apply triple_ret. auto.
Qed.

Lemma triggerPath_triple (e0 e1 : EntityRef) (flags0 flags1 : Z) :
  triple seen inPass (triggerPath BODYFLAG_NORESPONSE_OBJECT sc e0 e1 flags0 flags1)
         (fun _ => inPass).
Proof.
  unfold triggerPath.
  apply triple_bind with
    (Q := fun (n : bool) s => inPass s /\ (n = true -> pairSeen sc s e0 e1));
    [exact seen_evolves| |].
  { eapply triple_weaken; [| |apply collisionSide_triple].
    - intros s H. split; [exact H|discriminate].
    - auto. }
  intros n1.
  apply triple_bind with
    (Q := fun (n : bool) s => inPass s /\ (n = true -> pairSeen sc s e0 e1));
    [exact seen_evolves| |].
  { eapply triple_weaken; [| |apply collisionSide_triple].
    - intros s [H Hp]. split; [exact H|]. intros Hn. apply pairSeen_sym. auto.
    - cbn beta. intros v s [H Hp]. split; [exact H|]. intros Hn. apply pairSeen_sym. auto. }
  intros n2.
  apply triple_bind with
    (Q := fun (n : bool) s => inPass s /\ (n = true -> pairSeen sc s e0 e1));
    [exact seen_evolves|apply rigidbodySide_triple|].
  intros n3.
  apply triple_bind with
    (Q := fun (n : bool) s => inPass s /\ (n = true -> pairSeen sc s e0 e1));
    [exact seen_evolves| |].
  { eapply triple_weaken; [| |apply rigidbodySide_triple].
    - intros s [H Hp]. split; [exact H|]. intros Hn. apply pairSeen_sym. auto.
    - cbn beta. intros v s [H Hp]. split; [exact H|]. intros Hn. apply pairSeen_sym. auto. }
  intros n4. apply triple_ret. tauto.
Qed.

Lemma contactLoop_triple (e0 e1 : EntityRef) (e0Events e1Events globalEvents : bool)
    (points : list btManifoldPoint) :
  forall forwardContacts reverseContacts,
    triple seen inPass
      (contactLoop e0 e1 e0Events e1Events globalEvents points forwardContacts reverseContacts)
      (fun _ => inPass).
Proof.
  induction points as [|p points IH]; intros f r; cbn [contactLoop].
  - apply triple_ret. auto.
  - destruct (e0Events || e1Events);
      (apply triple_bind with (Q := fun (_ : unit) => inPass);
       [exact seen_evolves| |intros _; apply IH]);
      (apply triple_when; [intros _|auto]; apply triple_fireSystem; cbn; auto).
Qed.

Lemma notifyContact_triple (entity other : EntityRef) (contacts : list ContactPoint) :
  triple seen inPass (notifyContact sc entity other contacts) (fun _ => inPass).
Proof.
  unfold notifyContact.
  set (stored := fun (n : bool) s =>
                   inPass s /\ In other (frameOthers sc entity s) /\
                   (n = true -> ~ In other (persistentOthers sc entity before))).
  apply triple_bind with (Q := stored); [exact seen_evolves| |].
  - apply triple_storeCollision. intros s Hd. now apply duringPass_store.
  - intros n.
    assert (Hfires : forall kind,
               triple seen (stored n)
                 (fire entity kind contact
                       (PContact (_createContactResult other contacts)) ;;;
                  when n (fire entity kind collisionstart
                               (PContact (_createContactResult other contacts))))
                 (fun _ => stored n)).
    { intros kind.
      apply triple_bind with (Q := fun (_ : unit) => stored n); [exact seen_evolves| |].
      - apply triple_fire. intros s Hs. split; [|exact Hs]. cbn. apply Hs.
      - intros _. apply triple_when; [intros Hn|auto].
        apply triple_fire. intros s Hs. split; [|exact Hs]. cbn.
        destruct Hs as (_ & Hin & Hnew). auto. }
    apply triple_bind with (Q := fun (_ : unit) => stored n); [exact seen_evolves| |].
    + apply triple_when; [intros _; apply Hfires|auto].
    + intros _. apply triple_when.
      * intros _. eapply triple_weaken; [| |apply Hfires]; [auto|].
        intros v s Hs. apply Hs.
      * intros _ s Hs. apply Hs.
Qed.

Lemma processManifold_triple (m : btPersistentManifold) :
  triple seen inPass (processManifold BODYFLAG_NORESPONSE_OBJECT sc m) (fun _ => inPass).
Proof.
  unfold processManifold.
  destruct (bodyEntity (getBody0 m)) as [e0|]; [|apply triple_ret; auto].
  destruct (bodyEntity (getBody1 m)) as [e1|]; [|apply triple_ret; auto].
  destruct (0 <? getNumContacts m); [|apply triple_ret; auto].
  destruct (noResponse _ _ || noResponse _ _); [apply triggerPath_triple|].
  unfold contactPath.
  destruct (_ || _ || _); [|apply triple_ret; auto].
  apply triple_bind with (Q := fun (_ : list ContactPoint * list ContactPoint) => inPass);
    [exact seen_evolves|apply contactLoop_triple|intros fr].
  apply triple_bind with (Q := fun (_ : unit) => inPass); [exact seen_evolves| |intros _];
    (apply triple_when; [intros _; apply notifyContact_triple|auto]).
Qed.

Lemma forEachManifold_triple (manifolds : list btPersistentManifold) :
  triple seen inPass (forEachManifold BODYFLAG_NORESPONSE_OBJECT sc manifolds)
         (fun _ => inPass).
Proof.
  induction manifolds as [|m manifolds IH]; cbn [forEachManifold].
  - apply triple_ret. auto.
  - apply triple_bind with (Q := fun (_ : unit) => inPass);
      [exact seen_evolves|apply processManifold_triple|intros _; exact IH].
Qed.

End PassTriples.

(* ------------------------------------------------------------------ *)
(** ** What a detection pass leaves and what it fires *)

Lemma notInFrame_false_iff (frame : CollisionMap) (g : Guid) (o : EntityRef) :
  notInFrame (lookup g frame) o = false <-> In o (othersOf frame g).
Proof.
  unfold notInFrame, othersOf. destruct (lookup g frame) as [f|].
  - apply indexOf_nonneg_iff.
  - split; [discriminate|intros []].
Qed.

Lemma othersOf_cleanedMap (frame m : CollisionMap) (g : Guid) :
  uniqueKeys m ->
  othersOf (cleanedMap frame m) g =
  filter (fun o => negb (notInFrame (lookup g frame) o)) (othersOf m g).
Proof.
  intros Hk. unfold othersOf. rewrite lookup_cleanedMap by assumption.
  destruct (lookup g m) as [c|]; [|reflexivity].
  unfold keptOthers. now destruct (filter _ (others c)).
Qed.

(** After [_cleanOldCollisions], the persistent map lists what it listed
    before and the transient map lists too. *)
Lemma cleanOldCollisions_members (sc : Scene) (s : Provider) (g : Guid) (o : EntityRef) :
  uniqueKeys (collisions s) ->
  (In o (othersOf (collisions (fst (_cleanOldCollisions sc s))) g) <->
   In o (othersOf (collisions s) g) /\ In o (othersOf (frameCollisions s) g)) /\
  frameCollisions (fst (_cleanOldCollisions sc s)) = frameCollisions s.
Proof.
  intros Hk. rewrite cleanOldCollisions_unfold by assumption.
  cbn [fst collisions frameCollisions]. split; [|reflexivity].
  rewrite othersOf_cleanedMap by assumption. rewrite filter_In.
  rewrite negb_true_iff, notInFrame_false_iff. reflexivity.
Qed.

Lemma fireExit_isExit (sc : Scene) (e o : EntityRef) : Forall isExit (fireExit sc e o).
Proof.
  unfold fireExit.
  destruct (trigger (entities sc e)); [|destruct (trigger (entities sc o)); cbn [negb]];
    try apply Forall_nil; apply Forall_app; split; apply Forall_fireIf; exact Logic.I.
Qed.

Lemma observed_not_exit (sc : Scene) (before s : Provider) (ev : Fired) :
  observed sc before s ev -> isExit ev -> False.
Proof.
  destruct ev as [e k name [o|r]|name r]; destruct name; cbn; auto.
Qed.

Section PassFacts.

Variable BODYFLAG_NORESPONSE_OBJECT : Z.
Variable sc : Scene.
Variable manifolds : list btPersistentManifold.
Variable this : Provider.
Hypothesis this_invariant : invariant this.

Abbreviation opened := {| collisions := collisions this; frameCollisions := [] |}.
Abbreviation looped := (forEachManifold BODYFLAG_NORESPONSE_OBJECT sc manifolds opened).
Abbreviation passed := (_checkForCollisions BODYFLAG_NORESPONSE_OBJECT sc manifolds this).

Lemma duringPass_opened : duringPass opened opened.
Proof.
  split; [exact this_invariant|]. split; [apply grows_refl|].
  split; [intros g o []|auto].
Qed.

Lemma looped_facts :
  duringPass opened (snd (fst looped)) /\
  Forall (observed sc opened (snd (fst looped))) (snd looped).
Proof.
  destruct (@forEachManifold_triple BODYFLAG_NORESPONSE_OBJECT sc opened manifolds
              opened duringPass_opened) as (H1 & _ & H3).
  now split.
Qed.

Lemma passed_log (ev : Fired) :
  In ev (snd passed) ->
  (In ev (snd looped) /\ observed sc opened (snd (fst looped)) ev) \/
  (In ev (snd (_cleanOldCollisions sc (snd (fst looped)))) /\ isExit ev).
Proof.
  rewrite checkForCollisions_unfold. cbn [snd]. intros Hin.
  apply in_app_or in Hin. destruct Hin as [Hin|Hin]; [left|right]; split; try assumption.
  - destruct looped_facts as [_ Hall]. rewrite Forall_forall in Hall. auto.
  - pose proof (@cleanOldCollisions_fires sc isExit (fireExit_isExit sc)
                  (snd (fst looped))) as Hall.
    rewrite Forall_forall in Hall. auto.
Qed.

(** The persistent map after the pass: what the transient map lists. *)
Lemma passed_members (g : Guid) (o : EntityRef) :
  (In o (othersOf (collisions (fst passed)) g) <->
   In o (othersOf (frameCollisions (snd (fst looped))) g)) /\
  frameCollisions (fst passed) = frameCollisions (snd (fst looped)).
Proof.
  rewrite checkForCollisions_unfold. cbn [fst].
  destruct looped_facts as [(Hinv & _ & Hfp & _) _].
  destruct (@cleanOldCollisions_members sc (snd (fst looped)) g o (proj1 Hinv)) as [Hm Hf].
  split; [|exact Hf]. rewrite Hm. split; [tauto|]. intros H. split; [now apply Hfp|exact H].
Qed.

End PassFacts.

(** After a detection pass the persistent map lists exactly the pairs that
    the pass has put into the transient map: the pairs observed in this
    step, and no pair of an earlier step that was not observed again. *)
Theorem checkForCollisions_lists_this_step (BODYFLAG_NORESPONSE_OBJECT : Z) (sc : Scene)
    (manifolds : list btPersistentManifold) (this : Provider) :
  invariant this ->
  let after := fst (_checkForCollisions BODYFLAG_NORESPONSE_OBJECT sc manifolds this) in
  forall g o,
    In o (othersOf (collisions after) g) <-> In o (othersOf (frameCollisions after) g).
Proof.
  intros Hinv after g o. subst after.
  destruct (@passed_members BODYFLAG_NORESPONSE_OBJECT sc manifolds this Hinv g o)
    as [Hm ->].
  exact Hm.
Qed.

(** [collisionstart] is fired on an entity about another only in the pass
    that puts the other into the entity's persistent record: the other was
    not listed before the pass and is listed after it. *)
Theorem collisionstart_only_on_new_pair (BODYFLAG_NORESPONSE_OBJECT : Z) (sc : Scene)
    (manifolds : list btPersistentManifold) (this : Provider) :
  invariant this ->
  let passed := _checkForCollisions BODYFLAG_NORESPONSE_OBJECT sc manifolds this in
  forall e kind r,
    In (FireComponent e kind collisionstart (PContact r)) (snd passed) ->
    ~ In (other r) (persistentOthers sc e this) /\
    In (other r) (persistentOthers sc e (fst passed)).
Proof.
  intros Hinv passed e kind r Hin. subst passed.
  destruct (@passed_log BODYFLAG_NORESPONSE_OBJECT sc manifolds this Hinv _ Hin)
    as [[_ Hobs]|[_ Hex]]; [|destruct Hex].
  cbn in Hobs. destruct Hobs as [Hnew Hseen]. split; [exact Hnew|].
  unfold persistentOthers.
  now apply (@passed_members BODYFLAG_NORESPONSE_OBJECT sc manifolds this Hinv).
Qed.

(** Every [contact] event on a component and every [triggerenter] of a pass
    is about a pair that the persistent map lists after the pass: the other
    under the entity for [contact], the pair in one of its two orders for
    [triggerenter]. *)
Theorem contact_and_triggerenter_on_listed_pairs (BODYFLAG_NORESPONSE_OBJECT : Z)
    (sc : Scene) (manifolds : list btPersistentManifold) (this : Provider) :
  invariant this ->
  let passed := _checkForCollisions BODYFLAG_NORESPONSE_OBJECT sc manifolds this in
  (forall e kind r,
      In (FireComponent e kind contact (PContact r)) (snd passed) ->
      In (other r) (persistentOthers sc e (fst passed))) /\
  (forall e kind o,
      In (FireComponent e kind triggerenter (PEntity o)) (snd passed) ->
      In o (persistentOthers sc e (fst passed)) \/
      In e (persistentOthers sc o (fst passed))).
Proof.
  intros Hinv passed. subst passed. split.
  - intros e kind r Hin.
    destruct (@passed_log BODYFLAG_NORESPONSE_OBJECT sc manifolds this Hinv _ Hin)
      as [[_ Hobs]|[_ Hex]]; [|destruct Hex].
    cbn in Hobs. unfold persistentOthers.
    now apply (@passed_members BODYFLAG_NORESPONSE_OBJECT sc manifolds this Hinv).
  - intros e kind o Hin.
    destruct (@passed_log BODYFLAG_NORESPONSE_OBJECT sc manifolds this Hinv _ Hin)
      as [[_ Hobs]|[_ Hex]]; [|destruct Hex].
    cbn in Hobs. unfold persistentOthers.
    destruct Hobs as [H|H]; [left|right];
      now apply (@passed_members BODYFLAG_NORESPONSE_OBJECT sc manifolds this Hinv).
Qed.

(** *** Records and their owners *)

Section LoopKeeps.

Variable BODYFLAG_NORESPONSE_OBJECT : Z.
Variable sc : Scene.
Variable I : Provider -> Prop.
Hypothesis I_store : forall e o s, I s -> I (snd (_storeCollision sc e o s)).

(** The loop over the manifolds changes the provider through
    [_storeCollision] only. *)
Lemma forEachManifold_keeps (manifolds : list btPersistentManifold) :
  respects I anyEvent (forEachManifold BODYFLAG_NORESPONSE_OBJECT sc manifolds).
Proof.
  assert (Hnotify : forall e o contacts, respects I anyEvent (notifyContact sc e o contacts)).
  { intros. unfold notifyContact. respects_steps;
      solve [exact Logic.I | intros; now apply I_store]. }
  assert (Hloop : forall e0 e1 a b g points f r,
             respects I anyEvent (contactLoop e0 e1 a b g points f r)).
  { intros e0 e1 a b g points.
    induction points as [|p points IH]; intros f r; cbn [contactLoop].
    - apply respects_ret.
    - destruct (a || b); respects_steps; solve [exact Logic.I | apply IH]. }
  induction manifolds as [|m manifolds IH]; cbn [forEachManifold].
  - apply respects_ret.
  - apply respects_bind; [|intros _; exact IH].
    unfold processManifold.
    destruct (bodyEntity (getBody0 m)) as [e0|]; [|apply respects_ret].
    destruct (bodyEntity (getBody1 m)) as [e1|]; [|apply respects_ret].
    destruct (0 <? getNumContacts m); [|apply respects_ret].
    destruct (noResponse _ _ || noResponse _ _).
    + unfold triggerPath, collisionSide, rigidbodySide. respects_steps;
        solve [exact Logic.I | intros; now apply I_store].
    + unfold contactPath.
      destruct (_ || _ || _); [|apply respects_ret].
      apply respects_bind; [apply Hloop|intros fr].
      apply respects_bind; [|intros _];
        (apply respects_when; intros _; apply Hnotify).
Qed.

End LoopKeeps.

Lemma ownersMatch_lookup (sc : Scene) (m : CollisionMap) (g : Guid) (c : CollisionRecord) :
  ownersMatch sc m -> lookup g m = Some c -> getGuid (entities sc (entity c)) = g.
Proof.
  unfold ownersMatch. induction 1 as [|[k c0] m Hk _ IH]; cbn [lookup]; [discriminate|].
  destruct (String.eqb k g) eqn:E; [|exact IH].
  apply String.eqb_eq in E. intros [= <-]. cbn in Hk. congruence.
Qed.

Lemma ownersMatch_assign (sc : Scene) (m : CollisionMap) (g : Guid) (c : CollisionRecord) :
  getGuid (entities sc (entity c)) = g -> ownersMatch sc m -> ownersMatch sc (assign g c m).
Proof.
  unfold ownersMatch. intros Hc. induction 1 as [|[k c0] m Hk Hm IH]; cbn [assign].
  - now repeat constructor.
  - destruct (String.eqb k g) eqn:E; constructor; auto.
    apply String.eqb_eq in E. cbn. congruence.
Qed.

Lemma ownersMatch_store (sc : Scene) (e o : EntityRef) (s : Provider) :
  ownersMatch sc (collisions s) ->
  ownersMatch sc (collisions (snd (_storeCollision sc e o s))).
Proof.
  intros Hm. rewrite storeCollision_unfold. cbn [snd collisions].
  assert (Hc : getGuid (entities sc (entity (orFresh (collisions s)
                 (getGuid (entities sc e)) e))) = getGuid (entities sc e)).
  { unfold orFresh. destruct (lookup _ (collisions s)) as [c|] eqn:El; [|reflexivity].
    eapply ownersMatch_lookup; eauto. }
  destruct (indexOf _ o <? 0)%Z; now apply ownersMatch_assign.
Qed.

Lemma ownersMatch_cleanedMap (sc : Scene) (frame m : CollisionMap) :
  ownersMatch sc m -> ownersMatch sc (cleanedMap frame m).
Proof.
  unfold ownersMatch. induction 1 as [|[k c] m Hk Hm IH]; [constructor|].
  rewrite cleanedMap_cons. destruct (keptOthers frame k c); cbn [app]; [exact IH|].
  constructor; [exact Hk|exact IH].
Qed.

Lemma lookup_unique (m : CollisionMap) (g : Guid) (c : CollisionRecord) :
  uniqueKeys m -> In (g, c) m -> lookup g m = Some c.
Proof.
  unfold uniqueKeys. induction m as [|[k c0] m IH]; cbn [lookup keys map fst]; [intros _ []|].
  intros Hnd [Heq|Hin]; inversion Hnd as [|? ? Hk Hm]; subst.
  - injection Heq as -> ->. now rewrite String.eqb_refl.
  - destruct (String.eqb k g) eqn:E; [|now apply IH].
    apply String.eqb_eq in E. subst k. exfalso. apply Hk.
    apply in_map_iff. exists (g, c). auto.
Qed.

Lemma endedPairs_in (frame m : CollisionMap) (g : Guid) (e o : EntityRef) :
  In (g, e, o) (endedPairs frame m) ->
  exists c, In (g, c) m /\ e = entity c /\ In o (others c) /\
            notInFrame (lookup g frame) o = true.
Proof.
  unfold endedPairs. intros Hin. apply in_flat_map in Hin.
  destruct Hin as [[k c] [Hm Hin]]. cbn [fst snd] in Hin.
  apply in_map_iff in Hin. destruct Hin as [v [Heq Hv]].
  injection Heq as Hk He Ho. subst k v. apply in_rev in Hv. apply filter_In in Hv.
  exists c. unfold endedOthers in Hv. cbn [fst snd] in Hv. symmetry in He. tauto.
Qed.

(** The events of a pass of [_cleanOldCollisions], one by one: each belongs
    to the exit notification of a pair that the record under the owner's
    guid listed and the transient record does not list. *)
Lemma cleanOldCollisions_log_in (sc : Scene) (s : Provider) (ev : Fired) :
  uniqueKeys (collisions s) ->
  ownersMatch sc (collisions s) ->
  In ev (snd (_cleanOldCollisions sc s)) ->
  exists e o,
    In ev (fireExit sc e o) /\
    In o (persistentOthers sc e s) /\
    ~ In o (frameOthers sc e s).
Proof.
  intros Hk Ho. rewrite cleanOldCollisions_unfold by assumption. cbn [snd].
  unfold exitLog. intros Hin. apply in_flat_map in Hin.
  destruct Hin as [[[g e] o] [Hp Hev]]. cbn [fst snd] in Hev.
  apply endedPairs_in in Hp. destruct Hp as (c & Hc & -> & Hoc & Habs).
  pose proof (lookup_unique g c Hk Hc) as Hl.
  pose proof (ownersMatch_lookup g Ho Hl) as Hg.
  exists (entity c), o. split; [exact Hev|].
  unfold persistentOthers, frameOthers, othersOf. rewrite Hg, Hl. split; [exact Hoc|].
  intros Hin. apply (notInFrame_false_iff (frameCollisions s) g o) in Hin. congruence.
Qed.

Lemma fireExit_in (sc : Scene) (e o : EntityRef) (ev : Fired) :
  In ev (fireExit sc e o) ->
  ev = FireComponent e Collision triggerleave (PEntity o) \/
  ev = FireComponent o Rigidbody triggerleave (PEntity e) \/
  ev = FireComponent e Rigidbody collisionend (PEntity o) \/
  ev = FireComponent e Collision collisionend (PEntity o).
Proof.
  unfold fireExit, fireIf. intros Hin.
  destruct (trigger (entities sc e)); [|destruct (trigger (entities sc o)); cbn [negb] in Hin];
    try contradiction; apply in_app_or in Hin;
    destruct Hin as [Hin|Hin];
    match type of Hin with In _ (if ?c then _ else _) => destruct c end;
    try contradiction; destruct Hin as [<-|[]]; auto.
Qed.

(** The exit events of a detection pass, one by one. *)
Lemma passed_exit (BODYFLAG_NORESPONSE_OBJECT : Z) (sc : Scene)
    (manifolds : list btPersistentManifold) (this : Provider) (ev : Fired) :
  invariant this ->
  ownersMatch sc (collisions this) ->
  In ev (snd (_checkForCollisions BODYFLAG_NORESPONSE_OBJECT sc manifolds this)) ->
  isExit ev ->
  exists e o,
    In ev (fireExit sc e o) /\
    In o (persistentOthers sc e this) /\
    ~ In o (persistentOthers sc e
              (fst (_checkForCollisions BODYFLAG_NORESPONSE_OBJECT sc manifolds this))).
Proof.
  intros Hinv Hown Hin Hexit.
  destruct (@passed_log BODYFLAG_NORESPONSE_OBJECT sc manifolds this Hinv _ Hin)
    as [[_ Hobs]|[Hc _]]; [exfalso; eapply observed_not_exit; eauto|].
  destruct (@looped_facts BODYFLAG_NORESPONSE_OBJECT sc manifolds this Hinv)
    as [(Hi & _ & _ & Hpf) _].
  set (opened := {| collisions := collisions this; frameCollisions := [] |}) in *.
  set (mid := snd (fst (forEachManifold BODYFLAG_NORESPONSE_OBJECT sc manifolds opened))) in *.
  assert (Hom : ownersMatch sc (collisions mid)).
  { apply (@forEachManifold_keeps BODYFLAG_NORESPONSE_OBJECT sc
             (fun s => ownersMatch sc (collisions s))
             (fun e o s => @ownersMatch_store sc e o s) manifolds opened Hown). }
  destruct (@cleanOldCollisions_log_in sc mid ev (proj1 Hi) Hom Hc) as (e & o & Hev & Hp & Hf).
  exists e, o. split; [exact Hev|]. split.
  - destruct (Hpf _ _ Hp) as [Hb|Hfr]; [exact Hb|contradiction].
  - unfold persistentOthers. intros Hafter.
    apply (@passed_members BODYFLAG_NORESPONSE_OBJECT sc manifolds this Hinv) in Hafter.
    exact (Hf Hafter).
Qed.

(** [collisionend] and [triggerleave] are fired only in the pass that takes
    the pair off the persistent map: for [collisionend] on an entity about
    another, and for [triggerleave] on the collision component of a trigger
    about another, the other was listed under the entity before the pass and
    is not listed after it; [triggerleave] on a rigidbody component is about
    the trigger under which the entity was listed. *)
Theorem exit_events_only_on_ended_pair (BODYFLAG_NORESPONSE_OBJECT : Z) (sc : Scene)
    (manifolds : list btPersistentManifold) (this : Provider) :
  invariant this ->
  ownersMatch sc (collisions this) ->
  let passed := _checkForCollisions BODYFLAG_NORESPONSE_OBJECT sc manifolds this in
  (forall e kind o,
      In (FireComponent e kind collisionend (PEntity o)) (snd passed) ->
      In o (persistentOthers sc e this) /\ ~ In o (persistentOthers sc e (fst passed))) /\
  (forall e o,
      In (FireComponent e Collision triggerleave (PEntity o)) (snd passed) ->
      In o (persistentOthers sc e this) /\ ~ In o (persistentOthers sc e (fst passed))) /\
  (forall e o,
      In (FireComponent o Rigidbody triggerleave (PEntity e)) (snd passed) ->
      In o (persistentOthers sc e this) /\ ~ In o (persistentOthers sc e (fst passed))).
Proof.
  intros Hinv Hown passed. subst passed.
  split; [|split]; intros; 
    match goal with
    | Hin : In ?ev _ |- _ =>
        destruct (@passed_exit BODYFLAG_NORESPONSE_OBJECT sc manifolds this ev
                    Hinv Hown Hin Logic.I) as (e' & o' & Hev & Hb & Ha)
    end;
    apply fireExit_in in Hev;
    destruct Hev as [Hev|[Hev|[Hev|Hev]]]; try discriminate;
    inversion Hev; subst; auto.
Qed.

(** While a pair stays listed from before a pass to after it, the pass
    fires neither [collisionstart] nor an exit notification about it. *)
Theorem staying_pair_fires_no_edge (BODYFLAG_NORESPONSE_OBJECT : Z) (sc : Scene)
    (manifolds : list btPersistentManifold) (this : Provider) (e o : EntityRef) :
  invariant this ->
  ownersMatch sc (collisions this) ->
  let passed := _checkForCollisions BODYFLAG_NORESPONSE_OBJECT sc manifolds this in
  In o (persistentOthers sc e this) ->
  In o (persistentOthers sc e (fst passed)) ->
  (forall kind r, other r = o ->
                  ~ In (FireComponent e kind collisionstart (PContact r)) (snd passed)) /\
  (forall kind, ~ In (FireComponent e kind collisionend (PEntity o)) (snd passed)) /\
  ~ In (FireComponent e Collision triggerleave (PEntity o)) (snd passed) /\
  ~ In (FireComponent o Rigidbody triggerleave (PEntity e)) (snd passed).
Proof.
  intros Hinv Hown passed Hbefore Hafter. subst passed.
  assert (Hexit : forall ev e' o',
             In ev (fireExit sc e' o') ->
             In ev [FireComponent e Rigidbody collisionend (PEntity o);
                    FireComponent e Collision collisionend (PEntity o);
                    FireComponent e Collision triggerleave (PEntity o);
                    FireComponent o Rigidbody triggerleave (PEntity e)] ->
             e' = e /\ o' = o).
  { intros ev e' o' Hev Hin. apply fireExit_in in Hev. cbn [In] in Hin.
    destruct Hev as [-> | [-> | [-> | ->]]];
      destruct Hin as [Hin|[Hin|[Hin|[Hin|[]]]]]; try discriminate;
      inversion Hin; auto. }
  assert (Hno : forall ev,
             In ev [FireComponent e Rigidbody collisionend (PEntity o);
                    FireComponent e Collision collisionend (PEntity o);
                    FireComponent e Collision triggerleave (PEntity o);
                    FireComponent o Rigidbody triggerleave (PEntity e)] ->
             ~ In ev (snd (_checkForCollisions BODYFLAG_NORESPONSE_OBJECT sc manifolds this))).
  { intros ev Hev Hin.
    assert (Hx : isExit ev).
    { cbn [In] in Hev. destruct Hev as [<-|[<-|[<-|[<-|[]]]]]; exact Logic.I. }
    destruct (@passed_exit BODYFLAG_NORESPONSE_OBJECT sc manifolds this ev
                Hinv Hown Hin Hx) as (e' & o' & Hfe & _ & Ha).
    destruct (Hexit ev e' o' Hfe Hev) as [-> ->]. contradiction. }
  split; [|split; [|split]].
  - intros kind r Hr Hin.
    destruct (@passed_log BODYFLAG_NORESPONSE_OBJECT sc manifolds this Hinv _ Hin)
      as [[_ Hobs]|[_ Hex]]; [|destruct Hex].
    cbn in Hobs. rewrite Hr in Hobs. tauto.
  - intros kind. destruct kind; apply Hno; cbn [In]; auto.
  - apply Hno; cbn [In]; auto.
  - apply Hno; cbn [In]; auto 6.
Qed.

(** As long as entities keep their guid, every record is under the guid
    of its owning entity: [_storeCollision], [_cleanOldCollisions] and the
    detection pass keep it so. *)
Theorem records_stay_under_owner_guid (BODYFLAG_NORESPONSE_OBJECT : Z) (sc : Scene)
    (this : Provider) :
  invariant this ->
  ownersMatch sc (collisions this) ->
  (forall e o, ownersMatch sc (collisions (snd (_storeCollision sc e o this)))) /\
  ownersMatch sc (collisions (fst (_cleanOldCollisions sc this))) /\
  (forall manifolds,
      ownersMatch sc
        (collisions (fst (_checkForCollisions BODYFLAG_NORESPONSE_OBJECT sc manifolds this)))).
Proof.
  intros Hinv Hown. split; [|split].
  - intros e o. now apply ownersMatch_store.
  - rewrite cleanOldCollisions_unfold by apply Hinv. cbn [fst collisions].
    now apply ownersMatch_cleanedMap.
  - intros manifolds. rewrite checkForCollisions_unfold. cbn [fst].
    set (opened := {| collisions := collisions this; frameCollisions := [] |}).
    assert (Hmid : ownersMatch sc (collisions (snd (fst
              (forEachManifold BODYFLAG_NORESPONSE_OBJECT sc manifolds opened))))).
    { apply (@forEachManifold_keeps BODYFLAG_NORESPONSE_OBJECT sc
               (fun s => ownersMatch sc (collisions s))
               (fun e o s => @ownersMatch_store sc e o s) manifolds opened Hown). }
    assert (Hk : uniqueKeys (collisions (snd (fst
              (forEachManifold BODYFLAG_NORESPONSE_OBJECT sc manifolds opened))))).
    { apply (@forEachManifold_keeps BODYFLAG_NORESPONSE_OBJECT sc invariant
               (fun e o s => @storeCollision_invariant sc e o s) manifolds opened Hinv). }
    rewrite cleanOldCollisions_unfold by exact Hk. cbn [fst collisions].
    now apply ownersMatch_cleanedMap.
Qed.

(* ------------------------------------------------------------------ *)
(** ** The contact path of one manifold *)

Lemma contactLoop_unfold (e0 e1 : EntityRef) (e0Events e1Events globalEvents : bool)
    (points : list btManifoldPoint) :
  forall forwardContacts reverseContacts s,
    contactLoop e0 e1 e0Events e1Events globalEvents points forwardContacts reverseContacts s =
    ((if e0Events || e1Events
      then (forwardContacts ++ map _createContactPointFromAmmo points,
            reverseContacts ++ map _createReverseContactPointFromAmmo points)
      else (forwardContacts, reverseContacts)),
     s,
     if globalEvents
     then map (fun p => FireSystem contact
                          (_createSingleContactResult e0 e1 (_createContactPointFromAmmo p)))
              points
     else []).
Proof.
  induction points as [|p points IH]; intros f r s; cbn [contactLoop map].
  - rewrite !app_nil_r. now destruct (e0Events || e1Events), globalEvents.
  - destruct (e0Events || e1Events); destruct globalEvents;
      unfold bind, when, fireSystem, ret; cbn beta iota zeta; rewrite IH;
      cbn [app]; rewrite <- ?app_assoc; reflexivity.
Qed.

Lemma notifyContact_unfold (sc : Scene) (entity other : EntityRef)
    (contacts : list ContactPoint) (s : Provider) :
  notifyContact sc entity other contacts s =
  (tt, snd (_storeCollision sc entity other s),
   contactEvents sc entity (_createContactResult other contacts)
                 (fst (_storeCollision sc entity other s))).
Proof.
  unfold notifyContact, contactEvents, bind, storeCollision. cbn [flat_map componentOf].
  destruct (_storeCollision sc entity other s) as [isNew s'].
  cbn [fst snd].
  destruct (isSome (collision (entities sc entity))),
           (isSome (rigidbody (entities sc entity))), isNew; reflexivity.
Qed.

Lemma mirror_forward (p : btManifoldPoint) :
  _createReverseContactPointFromAmmo p = mirror (_createContactPointFromAmmo p).
Proof. reflexivity. Qed.

Lemma systemResults_app (l l' : list Fired) :
  systemResults (l ++ l') = systemResults l ++ systemResults l'.
Proof. apply flat_map_app. Qed.

Lemma systemResults_contactEvents (sc : Scene) (e : EntityRef) (r : ContactResult)
    (isNew : bool) :
  systemResults (contactEvents sc e r isNew) = [].
Proof.
  unfold contactEvents. cbn [flat_map].
  destruct (isSome (componentOf sc e Collision)), (isSome (componentOf sc e Rigidbody)),
    isNew; reflexivity.
Qed.

Lemma contactEvents_in (sc : Scene) (e : EntityRef) (r : ContactResult) (isNew : bool)
    (ev : Fired) :
  In ev (contactEvents sc e r isNew) ->
  exists kind name, ev = FireComponent e kind name (PContact r).
Proof.
  unfold contactEvents. cbn [flat_map]. rewrite app_nil_r. intros Hin.
  apply in_app_or in Hin.
  destruct Hin as [Hin|Hin];
    match type of Hin with In _ (if ?c then _ else _) => destruct c end;
    try contradiction; destruct isNew; cbn in Hin; intuition eauto.
Qed.

(** The log of the contact path: the system's events, then the events of
    the first entity, then those of the second. *)
Lemma contactPath_log (sc : Scene) (e0 e1 : EntityRef) (points : list btManifoldPoint)
    (s : Provider) :
  exists (new0 new1 : bool),
    snd (contactPath sc e0 e1 points s) =
    (if existsb (EventName_eqb contact) (systemListeners sc)
     then map (fun p => FireSystem contact
                          (_createSingleContactResult e0 e1 (_createContactPointFromAmmo p)))
              points
     else [])
    ++ (if _hasContactEvent sc e0
        then contactEvents sc e0
               (_createContactResult e1 (map _createContactPointFromAmmo points)) new0
        else [])
    ++ (if _hasContactEvent sc e1
        then contactEvents sc e1
               (_createContactResult e0 (map _createReverseContactPointFromAmmo points)) new1
        else []).
Proof.
  exists (fst (_storeCollision sc e0 e1 s)),
         (fst (_storeCollision sc e1 e0
                 (if _hasContactEvent sc e0 then snd (_storeCollision sc e0 e1 s) else s))).
  unfold contactPath.
  destruct (existsb (EventName_eqb contact) (systemListeners sc)) eqn:Eg;
    destruct (_hasContactEvent sc e0) eqn:E0; destruct (_hasContactEvent sc e1) eqn:E1;
    cbn [orb]; unfold bind; try rewrite contactLoop_unfold; cbn [orb fst snd when app];
    rewrite ?notifyContact_unfold; cbn [ret fst snd app];
    try rewrite notifyContact_unfold; cbn [fst snd];
    rewrite ?app_nil_r; reflexivity.
Qed.

(** On the contact path of a manifold, the listeners of the system get one
    result per contact point, in the order of the points and seen from the
    first body.  The listeners of a component get a result that names the
    other entity of the pair and holds one contact per point: seen from the
    first body for the first entity, and mirrored for the second. *)
Theorem contactPath_results (sc : Scene) (e0 e1 : EntityRef)
    (points : list btManifoldPoint) (s : Provider) :
  let log := snd (contactPath sc e0 e1 points s) in
  systemResults log =
    (if existsb (EventName_eqb contact) (systemListeners sc)
     then map (fun p => _createSingleContactResult e0 e1 (_createContactPointFromAmmo p))
              points
     else []) /\
  (forall owner kind name arg,
      In (FireComponent owner kind name arg) log ->
      exists r, arg = PContact r /\ List.length (contacts r) = List.length points /\
        ((owner = e0 /\ other r = e1 /\
          contacts r = map _createContactPointFromAmmo points) \/
         (owner = e1 /\ other r = e0 /\
          contacts r = map mirror (map _createContactPointFromAmmo points)))).
Proof.
  intros log. subst log.
  destruct (contactPath_log sc e0 e1 points s) as (new0 & new1 & ->).
  split.
  - rewrite !systemResults_app.
    assert (H0 : systemResults
              (if _hasContactEvent sc e0
               then contactEvents sc e0
                      (_createContactResult e1 (map _createContactPointFromAmmo points)) new0
               else []) = []).
    { destruct (_hasContactEvent sc e0); [apply systemResults_contactEvents|reflexivity]. }
    assert (H1 : systemResults
              (if _hasContactEvent sc e1
               then contactEvents sc e1
                      (_createContactResult e0
                         (map _createReverseContactPointFromAmmo points)) new1
               else []) = []).
    { destruct (_hasContactEvent sc e1); [apply systemResults_contactEvents|reflexivity]. }
    rewrite H0, H1, !app_nil_r.
    destruct (existsb _ _); [|reflexivity].
    clear H0 H1. induction points as [|p points IH]; [reflexivity|].
    cbn [map]. change (systemResults (?a :: ?l)) with (systemResults [a] ++ systemResults l).
    cbn [systemResults flat_map app]. f_equal. exact IH.
  - intros owner kind name arg Hin.
    apply in_app_or in Hin. destruct Hin as [Hin|Hin].
    { destruct (existsb _ _); [|contradiction].
      apply in_map_iff in Hin. destruct Hin as [p [Hp _]]. discriminate. }
    apply in_app_or in Hin. destruct Hin as [Hin|Hin].
    + destruct (_hasContactEvent sc e0); [|contradiction].
      apply contactEvents_in in Hin. destruct Hin as (k & n & Heq).
      injection Heq as -> -> -> ->. eexists. split; [reflexivity|].
      cbn [_createContactResult contacts other]. rewrite length_map. auto.
    + destruct (_hasContactEvent sc e1); [|contradiction].
      apply contactEvents_in in Hin. destruct Hin as (k & n & Heq).
      injection Heq as -> -> -> ->. eexists. split; [reflexivity|].
      cbn [_createContactResult contacts other]. rewrite length_map.
      split; [reflexivity|]. right. repeat split.
      rewrite map_map. apply map_ext. intros p. apply mirror_forward.
Qed.

Lemma contactEvents_contact (sc : Scene) (e : EntityRef) (r : ContactResult)
    (isNew : bool) (kind : ComponentKind) :
  isSome (componentOf sc e kind) = true ->
  In (FireComponent e kind contact (PContact r)) (contactEvents sc e r isNew).
Proof.
  intros Hc. unfold contactEvents. cbn [flat_map]. rewrite app_nil_r.
  apply in_or_app. destruct kind; [left|right]; rewrite Hc; now left.
Qed.

Lemma contactEvents_collisionstart (sc : Scene) (e : EntityRef) (r : ContactResult)
    (kind : ComponentKind) :
  isSome (componentOf sc e kind) = true ->
  In (FireComponent e kind collisionstart (PContact r)) (contactEvents sc e r true).
Proof.
  intros Hc. unfold contactEvents. cbn [flat_map]. rewrite app_nil_r.
  apply in_or_app. destruct kind; [left|right]; rewrite Hc; right; now left.
Qed.

Lemma processManifold_physical (BODYFLAG_NORESPONSE_OBJECT : Z) (sc : Scene)
    (m : btPersistentManifold) (e0 e1 : EntityRef) (s : Provider) :
  bodyEntity (getBody0 m) = Some e0 ->
  bodyEntity (getBody1 m) = Some e1 ->
  contactPoints m <> [] ->
  physical BODYFLAG_NORESPONSE_OBJECT m = true ->
  processManifold BODYFLAG_NORESPONSE_OBJECT sc m s = contactPath sc e0 e1 (contactPoints m) s.
Proof.
  unfold physical, processManifold, getNumContacts. intros -> -> Hp Hf.
  apply negb_true_iff in Hf. rewrite Hf.
  destruct (contactPoints m); [contradiction|reflexivity].
Qed.

Lemma forEachManifold_includes (BODYFLAG_NORESPONSE_OBJECT : Z) (sc : Scene)
    (manifolds : list btPersistentManifold) (m : btPersistentManifold) :
  In m manifolds ->
  forall s, exists s1,
    incl (snd (processManifold BODYFLAG_NORESPONSE_OBJECT sc m s1))
         (snd (forEachManifold BODYFLAG_NORESPONSE_OBJECT sc manifolds s)).
Proof.
  induction manifolds as [|m' manifolds IH]; intros Hin s; [contradiction|].
  cbn [forEachManifold]. unfold bind.
  destruct Hin as [->|Hin].
  - exists s. destruct (processManifold _ sc m s) as [[u s1] l1].
    destruct (forEachManifold _ sc manifolds s1) as [[u' s2] l2]. cbn [snd].
    apply incl_appl, incl_refl.
  - destruct (processManifold _ sc m' s) as [[u s1] l1].
    destruct (IH Hin s1) as [s2 Hincl]. exists s2.
    destruct (forEachManifold _ sc manifolds s1) as [[u' s3] l2]. cbn [snd] in *.
    now apply incl_appr.
Qed.

(** In every detection pass, each manifold with contact points between two
    bodies with collision response makes [contact] fire on each component
    present of each of its two entities that listens for contact events,
    whether the contact is new or not. *)
Theorem contact_fired_each_step (BODYFLAG_NORESPONSE_OBJECT : Z) (sc : Scene)
    (manifolds : list btPersistentManifold) (this : Provider)
    (m : btPersistentManifold) (e0 e1 : EntityRef) :
  In m manifolds ->
  bodyEntity (getBody0 m) = Some e0 ->
  bodyEntity (getBody1 m) = Some e1 ->
  contactPoints m <> [] ->
  physical BODYFLAG_NORESPONSE_OBJECT m = true ->
  let log := snd (_checkForCollisions BODYFLAG_NORESPONSE_OBJECT sc manifolds this) in
  (forall kind,
      _hasContactEvent sc e0 = true ->
      isSome (componentOf sc e0 kind) = true ->
      In (FireComponent e0 kind contact
            (PContact (_createContactResult e1
                         (map _createContactPointFromAmmo (contactPoints m))))) log) /\
  (forall kind,
      _hasContactEvent sc e1 = true ->
      isSome (componentOf sc e1 kind) = true ->
      In (FireComponent e1 kind contact
            (PContact (_createContactResult e0
                         (map _createReverseContactPointFromAmmo (contactPoints m))))) log).
Proof.
  intros Hin He0 He1 Hp Hf log. subst log.
  rewrite checkForCollisions_unfold. cbn [snd].
  destruct (@forEachManifold_includes BODYFLAG_NORESPONSE_OBJECT sc manifolds m Hin
              {| collisions := collisions this; frameCollisions := [] |}) as [s1 Hincl].
  rewrite (@processManifold_physical BODYFLAG_NORESPONSE_OBJECT sc m e0 e1 s1 He0 He1 Hp Hf) in Hincl.
  destruct (contactPath_log sc e0 e1 (contactPoints m) s1) as (new0 & new1 & Hlog).
  rewrite Hlog in Hincl.
  split; intros kind Hl Hc; apply in_or_app; left; apply Hincl;
    apply in_or_app; right; apply in_or_app; [left|right]; rewrite Hl;
    now apply contactEvents_contact.
Qed.

(** A manifold with contact points between two bodies with collision
    response, met while the second entity is not yet listed under the first:
    [collisionstart] is fired on each component present of the first entity,
    if it listens for contact events. *)
Theorem first_contact_fires_collisionstart (BODYFLAG_NORESPONSE_OBJECT : Z) (sc : Scene)
    (m : btPersistentManifold) (e0 e1 : EntityRef) (s : Provider) (kind : ComponentKind) :
  bodyEntity (getBody0 m) = Some e0 ->
  bodyEntity (getBody1 m) = Some e1 ->
  contactPoints m <> [] ->
  physical BODYFLAG_NORESPONSE_OBJECT m = true ->
  _hasContactEvent sc e0 = true ->
  isSome (componentOf sc e0 kind) = true ->
  ~ In e1 (persistentOthers sc e0 s) ->
  In (FireComponent e0 kind collisionstart
        (PContact (_createContactResult e1
                     (map _createContactPointFromAmmo (contactPoints m)))))
     (snd (processManifold BODYFLAG_NORESPONSE_OBJECT sc m s)).
Proof.
  intros He0 He1 Hp Hf Hl Hc Hnew.
  rewrite (@processManifold_physical BODYFLAG_NORESPONSE_OBJECT sc m e0 e1 s He0 He1 Hp Hf).
  unfold contactPath. rewrite Hl.
  destruct (existsb (EventName_eqb contact) (systemListeners sc)); cbn [orb];
    unfold bind; rewrite contactLoop_unfold; cbn [orb fst snd when];
    rewrite notifyContact_unfold;
    destruct (storeCollision_absent sc e0 e1 s Hnew) as [-> _];
    destruct (when (_hasContactEvent sc e1) _ _) as [[u s2] l2]; cbn [snd];
    apply in_or_app; right; apply in_or_app; left;
    now apply contactEvents_collisionstart.
Qed.

(* ------------------------------------------------------------------ *)
(** ** The trigger path of one manifold *)

Lemma storeCollision_run (sc : Scene) (e o : EntityRef) (s : Provider) :
  storeCollision sc e o s =
  (fst (_storeCollision sc e o s), snd (_storeCollision sc e o s), []).
Proof. unfold storeCollision. now destruct (_storeCollision sc e o s). Qed.

Lemma storeCollision_listed (sc : Scene) (e o : EntityRef) (s : Provider) :
  In o (persistentOthers sc e (snd (_storeCollision sc e o s))).
Proof.
  unfold persistentOthers. apply (storeCollision_members sc e o s). now right.
Qed.

Section TriggerEntry.

Variable BODYFLAG_NORESPONSE_OBJECT : Z.
Variable sc : Scene.
Variables T R : EntityRef.
Variables flagsT flagsR : Z.

(** The trigger volume has no rigidbody component; the body does not
    listen for trigger events on its collision component. *)
Hypothesis T_volume : rigidbody (entities sc T) = None.
Hypothesis R_body : triggerListeners (collision (entities sc R)) = false.

Lemma T_no_body_listeners : triggerListeners (rigidbody (entities sc T)) = false.
Proof. now rewrite T_volume. Qed.

Lemma trigger_entry_new (s : Provider) :
  ~ In R (persistentOthers sc T s) ->
  snd (triggerPath BODYFLAG_NORESPONSE_OBJECT sc T R flagsT flagsR s) =
    enterEvents sc T R (noResponse BODYFLAG_NORESPONSE_OBJECT flagsR) /\
  snd (triggerPath BODYFLAG_NORESPONSE_OBJECT sc R T flagsR flagsT s) =
    enterEvents sc T R (noResponse BODYFLAG_NORESPONSE_OBJECT flagsR).
Proof.
  intros Hnew. destruct (storeCollision_absent sc T R s Hnew) as [Htrue _].
  unfold enterEvents.
  split; unfold triggerPath, collisionSide, rigidbodySide;
    rewrite R_body, T_no_body_listeners;
    destruct (triggerListeners (collision (entities sc T)));
    destruct (triggerListeners (rigidbody (entities sc R)));
    unfold bind, when, fire, ret; rewrite ?storeCollision_run;
    cbn beta iota zeta; cbn [fst snd negb andb app];
    rewrite ?storeCollision_run, ?Htrue; cbn beta iota zeta; cbn [fst snd negb andb app];
    rewrite ?storeCollision_run, ?Htrue; cbn beta iota zeta; cbn [fst snd negb andb app];
    destruct (noResponse BODYFLAG_NORESPONSE_OBJECT flagsR);
    cbn [fst snd negb andb app fireIf]; reflexivity.
Qed.

Lemma trigger_entry_old (s : Provider) :
  In R (persistentOthers sc T s) ->
  snd (triggerPath BODYFLAG_NORESPONSE_OBJECT sc T R flagsT flagsR s) = [] /\
  snd (triggerPath BODYFLAG_NORESPONSE_OBJECT sc R T flagsR flagsT s) = [].
Proof.
  intros Hold. destruct (storeCollision_present sc T R s Hold) as [Hfalse _].
  assert (Hagain : fst (_storeCollision sc T R (snd (_storeCollision sc T R s))) = false).
  { apply storeCollision_present, storeCollision_listed. }
  split; unfold triggerPath, collisionSide, rigidbodySide;
    rewrite R_body, T_no_body_listeners;
    destruct (triggerListeners (collision (entities sc T)));
    destruct (triggerListeners (rigidbody (entities sc R)));
    unfold bind, when, fire, ret; rewrite ?storeCollision_run;
    cbn beta iota zeta; cbn [fst snd negb andb app];
    rewrite ?storeCollision_run, ?Hfalse; cbn beta iota zeta; cbn [fst snd negb andb app];
    rewrite ?storeCollision_run, ?Hagain, ?Hfalse; cbn beta iota zeta;
    cbn [fst snd negb andb app]; reflexivity.
Qed.

End TriggerEntry.

(** A rigid body [R] met with a trigger volume [T] (an entity without
    rigidbody component), where the body does not listen for trigger events
    on its collision component.  Whichever of the two is the first body of
    the manifold: when [R] is not yet listed under [T], [triggerenter] is
    fired on the volume's collision component, if it listens and the body's
    flag is clear, and on the body's rigidbody component, if it listens;
    when [R] is already listed under [T], nothing is fired. *)
Theorem trigger_entry_fires_once (BODYFLAG_NORESPONSE_OBJECT : Z) (sc : Scene)
    (T R : EntityRef) (flagsT flagsR : Z) (s : Provider) :
  rigidbody (entities sc T) = None ->
  triggerListeners (collision (entities sc R)) = false ->
  let fired := enterEvents sc T R (noResponse BODYFLAG_NORESPONSE_OBJECT flagsR) in
  let TR := snd (triggerPath BODYFLAG_NORESPONSE_OBJECT sc T R flagsT flagsR s) in
  let RT := snd (triggerPath BODYFLAG_NORESPONSE_OBJECT sc R T flagsR flagsT s) in
  (~ In R (persistentOthers sc T s) -> TR = fired /\ RT = fired) /\
  (In R (persistentOthers sc T s) -> TR = [] /\ RT = []).
Proof.
  intros HT HR fired TR RT. split; intros H.
  - now apply trigger_entry_new.
  - now apply trigger_entry_old.
Qed.

(** Two overlapping trigger volumes (both bodies flagged no-response,
    neither entity with a rigidbody component) fire nothing, whatever they
    listen for. *)
Theorem overlapping_triggers_fire_nothing (BODYFLAG_NORESPONSE_OBJECT : Z) (sc : Scene)
    (e0 e1 : EntityRef) (flags0 flags1 : Z) (s : Provider) :
  noResponse BODYFLAG_NORESPONSE_OBJECT flags0 = true ->
  noResponse BODYFLAG_NORESPONSE_OBJECT flags1 = true ->
  rigidbody (entities sc e0) = None ->
  rigidbody (entities sc e1) = None ->
  snd (triggerPath BODYFLAG_NORESPONSE_OBJECT sc e0 e1 flags0 flags1 s) = [].
Proof.
  intros F0 F1 H0 H1.
  unfold triggerPath, collisionSide, rigidbodySide. rewrite H0, H1, F0, F1.
  cbn [triggerListeners hasAnyEvent].
  destruct (triggerListeners (collision (entities sc e0)));
    destruct (triggerListeners (collision (entities sc e1)));
    unfold bind, when, fire, ret; rewrite ?storeCollision_run;
    cbn beta iota zeta; cbn [fst snd negb andb app];
    rewrite ?andb_false_r; cbn beta iota zeta;
    rewrite ?storeCollision_run; cbn beta iota zeta; cbn [fst snd negb andb app];
    rewrite ?andb_false_r; reflexivity.
Qed.

(* ------------------------------------------------------------------ *)
(** ** More on the ray queries *)

Lemma StronglySorted_head (r : RaycastResult) (l : list RaycastResult) :
  StronglySorted byHitFraction (r :: l) ->
  forall r', In r' (r :: l) -> byHitFraction r r'.
Proof.
  intros Hs r' [<-|Hin].
  - unfold byHitFraction. apply Qle_refl.
  - apply StronglySorted_inv in Hs. destruct Hs as [_ Hall].
    rewrite Forall_forall in Hall. auto.
Qed.

(** With a filter present and the all-hits callback at hand, [raycastFirst]
    returns the qualifying hit nearest to the start of the ray: a result for
    a hit whose body resolves to an entity that passes the filters, with a
    [hitFraction] no greater than that of any such hit; and null exactly
    when no hit qualifies. *)
Theorem raycastFirst_filtered_closest (TagQuery : Type)
    (tagsHas : EntityRef -> TagQuery -> bool) (ammo : Ammo) (start end_ : Vec3)
    (options : Options TagQuery)
    (rayTest : Vec3 -> Vec3 -> option Z -> option Z -> list RayHit) :
  hasFilter options = true ->
  AllHitsRayResultCallback ammo = Some rayTest ->
  let qualifying :=
    qualifyingHits tagsHas options
      (rayTest start end_ (filterCollisionGroup options) (filterCollisionMask options)) in
  let result := fst (raycastFirst tagsHas ammo start end_ options) in
  (qualifying = [] -> result = Normal None) /\
  (qualifying <> [] ->
   exists r, result = Normal (Some r) /\ In r qualifying /\
             forall r', In r' qualifying -> (hitFraction r <= hitFraction r')%Q).
Proof.
  intros Hf Hcap qualifying result.
  assert (Hres : result = Normal (hd_error (arraySort compareFn qualifying))).
  { subst result. unfold raycastFirst. unfold hasFilter in Hf. rewrite Hf. cbn [fst].
    now rewrite (raycastAll_sorted_unfold tagsHas ammo start end_ options Hcap). }
  pose proof (arraySort_perm compareFn qualifying) as Hperm.
  pose proof (arraySort_sorted qualifying) as Hsorted.
  rewrite Hres. split.
  - intros ->. reflexivity.
  - intros Hne. destruct (arraySort compareFn qualifying) as [|r rest] eqn:Es.
    + apply Permutation_nil in Hperm. contradiction.
    + exists r. split; [reflexivity|]. split.
      * apply (Permutation_in _ Hperm). now left.
      * intros r' Hr'. apply (StronglySorted_head Hsorted).
        apply (Permutation_in _ (Permutation_sym Hperm)). exact Hr'.
Qed.

(** Without the all-hits callback, [raycastAll] throws.  So does
    [raycastFirst] when a filter is present, after it has set [sort] on the
    caller's options; without a filter it does not need the callback. *)
Theorem raycast_without_all_hits (TagQuery : Type)
    (tagsHas : EntityRef -> TagQuery -> bool) (ammo : Ammo) (start end_ : Vec3)
    (options : Options TagQuery) :
  AllHitsRayResultCallback ammo = None ->
  (exists e, raycastAll tagsHas ammo start end_ options = Throw e) /\
  (hasFilter options = true ->
   (exists e, fst (raycastFirst tagsHas ammo start end_ options) = Throw e) /\
   sort (snd (raycastFirst tagsHas ammo start end_ options)) = true) /\
  (hasFilter options = false ->
   (exists r, fst (raycastFirst tagsHas ammo start end_ options) = Normal r) /\
   snd (raycastFirst tagsHas ammo start end_ options) = options).
Proof.
  intros Hcap. unfold hasFilter, raycastFirst, raycastAll. rewrite Hcap.
  split; [eauto|]. split; intros ->; cbn [fst snd]; eauto.
Qed.

(* ------------------------------------------------------------------ *)
(** ** More on [_storeCollision] *)

Lemma keys_assign (g : Guid) (c c0 : CollisionRecord) (m : CollisionMap) :
  lookup g m = Some c0 -> keys (assign g c m) = keys m.
Proof.
  induction m as [|[k c1] m IH]; cbn [assign lookup keys map fst]; [discriminate|].
  destruct (String.eqb k g) eqn:E; cbn [keys map fst]; [reflexivity|].
  intros Hl. fold (keys (assign g c m)) (keys m). now rewrite IH.
Qed.

(** [_storeCollision(entity, other)] touches only the records under the
    guid of [entity]: every record under another guid is as it was, in both
    maps.  A record that was there under the guid stays in its place among
    the guids and keeps its owning entity; in the transient map it has
    [other] added at the end of its others. *)
Theorem storeCollision_touches_one_guid (sc : Scene) (e o : EntityRef) (s : Provider) :
  let g := getGuid (entities sc e) in
  let s' := snd (_storeCollision sc e o s) in
  (forall g', g' <> g ->
              lookup g' (collisions s') = lookup g' (collisions s) /\
              lookup g' (frameCollisions s') = lookup g' (frameCollisions s)) /\
  (forall c, lookup g (collisions s) = Some c ->
             keys (collisions s') = keys (collisions s) /\
             exists c', lookup g (collisions s') = Some c' /\ entity c' = entity c) /\
  (forall f, lookup g (frameCollisions s) = Some f ->
             keys (frameCollisions s') = keys (frameCollisions s) /\
             lookup g (frameCollisions s') =
             Some {| others := others f ++ [o]; entity := entity f |}).
Proof.
  intros g s'. subst s'. rewrite storeCollision_unfold. fold g.
  cbn [snd collisions frameCollisions]. split; [|split].
  - intros g' Hne. split.
    + destruct (indexOf _ o <? 0)%Z; apply lookup_assign_neq; auto.
    + apply lookup_assign_neq; auto.
  - intros c Hc. unfold orFresh. rewrite Hc. split.
    + destruct (indexOf _ o <? 0)%Z; apply keys_assign with (c0 := c); exact Hc.
    + destruct (indexOf _ o <? 0)%Z; rewrite lookup_assign_eq; eauto.
  - intros f Hf. unfold orFresh. rewrite Hf. split.
    + apply keys_assign with (c0 := f). exact Hf.
    + now rewrite lookup_assign_eq.
Qed.

(* ------------------------------------------------------------------ *)
(** ** A scene without listeners *)



(* ------------------------------------------------------------------ *)
(** ** Gravity and transforms *)

Lemma differs_false_iff (a b : Q) : AmmoTransforms.differs a b = false <-> (a == b)%Q.
Proof.
  unfold AmmoTransforms.differs. rewrite negb_false_iff. apply Qeq_bool_iff.
Qed.

Lemma setGravity_unchanged_iff (g w : Vec3) :
  snd (AmmoTransforms.setGravity g w) = [] <-> sameVec3 w g.
Proof.
  unfold AmmoTransforms.setGravity, sameVec3.
  rewrite <- !differs_false_iff.
  destruct (AmmoTransforms.differs (x w) (x g)), (AmmoTransforms.differs (y w) (y g)),
    (AmmoTransforms.differs (z w) (z g)); cbn; intuition discriminate.
Qed.

(** [setGravity] leaves the given gravity in the dynamics world, calls the
    world only when the gravity it holds differs from the given one in some
    component, and then once; repeated with the same gravity, it makes no
    call. *)
Theorem setGravity_sets_once (g w : Vec3) :
  let r := AmmoTransforms.setGravity g w in
  sameVec3 (fst r) g /\
  (snd r = [] <-> sameVec3 w g) /\
  (snd r = [] \/ snd r = [AmmoTransforms.SetGravity g]) /\
  AmmoTransforms.setGravity g (fst r) = (fst r, []).
Proof.
  intros r. subst r.
  assert (Hsame : sameVec3 (fst (AmmoTransforms.setGravity g w)) g).
  { destruct (snd (AmmoTransforms.setGravity g w)) eqn:Es.
    - apply setGravity_unchanged_iff in Es.
      unfold AmmoTransforms.setGravity in *.
      destruct (_ || _ || _); [|exact Es]. repeat split; apply Qeq_refl.
    - unfold AmmoTransforms.setGravity in *.
      destruct (_ || _ || _); [|discriminate]. repeat split; apply Qeq_refl. }
  split; [exact Hsame|]. split; [apply setGravity_unchanged_iff|]. split.
  - unfold AmmoTransforms.setGravity. destruct (_ || _ || _); auto.
  - apply setGravity_unchanged_iff in Hsame.
    unfold AmmoTransforms.setGravity in Hsame |- * at 1.
    destruct (_ || _ || _); [discriminate|reflexivity].
Qed.

(** [syncEntityToBody]: without a body nothing is done.  With a body, the
    world transform of the body is set from the entity (from the shape of its
    collision component, if it has one); then, [BODYTYPE_KINEMATIC] being
    bound nowhere unless the global object has it, the method throws, and
    [body.activate()] is not reached. *)
Theorem syncEntityToBody_stops_before_activate (globals : list string)
    (typeIsKinematic : bool) (sc : Scene) (place : EntityRef -> AmmoTransforms.Placement)
    (body : option bool) (entity : EntityRef) :
  rigidbody (entities sc entity) <> None ->
  ~ In "BODYTYPE_KINEMATIC"%string globals ->
  let r := AmmoTransforms.syncEntityToBody globals typeIsKinematic sc place body entity in
  (body = None -> r = (Normal tt, [])) /\
  (body <> None ->
   r = (Throw (ReferenceError "BODYTYPE_KINEMATIC"),
        [AmmoTransforms.BodySetWorldTransform
           (AmmoTransforms.getEntityTransform sc place entity)]) /\
   ~ In AmmoTransforms.BodyActivate (snd r)).
Proof.
  intros Hrb Hg r. subst r. unfold AmmoTransforms.syncEntityToBody.
  destruct (rigidbody (entities sc entity)); [|contradiction].
  assert (Hres : resolves ["entity"; "body"]%string globals "BODYTYPE_KINEMATIC" = false).
  { unfold resolves. rewrite !existsb_app.
    replace (existsb (String.eqb "BODYTYPE_KINEMATIC") ["entity"; "body"]%string)
      with false by reflexivity.
    replace (existsb (String.eqb "BODYTYPE_KINEMATIC") moduleBindings)
      with false by reflexivity.
    cbn [orb]. destruct (existsb _ globals) eqn:Hex; [|reflexivity].
    apply existsb_exists in Hex. destruct Hex as [v [Hin Heq]].
    apply String.eqb_eq in Heq. subst v. contradiction. }
  split.
  - intros ->. reflexivity.
  - destruct body as [ms|]; [intros _|intros H; contradiction].
    rewrite Hres. split; [reflexivity|]. cbn [snd In]. intros [H|[]]. discriminate.
Qed.

(* ------------------------------------------------------------------ *)
(** ** Component data *)

Lemma assignProps_assigned (properties : list string) (data : ComponentData.Data) :
  ComponentData.assigned (ComponentData.assignProps properties data) =
  filter (ComponentData.hasOwnProperty data) properties.
Proof.
  induction properties as [|p properties IH]; [reflexivity|].
  cbn [ComponentData.assignProps filter]. unfold ComponentData.hasOwnProperty at 1.
  destruct (ComponentData.get p data) as [[q|t|b|l|v]|];
    cbn [ComponentData.assigned flat_map app]; fold (ComponentData.assigned);
    try (f_equal; exact IH); exact IH.
Qed.

(** [initializeComponentData] assigns, in the order of its list, exactly
    the eleven listed properties that the data block has as own properties,
    each once: no other property of the block is assigned by it ([enabled] is
    left to the base class), and a property missing from the block is not
    touched. *)
Theorem initializeComponentData_assigns_listed (data : ComponentData.Data) :
  ComponentData.assigned (ComponentData.initializeComponentData data) =
  filter (ComponentData.hasOwnProperty data) ComponentData.props /\
  (forall p, In p (ComponentData.assigned (ComponentData.initializeComponentData data)) ->
             In p ComponentData.props /\ ComponentData.hasOwnProperty data p = true) /\
  NoDup (ComponentData.assigned (ComponentData.initializeComponentData data)).
Proof.
  assert (Heq : ComponentData.assigned (ComponentData.initializeComponentData data) =
                filter (ComponentData.hasOwnProperty data) ComponentData.props).
  { unfold ComponentData.initializeComponentData.
    rewrite <- (assignProps_assigned ComponentData.props data).
    generalize (ComponentData.assignProps ComponentData.props data). intros actions.
    unfold ComponentData.assigned. rewrite flat_map_app. cbn [flat_map].
    now rewrite app_nil_r. }
  split; [exact Heq|]. rewrite Heq. split.
  - intros p Hp. apply filter_In in Hp. exact Hp.
  - apply NoDup_filter.
    assert (H : nodup string_dec ComponentData.props = ComponentData.props)
      by (vm_compute; reflexivity).
    rewrite <- H. apply NoDup_nodup.
Qed.

(** The data block of [cloneComponent], handed to
    [initializeComponentData], assigns to the clone the values of the source
    component, property by property; the two factors, written as arrays into
    the block, come back as the vectors they were. *)
Theorem cloneComponent_round_trip (rigidbody : ComponentData.RigidBodyComponent) :
  ComponentData.initializeComponentData (ComponentData.cloneComponent rigidbody) =
  [ComponentData.Assign "mass" (ComponentData.VNumber (ComponentData.mass rigidbody));
   ComponentData.Assign "linearDamping"
     (ComponentData.VNumber (ComponentData.linearDamping rigidbody));
   ComponentData.Assign "angularDamping"
     (ComponentData.VNumber (ComponentData.angularDamping rigidbody));
   ComponentData.Assign "linearFactor"
     (ComponentData.VVec3 (ComponentData.linearFactor rigidbody));
   ComponentData.Assign "angularFactor"
     (ComponentData.VVec3 (ComponentData.angularFactor rigidbody));
   ComponentData.Assign "friction" (ComponentData.VNumber (ComponentData.friction rigidbody));
   ComponentData.Assign "rollingFriction"
     (ComponentData.VNumber (ComponentData.rollingFriction rigidbody));
   ComponentData.Assign "restitution"
     (ComponentData.VNumber (ComponentData.restitution rigidbody));
   ComponentData.Assign "type" (ComponentData.VString (ComponentData.type rigidbody));
   ComponentData.Assign "group" (ComponentData.VNumber (ComponentData.group rigidbody));
   ComponentData.Assign "mask" (ComponentData.VNumber (ComponentData.mask rigidbody));
   ComponentData.SuperInitializeComponentData ["enabled"%string]].
Proof.
  destruct rigidbody as [en m ld ad [lx ly lz] [ax ay az] f rf re t g k].
  reflexivity.
Qed.

(* ------------------------------------------------------------------ *)
(** ** These theorems at work on the examples *)

Lemma invariant_constructor : invariant constructor.
Proof. split; constructor. Defined.

Lemma invariant_leaving : invariant Example.leaving.
Proof.
  split.
  - unfold uniqueKeys. cbn. constructor; [intros []|constructor].
  - unfold noDuplicateOthers. cbn. repeat constructor. intros [].
Defined.

Lemma ownersMatch_leaving : ownersMatch Example.scene (collisions Example.leaving).
Proof. unfold ownersMatch. cbn. repeat constructor. Defined.

Lemma invariant_resting : invariant Example2.resting.
Proof.
  split.
  - unfold uniqueKeys. cbn. constructor; [|constructor; [intros []|constructor]].
    cbn. intros [H|[]]. discriminate.
  - unfold noDuplicateOthers. cbn. repeat constructor; intros [].
Defined.

Lemma ownersMatch_resting : ownersMatch Example.scene (collisions Example2.resting).
Proof. unfold ownersMatch. cbn. repeat constructor. Defined.

Lemma checkForCollisions_lists_this_step_witness :
  In Example.floor
     (othersOf (collisions (fst (_checkForCollisions Example.NORESPONSE Example.scene
                                   [Example.crateOnFloor] constructor)))
               "27ab-crate"%string)
  <->
  In Example.floor
     (othersOf (frameCollisions (fst (_checkForCollisions Example.NORESPONSE Example.scene
                                        [Example.crateOnFloor] constructor)))
               "27ab-crate"%string).
Proof.
  exact (@checkForCollisions_lists_this_step Example.NORESPONSE Example.scene
           [Example.crateOnFloor] constructor invariant_constructor
           "27ab-crate"%string Example.floor).
Defined.

Lemma collisionstart_only_on_new_pair_witness :
  ~ In Example.floor (persistentOthers Example.scene Example.crate constructor).
Proof.
  refine (proj1 (@collisionstart_only_on_new_pair Example.NORESPONSE Example.scene
                   [Example.crateOnFloor] constructor invariant_constructor
                   Example.crate Collision
                   (_createContactResult Example.floor
                      (map _createContactPointFromAmmo
                           (contactPoints Example.crateOnFloor))) _)).
  vm_compute. do 3 right. left. reflexivity.
Defined.

Lemma contact_and_triggerenter_on_listed_pairs_witness :
  In Example.crate
     (persistentOthers Example.scene Example.volume
        (fst (_checkForCollisions Example.NORESPONSE Example.scene
                [Example.crateInVolume] constructor))) \/
  In Example.volume
     (persistentOthers Example.scene Example.crate
        (fst (_checkForCollisions Example.NORESPONSE Example.scene
                [Example.crateInVolume] constructor))).
Proof.
  refine (proj2 (@contact_and_triggerenter_on_listed_pairs Example.NORESPONSE Example.scene
                   [Example.crateInVolume] constructor invariant_constructor)
                Example.volume Collision Example.crate _).
  vm_compute. left. reflexivity.
Defined.

Lemma exit_events_only_on_ended_pair_witness :
  In Example.crate (persistentOthers Example.scene Example.volume Example.leaving) /\
  ~ In Example.crate
       (persistentOthers Example.scene Example.volume
          (fst (_checkForCollisions Example.NORESPONSE Example.scene [] Example.leaving))).
Proof.
  refine (proj1 (proj2 (@exit_events_only_on_ended_pair Example.NORESPONSE Example.scene
                          [] Example.leaving invariant_leaving ownersMatch_leaving))
                Example.volume Example.crate _).
  vm_compute. left. reflexivity.
Defined.

Lemma staying_pair_fires_no_edge_witness :
  ~ In (FireComponent Example.crate Rigidbody collisionend (PEntity Example.floor))
       (snd (_checkForCollisions Example.NORESPONSE Example.scene
               [Example.crateOnFloor] Example2.resting)).
Proof.
  refine (proj1 (proj2 (@staying_pair_fires_no_edge Example.NORESPONSE Example.scene
                          [Example.crateOnFloor] Example2.resting
                          Example.crate Example.floor
                          invariant_resting ownersMatch_resting _ _)) Rigidbody).
  - vm_compute. left. reflexivity.
  - vm_compute. left. reflexivity.
Defined.

Lemma records_stay_under_owner_guid_witness :
  ownersMatch Example.scene
    (collisions (snd (_storeCollision Example.scene Example.crate Example.floor
                                      Example.leaving))).
Proof.
  exact (proj1 (@records_stay_under_owner_guid Example.NORESPONSE Example.scene
                  Example.leaving invariant_leaving ownersMatch_leaving)
               Example.crate Example.floor).
Defined.


Lemma cleanOldCollisions_twice_witness :
  _cleanOldCollisions Example.scene (fst (_cleanOldCollisions Example.scene Example2.resting)) =
  (fst (_cleanOldCollisions Example.scene Example2.resting), []).
Proof.
  exact (@cleanOldCollisions_twice Example.scene Example2.resting (proj1 invariant_resting)).
Defined.

Lemma contact_fired_each_step_witness :
  In (FireComponent Example.floor Rigidbody contact
        (PContact (_createContactResult Example.crate
                     (map _createReverseContactPointFromAmmo
                          (contactPoints Example.crateOnFloor)))))
     (snd (_checkForCollisions Example.NORESPONSE Example.scene
             [Example.crateInVolume; Example.crateOnFloor] Example2.resting)).
Proof.
  refine (proj2 (@contact_fired_each_step Example.NORESPONSE Example.scene
                   [Example.crateInVolume; Example.crateOnFloor] Example2.resting
                   Example.crateOnFloor Example.crate Example.floor _ _ _ _ _)
                Rigidbody _ _).
  - right. left. reflexivity.
  - reflexivity.
  - reflexivity.
  - discriminate.
  - reflexivity.
  - reflexivity.
  - reflexivity.
Defined.

Lemma first_contact_fires_collisionstart_witness :
  In (FireComponent Example.crate Rigidbody collisionstart
        (PContact (_createContactResult Example.floor
                     (map _createContactPointFromAmmo
                          (contactPoints Example.crateOnFloor)))))
     (snd (processManifold Example.NORESPONSE Example.scene Example.crateOnFloor
                           Example.leaving)).
Proof.
  refine (@first_contact_fires_collisionstart Example.NORESPONSE Example.scene
            Example.crateOnFloor Example.crate Example.floor Example.leaving Rigidbody
            _ _ _ _ _ _ _).
  - reflexivity.
  - reflexivity.
  - discriminate.
  - reflexivity.
  - reflexivity.
  - reflexivity.
  - cbn. intros [].
Defined.

Lemma trigger_entry_fires_once_witness :
  snd (triggerPath Example.NORESPONSE Example.scene Example.crate Example.volume
                   0%Z 4%Z Example.leaving) = [].
Proof.
  refine (proj2 (proj2 (@trigger_entry_fires_once Example.NORESPONSE Example.scene
                          Example.volume Example.crate 4%Z 0%Z Example.leaving _ _) _)).
  - reflexivity.
  - reflexivity.
  - vm_compute. left. reflexivity.
Defined.

Lemma overlapping_triggers_fire_nothing_witness :
  snd (triggerPath Example.NORESPONSE Example2.volumes Example2.pond Example2.fog
                   4%Z 4%Z constructor) = [].
Proof.
  refine (@overlapping_triggers_fire_nothing Example.NORESPONSE Example2.volumes
            Example2.pond Example2.fog 4%Z 4%Z constructor _ _ _ _); reflexivity.
Defined.

Lemma raycastFirst_filtered_closest_witness :
  exists r,
    fst (raycastFirst Example.tagsHas Example.olderAmmo Example.above Example.below
                      Example.onlyBodies) = Normal (Some r) /\
    hitEntity r <> None.
Proof.
  destruct (proj2 (@raycastFirst_filtered_closest string Example.tagsHas Example.olderAmmo
                     Example.above Example.below Example.onlyBodies
                     (fun _ _ _ _ => [Example.hitOn Example.floorBody (3 # 5)%Q;
                                      Example.hitOn Example.foreignBody (1 # 10)%Q;
                                      Example.hitOn Example.crateBody (2 # 5)%Q])
                     eq_refl eq_refl))
    as (r & Hres & Hin & _).
  - discriminate.
  - exists r. split; [exact Hres|].
    cbn in Hin. destruct Hin as [<-|[<-|[]]]; discriminate.
Defined.

Lemma raycast_without_all_hits_witness :
  sort (snd (raycastFirst Example.tagsHas Example2.oldestAmmo Example.above Example.below
                          Example.onlyBodies)) = true.
Proof.
  exact (proj2 (proj1 (proj2 (@raycast_without_all_hits string Example.tagsHas
                                Example2.oldestAmmo Example.above Example.below
                                Example.onlyBodies eq_refl)) eq_refl)).
Defined.


Lemma syncEntityToBody_stops_before_activate_witness :
  fst (AmmoTransforms.syncEntityToBody ["Ammo"; "window"]%string false Example.scene
         Example2.place (Some true) Example.crate)
  = Throw (ReferenceError "BODYTYPE_KINEMATIC").
Proof.
  refine (f_equal fst (proj1 (proj2 (@syncEntityToBody_stops_before_activate
            ["Ammo"; "window"]%string false Example.scene Example2.place (Some true)
            Example.crate _ _) _))).
  - discriminate.
  - cbn. intros [H|[H|[]]]; discriminate.
  - discriminate.
Defined.
